(** * levitate: transducer models and transducer arrays

    A shallow embedding of [levitate/models.py] and [levitate/arrays.py].

    The Python code computes with numpy [float64] and [complex128] values.
    The arithmetic is an interface, [Float], with two instances:
    - [R] itself, the exact real numbers, where rounding is idealised away;
      the algebraic and analytic properties are proved on this instance;
    - [option R], the reals extended with one non-finite element ([None],
      standing for NaN and the infinities), where a division by zero and the
      square root of a negative number give the non-finite element, which
      every operation propagates; the properties about the singular
      geometries are proved on this instance.
    numpy evaluates every operation elementwise over the batch of receiver
    positions: the embedding is written for one receiver position. *)

From Stdlib Require Import Reals Lra Lia ZArith List Ascii RNsatz.
From stdpp Require Import gmap strings list.

Set Default Proof Using "Type".
Open Scope R_scope.

(** ** The arithmetic of the numpy scalars *)

Declare Scope fl_scope.
Delimit Scope fl_scope with fl.

Class Float (T : Type) := {
  lit : R -> T;                 (* a finite constant *)
  fadd : T -> T -> T;
  fsub : T -> T -> T;
  fmul : T -> T -> T;
  fdiv : T -> T -> T;
  fopp : T -> T;
  fpow : T -> nat -> T;         (* x ** n, n a literal *)
  fsqrt : T -> T;               (* x ** 0.5 *)
  fexp : T -> T;
  fcos : T -> T;
  fsin : T -> T;
  fatan2 : T -> T -> T;         (* np.arctan2 y x *)
  feq0 : T -> bool              (* x == 0 *)
}.

Arguments lit {T _} x%_R.

Infix "+" := fadd : fl_scope.
Infix "-" := fsub : fl_scope.
Infix "*" := fmul : fl_scope.
Infix "/" := fdiv : fl_scope.
Notation "- x" := (fopp x) : fl_scope.
Infix "^" := fpow : fl_scope.

(** [np.arctan2 y x] on the reals: the angle of the point [(x, y)], in
    [(-PI, PI]], and [0] at the origin. *)
Definition atan2 (y x : R) : R :=
  if Rlt_dec 0 x then atan (y / x)
  else if Rlt_dec x 0 then
    (if Rle_dec 0 y then atan (y / x) + PI else atan (y / x) - PI)
  else if Rlt_dec 0 y then PI / 2
  else if Rlt_dec y 0 then - (PI / 2)
  else 0.

Definition Req0 (x : R) : bool := if Req_dec_T x 0 then true else false.

(** Exact real arithmetic. *)
#[export] Instance ideal : Float R := {|
  lit x := x;
  fadd := Rplus; fsub := Rminus; fmul := Rmult; fdiv := Rdiv; fopp := Ropp;
  fpow := pow; fsqrt := sqrt; fexp := exp; fcos := cos; fsin := sin;
  fatan2 := atan2; feq0 := Req0
|}.

(** The reals with a non-finite element. *)
Definition lift1 (f : R -> R) (x : option R) : option R := f <$> x.

Definition lift2 (f : R -> R -> R) (x y : option R) : option R :=
  match x, y with
  | Some a, Some b => Some (f a b)
  | _, _ => None
  end.

Definition gdiv (x y : option R) : option R :=
  match x, y with
  | Some a, Some b => if Req0 b then None else Some (a / b)
  | _, _ => None
  end.

Definition gsqrt (x : option R) : option R :=
  match x with
  | Some a => if Rlt_dec a 0 then None else Some (sqrt a)
  | None => None
  end.

Definition geq0 (x : option R) : bool :=
  match x with
  | Some a => Req0 a
  | None => false
  end.

#[export] Instance guarded : Float (option R) := {|
  lit x := Some x;
  fadd := lift2 Rplus; fsub := lift2 Rminus; fmul := lift2 Rmult;
  fdiv := gdiv; fopp := lift1 Ropp;
  fpow x n := lift1 (fun a => pow a n) x;
  fsqrt := gsqrt; fexp := lift1 exp; fcos := lift1 cos; fsin := lift1 sin;
  fatan2 := lift2 atan2; feq0 := geq0
|}.

(** ** Complex numbers: numpy's [complex128] *)

Record Cx (T : Type) := mkCx { re : T; im : T }.
Arguments mkCx {T} _ _.
Arguments re {T} _.
Arguments im {T} _.

Declare Scope cx_scope.
Delimit Scope cx_scope with cx.

Section Complex.
Context {T : Type} `{Float T}.
Local Open Scope fl_scope.

(** A real operand of a complex operation is promoted to a complex number. *)
Definition cof (x : T) : Cx T := mkCx x (lit 0).
(** The literal [1j]. *)
Definition Cj : Cx T := mkCx (lit 0) (lit 1).

Definition cadd (z w : Cx T) : Cx T := mkCx (re z + re w) (im z + im w).
Definition csub (z w : Cx T) : Cx T := mkCx (re z - re w) (im z - im w).
Definition cmul (z w : Cx T) : Cx T :=
  mkCx (re z * re w - im z * im w) (re z * im w + im z * re w).
Definition cdiv (z w : Cx T) : Cx T :=
  let d := re w * re w + im w * im w in
  mkCx ((re z * re w + im z * im w) / d) ((im z * re w - re z * im w) / d).
(** [np.exp] of a complex number. *)
Definition cexp (z : Cx T) : Cx T :=
  mkCx (fexp (re z) * fcos (im z)) (fexp (re z) * fsin (im z)).
(** [np.abs] and [np.angle] of a complex number. *)
Definition cabs (z : Cx T) : T := fsqrt (re z * re z + im z * im z).
Definition cangle (z : Cx T) : T := fatan2 (im z) (re z).
End Complex.

Arguments cof {T _} x%_fl.

Infix "+" := cadd : cx_scope.
Infix "-" := csub : cx_scope.
Infix "*" := cmul : cx_scope.
Infix "/" := cdiv : cx_scope.

(** ** Positions and normals: arrays of three coordinates *)

Record Vec3 (T : Type) := mkVec3 { vx : T; vy : T; vz : T }.
Arguments mkVec3 {T} _ _ _.
Arguments vx {T} _.
Arguments vy {T} _.
Arguments vz {T} _.

Section Vectors.
Context {T : Type} `{Float T}.
Local Open Scope fl_scope.

Definition vadd (a b : Vec3 T) : Vec3 T :=
  mkVec3 (vx a + vx b) (vy a + vy b) (vz a + vz b).
Definition vsub (a b : Vec3 T) : Vec3 T :=
  mkVec3 (vx a - vx b) (vy a - vy b) (vz a - vz b).
(** [a * b], elementwise. *)
Definition vmul (a b : Vec3 T) : Vec3 T :=
  mkVec3 (vx a * vx b) (vy a * vy b) (vz a * vz b).
(** [s * a] and [a * s] for a scalar [s]. *)
Definition vscale (s : T) (a : Vec3 T) : Vec3 T :=
  mkVec3 (s * vx a) (s * vy a) (s * vz a).
Definition vmuls (a : Vec3 T) (s : T) : Vec3 T :=
  mkVec3 (vx a * s) (vy a * s) (vz a * s).
Definition vdivs (a : Vec3 T) (s : T) : Vec3 T :=
  mkVec3 (vx a / s) (vy a / s) (vz a / s).
(** [a.sum(axis=-1)] and [np.sum(a, axis=-1)]. *)
Definition vsum (a : Vec3 T) : T := vx a + vy a + vz a.
(** [a ** 2], elementwise. *)
Definition vsq (a : Vec3 T) : Vec3 T :=
  mkVec3 (vx a ^ 2) (vy a ^ 2) (vz a ^ 2).
(** [a.dot(b)] and [np.einsum('...i,...i', a, b)]. *)
Definition vdot (a b : Vec3 T) : T := vx a * vx b + vy a * vy b + vz a * vz b.
End Vectors.

(** ** Python dictionaries and the values that may raise

    A dictionary with string keys is a [gmap string V]. Reading a missing key
    raises [KeyError]: an expression over dictionary entries is an
    [option], [None] when a key is missing. *)

Declare Scope py_scope.
Delimit Scope py_scope with py.

Section Raising.
Context {T : Type} `{Float T}.

Definition oadd (a b : option (Cx T)) : option (Cx T) :=
  x ← a; y ← b; Some (x + y)%cx.
Definition omul (a b : option (Cx T)) : option (Cx T) :=
  x ← a; y ← b; Some (x * y)%cx.
(** An integer literal in a complex expression. *)
Definition oint (n : Z) : option (Cx T) := Some (cof (lit (IZR n))).

(** [d[key] = value] *)
Definition setitem {V : Type} (key : string) (value : option V)
    (d : gmap string V) : option (gmap string V) :=
  v ← value; Some (<[key := v]> d).
End Raising.

Infix "+" := oadd : py_scope.
Infix "*" := omul : py_scope.

(** [np.sum] of a short array. *)
Definition fsum {T : Type} `{Float T} (l : list T) : T :=
  foldl fadd (lit 0) l.

(** The names of the derivatives of each order. *)
Definition keys_upto (orders : Z) : list string :=
  [""] ++
  (if (0 <? orders)%Z then ["x"; "y"; "z"] else []) ++
  (if (1 <? orders)%Z then ["xx"; "yy"; "zz"; "xy"; "xz"; "yz"] else []) ++
  (if (2 <? orders)%Z
   then ["xxx"; "yyy"; "zzz"; "xxy"; "xxz"; "yyx"; "yyz"; "zzx"; "zzy"]
   else []).

(** ** models.py: [TransducerModel] *)

Module TransducerModel.

(** The attributes of an instance. *)
Record attrs (T : Type) := mk_attrs {
  _k : T;
  _omega : T;
  effective_radius : T;
  p0 : T
}.
Arguments mk_attrs {T} _ _ _ _.
Arguments _k {T} _.
Arguments _omega {T} _.
Arguments effective_radius {T} _.
Arguments p0 {T} _.

(** The methods a subclass overrides; a call [self.directivity(...)] goes
    through the class of [self]. *)
Record class (T : Type) := mk_class {
  cls_directivity : attrs T -> Vec3 T -> Vec3 T -> Vec3 T -> T;
  cls_directivity_derivatives :
    attrs T -> Vec3 T -> Vec3 T -> Vec3 T -> Z -> gmap string T
}.
Arguments mk_class {T} _ _.
Arguments cls_directivity {T} _.
Arguments cls_directivity_derivatives {T} _.

Section Methods.
Context {T : Type} `{Float T}.
Local Open Scope fl_scope.

(** The module global [c_air]. *)
Variable c_air : T.

(** *** The properties [k], [omega], [freq] and [wavelength] *)

Definition k (self : attrs T) : T := _k self.

Definition set_k (value : T) (self : attrs T) : attrs T :=
  {| _k := value; _omega := value * c_air;
     effective_radius := effective_radius self; p0 := p0 self |}.

Definition omega (self : attrs T) : T := _omega self.

Definition set_omega (value : T) (self : attrs T) : attrs T :=
  {| _k := value / c_air; _omega := value;
     effective_radius := effective_radius self; p0 := p0 self |}.

Definition freq (self : attrs T) : T := omega self / lit 2 / lit PI.

Definition set_freq (value : T) (self : attrs T) : attrs T :=
  set_omega (value * lit 2 * lit PI) self.

Definition wavelength (self : attrs T) : T := lit 2 * lit PI / k self.

Definition set_wavelength (value : T) (self : attrs T) : attrs T :=
  set_k (lit 2 * lit PI / value) self.

(** *** The field of one transducer *)

Definition spherical_spreading (self : attrs T)
    (source_position receiver_position : Vec3 T) : Cx T :=
  let diff := vsub receiver_position source_position in
  let distance := fsqrt (vdot diff diff) in
  (cexp (Cj * cof (k self) * cof distance) / cof distance)%cx.

Definition directivity (self : attrs T)
    (source_position source_normal receiver_position : Vec3 T) : T :=
  lit 1.

Definition greens_function (cls : class T) (self : attrs T)
    (source_position source_normal receiver_position : Vec3 T) : Cx T :=
  (cof (p0 self) * spherical_spreading self source_position receiver_position
   * cof (cls_directivity cls self source_position source_normal
            receiver_position))%cx.

Definition spherical_derivatives (self : attrs T)
    (source_position receiver_position : Vec3 T) (orders : Z)
    : gmap string (Cx T) :=
  let diff := vsub receiver_position source_position in
  let r := fsqrt (vsum (vsq diff)) in
  let kr := k self * r in
  let jkr := (Cj * cof kr)%cx in
  let phase := cexp jkr in
  let derivatives : gmap string (Cx T) := {[ "" := (phase / cof r)%cx ]} in
  let derivatives :=
    if (0 <? orders)%Z then
      let coeff := ((jkr - cof (lit 1)) * phase / cof (r ^ 3))%cx in
      let derivatives := <["x" := (cof (vx diff) * coeff)%cx]> derivatives in
      let derivatives := <["y" := (cof (vy diff) * coeff)%cx]> derivatives in
      let derivatives := <["z" := (cof (vz diff) * coeff)%cx]> derivatives in
      derivatives
    else derivatives in
  let derivatives :=
    if (1 <? orders)%Z then
      let coeff :=
        ((cof (lit 3 - kr ^ 2) - cof (lit 3) * jkr) * phase / cof (r ^ 5))%cx in
      let const := ((jkr - cof (lit 1)) * phase / cof (r ^ 3))%cx in
      let derivatives :=
        <["xx" := (cof (vx diff ^ 2) * coeff + const)%cx]> derivatives in
      let derivatives :=
        <["yy" := (cof (vy diff ^ 2) * coeff + const)%cx]> derivatives in
      let derivatives :=
        <["zz" := (cof (vz diff ^ 2) * coeff + const)%cx]> derivatives in
      let derivatives :=
        <["xy" := (cof (vx diff * vy diff) * coeff)%cx]> derivatives in
      let derivatives :=
        <["xz" := (cof (vx diff * vz diff) * coeff)%cx]> derivatives in
      let derivatives :=
        <["yz" := (cof (vy diff * vz diff) * coeff)%cx]> derivatives in
      derivatives
    else derivatives in
  let derivatives :=
    if (2 <? orders)%Z then
      let const :=
        ((cof (lit 3) - cof (lit 3) * jkr - cof (kr ^ 2)) * phase
         / cof (r ^ 5))%cx in
      let coeff :=
        (((jkr - cof (lit 1)) * cof (lit 15 - kr ^ 2)
          + cof (lit 5 * kr ^ 2)) * phase / cof (r ^ 7))%cx in
      let derivatives :=
        <["xxx" := (cof (vx diff)
                    * (cof (lit 3) * const + cof (vx diff ^ 2) * coeff))%cx]>
          derivatives in
      let derivatives :=
        <["yyy" := (cof (vy diff)
                    * (cof (lit 3) * const + cof (vy diff ^ 2) * coeff))%cx]>
          derivatives in
      let derivatives :=
        <["zzz" := (cof (vz diff)
                    * (cof (lit 3) * const + cof (vz diff ^ 2) * coeff))%cx]>
          derivatives in
      let derivatives :=
        <["xxy" := (cof (vy diff) * (const + cof (vx diff ^ 2) * coeff))%cx]>
          derivatives in
      let derivatives :=
        <["xxz" := (cof (vz diff) * (const + cof (vx diff ^ 2) * coeff))%cx]>
          derivatives in
      let derivatives :=
        <["yyx" := (cof (vx diff) * (const + cof (vy diff ^ 2) * coeff))%cx]>
          derivatives in
      let derivatives :=
        <["yyz" := (cof (vz diff) * (const + cof (vy diff ^ 2) * coeff))%cx]>
          derivatives in
      let derivatives :=
        <["zzx" := (cof (vx diff) * (const + cof (vz diff ^ 2) * coeff))%cx]>
          derivatives in
      let derivatives :=
        <["zzy" := (cof (vy diff) * (const + cof (vz diff ^ 2) * coeff))%cx]>
          derivatives in
      derivatives
    else derivatives in
  derivatives.

(** The finite-difference stencils: for each derivative, the shifts of
    the receiver position, in steps of [h], and their weights. *)
Definition finite_difference_coefficients (orders : Z)
    : gmap string (list (Vec3 Z) * list R) :=
  let V := @mkVec3 Z in
  let fdc : gmap string (list (Vec3 Z) * list R) :=
    {[ "" := ([V 0 0 0]%Z, [1]) ]} in
  let fdc :=
    if (0 <? orders)%Z then
      let fdc := <["x" := ([V 1 0 0; V (-1) 0 0]%Z, [0.5; -0.5])]> fdc in
      let fdc := <["y" := ([V 0 1 0; V 0 (-1) 0]%Z, [0.5; -0.5])]> fdc in
      let fdc := <["z" := ([V 0 0 1; V 0 0 (-1)]%Z, [0.5; -0.5])]> fdc in
      fdc
    else fdc in
  let fdc :=
    if (1 <? orders)%Z then
      let fdc := <["xx" := ([V 1 0 0; V 0 0 0; V (-1) 0 0]%Z, [1; -2; 1])]> fdc in
      let fdc := <["yy" := ([V 0 1 0; V 0 0 0; V 0 (-1) 0]%Z, [1; -2; 1])]> fdc in
      let fdc := <["zz" := ([V 0 0 1; V 0 0 0; V 0 0 (-1)]%Z, [1; -2; 1])]> fdc in
      let fdc := <["xy" := ([V 1 1 0; V (-1) (-1) 0; V 1 (-1) 0; V (-1) 1 0]%Z,
                            [0.25; 0.25; -0.25; -0.25])]> fdc in
      let fdc := <["xz" := ([V 1 0 1; V (-1) 0 (-1); V 1 0 (-1); V (-1) 0 1]%Z,
                            [0.25; 0.25; -0.25; -0.25])]> fdc in
      let fdc := <["yz" := ([V 0 1 1; V 0 (-1) (-1); V 0 (-1) 1; V 0 1 (-1)]%Z,
                            [0.25; 0.25; -0.25; -0.25])]> fdc in
      fdc
    else fdc in
  let fdc :=
    if (2 <? orders)%Z then
      let fdc := <["xxx" := ([V 2 0 0; V (-2) 0 0; V 1 0 0; V (-1) 0 0]%Z,
                             [0.5; -0.5; -1; 1])]> fdc in
      let fdc := <["yyy" := ([V 0 2 0; V 0 (-2) 0; V 0 1 0; V 0 (-1) 0]%Z,
                             [0.5; -0.5; -1; 1])]> fdc in
      let fdc := <["zzz" := ([V 0 0 2; V 0 0 (-2); V 0 0 1; V 0 0 (-1)]%Z,
                             [0.5; -0.5; -1; 1])]> fdc in
      let fdc := <["xxy" := ([V 1 1 0; V (-1) (-1) 0; V 1 (-1) 0; V (-1) 1 0;
                              V 0 1 0; V 0 (-1) 0]%Z,
                             [0.5; -0.5; -0.5; 0.5; -1; 1])]> fdc in
      let fdc := <["xxz" := ([V 1 0 1; V (-1) 0 (-1); V 1 0 (-1); V (-1) 0 1;
                              V 0 0 1; V 0 0 (-1)]%Z,
                             [0.5; -0.5; -0.5; 0.5; -1; 1])]> fdc in
      let fdc := <["yyx" := ([V 1 1 0; V (-1) (-1) 0; V (-1) 1 0; V 1 (-1) 0;
                              V 1 0 0; V (-1) 0 0]%Z,
                             [0.5; -0.5; -0.5; 0.5; -1; 1])]> fdc in
      let fdc := <["yyz" := ([V 0 1 1; V 0 (-1) (-1); V 0 1 (-1); V 0 (-1) 1;
                              V 0 0 1; V 0 0 (-1)]%Z,
                             [0.5; -0.5; -0.5; 0.5; -1; 1])]> fdc in
      let fdc := <["zzx" := ([V 1 0 1; V (-1) 0 (-1); V (-1) 0 1; V 1 0 (-1);
                              V 1 0 0; V (-1) 0 0]%Z,
                             [0.5; -0.5; -0.5; 0.5; -1; 1])]> fdc in
      let fdc := <["zzy" := ([V 0 1 1; V 0 (-1) (-1); V 0 (-1) 1; V 0 1 (-1);
                              V 0 1 0; V 0 (-1) 0]%Z,
                             [0.5; -0.5; -0.5; 0.5; -1; 1])]> fdc in
      fdc
    else fdc in
  fdc.

(** [shifts * h + receiver_position[..., np.newaxis, :]], one row. *)
Definition shifted (shift : Vec3 Z) (h : T) (receiver_position : Vec3 T)
    : Vec3 T :=
  vadd (vmuls (mkVec3 (lit (IZR (vx shift))) (lit (IZR (vy shift)))
                 (lit (IZR (vz shift)))) h)
    receiver_position.

(** The finite-difference evaluator. [directivity] is [self.directivity],
    the method of the class of [self]. *)
Definition directivity_derivatives
    (directivity : attrs T -> Vec3 T -> Vec3 T -> Vec3 T -> T)
    (self : attrs T)
    (source_position source_normal receiver_position : Vec3 T) (orders : Z)
    : gmap string T :=
  let h := lit 1 / k self in
  map_imap (fun derivative '(shifts, weights) =>
      Some (fsum (zip_with (fun shift weight =>
                    directivity self source_position source_normal
                      (shifted shift h receiver_position) * lit weight)
                  shifts weights)
            / h ^ String.length derivative))
    (finite_difference_coefficients orders).

(** The product rule, order by order. *)
Definition spatial_derivatives (cls : class T) (self : attrs T)
    (source_position source_normal receiver_position : Vec3 T) (orders : Z)
    : option (gmap string (Cx T)) :=
  let spherical_derivatives :=
    spherical_derivatives self source_position receiver_position orders in
  let directivity_derivatives :=
    cls_directivity_derivatives cls self source_position source_normal
      receiver_position orders in
  let S key := spherical_derivatives !! key in
  let D key := cof <$> directivity_derivatives !! key in
  (derivatives ← setitem "" (S "" * D "") ∅;
   derivatives ←
     (if (0 <? orders)%Z then
        derivatives ← setitem "x" (S "" * D "x" + D "" * S "x") derivatives;
        derivatives ← setitem "y" (S "" * D "y" + D "" * S "y") derivatives;
        derivatives ← setitem "z" (S "" * D "z" + D "" * S "z") derivatives;
        Some derivatives
      else Some derivatives);
   derivatives ←
     (if (1 <? orders)%Z then
        derivatives ← setitem "xx" (S "" * D "xx" + D "" * S "xx" + oint 2 * D "x" * S "x") derivatives;
        derivatives ← setitem "yy" (S "" * D "yy" + D "" * S "yy" + oint 2 * D "y" * S "y") derivatives;
        derivatives ← setitem "zz" (S "" * D "zz" + D "" * S "zz" + oint 2 * D "z" * S "z") derivatives;
        derivatives ← setitem "xy" (S "" * D "xy" + D "" * S "xy" + S "x" * D "y" + D "x" * S "y") derivatives;
        derivatives ← setitem "xz" (S "" * D "xz" + D "" * S "xz" + S "x" * D "z" + D "x" * S "z") derivatives;
        derivatives ← setitem "yz" (S "" * D "yz" + D "" * S "yz" + S "y" * D "z" + D "y" * S "z") derivatives;
        Some derivatives
      else Some derivatives);
   derivatives ←
     (if (2 <? orders)%Z then
        derivatives ← setitem "xxx" (S "" * D "xxx" + D "" * S "xxx" + oint 3 * (D "xx" * S "x" + S "xx" * D "x")) derivatives;
        derivatives ← setitem "yyy" (S "" * D "yyy" + D "" * S "yyy" + oint 3 * (D "yy" * S "y" + S "yy" * D "y")) derivatives;
        derivatives ← setitem "zzz" (S "" * D "zzz" + D "" * S "zzz" + oint 3 * (D "zz" * S "z" + S "zz" * D "z")) derivatives;
        derivatives ← setitem "xxy" (S "" * D "xxy" + D "" * S "xxy" + S "y" * D "xx" + D "y" * S "xx" + oint 2 * (S "x" * D "xy" + D "x" * S "xy")) derivatives;
        derivatives ← setitem "xxz" (S "" * D "xxz" + D "" * S "xxz" + S "z" * D "xx" + D "z" * S "xx" + oint 2 * (S "x" * D "xz" + D "x" * S "xz")) derivatives;
        derivatives ← setitem "yyx" (S "" * D "yyx" + D "" * S "yyx" + S "x" * D "yy" + D "x" * S "yy" + oint 2 * (S "y" * D "xy" + D "y" * S "xy")) derivatives;
        derivatives ← setitem "yyz" (S "" * D "yyz" + D "" * S "yyz" + S "z" * D "yy" + D "z" * S "yy" + oint 2 * (S "y" * D "yz" + D "y" * S "yz")) derivatives;
        derivatives ← setitem "zzx" (S "" * D "zzx" + D "" * S "zzx" + S "x" * D "zz" + D "x" * S "zz" + oint 2 * (S "z" * D "xz" + D "z" * S "xz")) derivatives;
        derivatives ← setitem "zzy" (S "" * D "zzy" + D "" * S "zzy" + S "y" * D "zz" + D "y" * S "zz" + oint 2 * (S "z" * D "yz" + D "z" * S "yz")) derivatives;
        Some derivatives
      else Some derivatives);
   Some ((fun value => (value * cof (p0 self))%cx) <$> derivatives))%py.

(** The class of the point source. *)
Definition cls : class T :=
  mk_class directivity (directivity_derivatives directivity).
End Methods.
End TransducerModel.

(** A loop [for key in d: out[key] = f(key, d[key])] whose body may raise:
    the loop raises when the body raises for some key. *)
Definition map_traverse {A B : Type} (f : string -> A -> option B)
    (d : gmap string A) : option (gmap string B) :=
  if decide (map_Forall (fun key a => is_Some (f key a)) d)
  then Some (map_imap f d)
  else None.

(** ** models.py: [ReflectingTransducer] *)

Module ReflectingTransducer.

(** The attributes [__init__] adds to those of the wrapped class. *)
Record attrs (T : Type) := mk_attrs {
  base : TransducerModel.attrs T;
  plane_distance : T;
  plane_normal : Vec3 T;
  reflection_coefficient : Cx T
}.
Arguments mk_attrs {T} _ _ _ _.
Arguments base {T} _.
Arguments plane_distance {T} _.
Arguments plane_normal {T} _.
Arguments reflection_coefficient {T} _.

Section Methods.
Context {T : Type} `{Float T}.
Local Open Scope fl_scope.

(** [ctype], the wrapped class: [super()] resolves to it. *)
Variable ctype : TransducerModel.class T.

Definition init (super_init : TransducerModel.attrs T) (plane_distance : T)
    (plane_normal : Vec3 T) (reflection_coefficient : Cx T) : attrs T :=
  {| base := super_init;
     plane_distance := plane_distance;
     plane_normal := vdivs plane_normal (fsqrt (vsum (vsq plane_normal)));
     reflection_coefficient := reflection_coefficient |}.

Definition mirror_position (self : attrs T) (source_position : Vec3 T)
    : Vec3 T :=
  vsub source_position
    (vmuls (vscale (lit 2) (plane_normal self))
       (vsum (vmul source_position (plane_normal self))
        - plane_distance self)).

Definition mirror_normal (self : attrs T) (source_normal : Vec3 T)
    : Vec3 T :=
  vsub source_normal
    (vmuls (vscale (lit 2) (plane_normal self))
       (vsum (vmul source_normal (plane_normal self)))).

Definition greens_function (self : attrs T)
    (source_position source_normal receiver_position : Vec3 T) : Cx T :=
  let direct :=
    TransducerModel.greens_function ctype (base self) source_position
      source_normal receiver_position in
  let mirror_position := mirror_position self source_position in
  let mirror_normal := mirror_normal self source_normal in
  let reflected :=
    TransducerModel.greens_function ctype (base self) mirror_position
      mirror_normal receiver_position in
  (direct + reflection_coefficient self * reflected)%cx.

Definition spatial_derivatives (self : attrs T)
    (source_position source_normal receiver_position : Vec3 T) (orders : Z)
    : option (gmap string (Cx T)) :=
  direct ← TransducerModel.spatial_derivatives ctype (base self)
             source_position source_normal receiver_position orders;
  let mirror_position := mirror_position self source_position in
  let mirror_normal := mirror_normal self source_normal in
  reflected ← TransducerModel.spatial_derivatives ctype (base self)
                mirror_position mirror_normal receiver_position orders;
  map_traverse (fun key direct_key =>
      reflected_key ← reflected !! key;
      Some (direct_key + reflection_coefficient self * reflected_key)%cx)
    direct.
End Methods.
End ReflectingTransducer.

(** ** models.py: [CircularPiston] and [CircularRing]

    [j0] and [j1] are the Bessel functions of [scipy.special]. *)

Module CircularPiston.
Section Methods.
Context {T : Type} `{Float T}.
Local Open Scope fl_scope.
Variable j1 : T -> T.

Definition directivity (self : TransducerModel.attrs T)
    (source_position source_normal receiver_position : Vec3 T) : T :=
  let diff := vsub receiver_position source_position in
  let dots := vdot diff source_normal in
  let norm1 := fsqrt (vsum (vsq source_normal)) in
  let norm2 := fsqrt (vdot diff diff) in
  let cos_angle := dots / norm2 / norm1 in
  let sin_angle := fsqrt (lit 1 - cos_angle ^ 2) in
  let ka := TransducerModel.k self * TransducerModel.effective_radius self in
  let denom := ka * sin_angle in
  let numer := j1 denom in
  if feq0 denom then lit 1 else lit 2 * numer / denom.

(** The derivatives of the directivity are the inherited finite
    differences. *)
Definition cls : TransducerModel.class T :=
  TransducerModel.mk_class directivity
    (TransducerModel.directivity_derivatives directivity).
End Methods.
End CircularPiston.

Module CircularRing.
Section Methods.
Context {T : Type} `{Float T}.
Local Open Scope fl_scope.
Variables j0 j1 : T -> T.

Definition directivity (self : TransducerModel.attrs T)
    (source_position source_normal receiver_position : Vec3 T) : T :=
  let diff := vsub receiver_position source_position in
  let dots := vdot diff source_normal in
  let norm1 := fsqrt (vsum (vsq source_normal)) in
  let norm2 := fsqrt (vdot diff diff) in
  let cos_angle := dots / norm2 / norm1 in
  let sin_angle := fsqrt (lit 1 - cos_angle ^ 2) in
  let ka := TransducerModel.k self * TransducerModel.effective_radius self in
  j0 (ka * sin_angle).

(** The Bessel ratios, with their limits at [sin == 0]. *)
Definition J1_xi (sin ka_sin : T) : T :=
  if feq0 sin then lit 0.5 else j1 ka_sin / ka_sin.
Definition J2_xi2 (sin ka_sin : T) : T :=
  if feq0 sin then lit 0.125
  else (lit 2 * J1_xi sin ka_sin - j0 ka_sin) / ka_sin ^ 2.
Definition J3_xi3 (sin ka_sin : T) : T :=
  if feq0 sin then lit 1 / lit 48
  else (lit 4 * J2_xi2 sin ka_sin - J1_xi sin ka_sin) / ka_sin ^ 2.

(** The intermediate values of the three [if orders > ...] blocks are
    bound before the blocks: a later block reads those of the earlier
    ones. *)
Definition directivity_derivatives (self : TransducerModel.attrs T)
    (source_position source_normal receiver_position : Vec3 T) (orders : Z)
    : gmap string T :=
  let diff := vsub receiver_position source_position in
  let d0 := vx diff in let d1 := vy diff in let d2 := vz diff in
  let dot := vdot diff source_normal in
  let r := fsqrt (vsum (vsq diff)) in
  let n := source_normal in
  let n0 := vx n in let n1 := vy n in let n2 := vz n in
  let norm := fsqrt (vsum (vsq n)) in
  let cos := dot / r / norm in
  let sin := fsqrt (lit 1 - cos ^ 2) in
  let ka := TransducerModel.k self * TransducerModel.effective_radius self in
  let ka_sin := ka * sin in
  let J0 := j0 ka_sin in
  let derivatives : gmap string T := {[ "" := J0 ]} in
  (* orders > 0 *)
  let r2 := r ^ 2 in
  let r3 := r ^ 3 in
  let cos_dx := (r2 * n0 - d0 * dot) / r3 / norm in
  let cos_dy := (r2 * n1 - d1 * dot) / r3 / norm in
  let cos_dz := (r2 * n2 - d2 * dot) / r3 / norm in
  let J1_xi := J1_xi sin ka_sin in
  let first_order_const := J1_xi * ka ^ 2 * cos in
  let derivatives :=
    if (0 <? orders)%Z then
      let derivatives := <["x" := first_order_const * cos_dx]> derivatives in
      let derivatives := <["y" := first_order_const * cos_dy]> derivatives in
      let derivatives := <["z" := first_order_const * cos_dz]> derivatives in
      derivatives
    else derivatives in
  (* orders > 1 *)
  let r5 := r2 * r3 in
  let cos_dx2 := (lit 3 * d0 ^ 2 * dot - lit 2 * d0 * n0 * r2 - dot * r2) / r5 / norm in
  let cos_dy2 := (lit 3 * d1 ^ 2 * dot - lit 2 * d1 * n1 * r2 - dot * r2) / r5 / norm in
  let cos_dz2 := (lit 3 * d2 ^ 2 * dot - lit 2 * d2 * n2 * r2 - dot * r2) / r5 / norm in
  let cos_dxdy := (lit 3 * d0 * d1 * dot - r2 * (n0 * d1 + n1 * d0)) / r5 / norm in
  let cos_dxdz := (lit 3 * d0 * d2 * dot - r2 * (n0 * d2 + n2 * d0)) / r5 / norm in
  let cos_dydz := (lit 3 * d1 * d2 * dot - r2 * (n1 * d2 + n2 * d1)) / r5 / norm in
  let J2_xi2 := J2_xi2 sin ka_sin in
  let second_order_const := J2_xi2 * ka ^ 4 * cos ^ 2 + J1_xi * ka ^ 2 in
  let derivatives :=
    if (1 <? orders)%Z then
      let derivatives := <["xx" := second_order_const * cos_dx ^ 2 + first_order_const * cos_dx2]> derivatives in
      let derivatives := <["yy" := second_order_const * cos_dy ^ 2 + first_order_const * cos_dy2]> derivatives in
      let derivatives := <["zz" := second_order_const * cos_dz ^ 2 + first_order_const * cos_dz2]> derivatives in
      let derivatives := <["xy" := second_order_const * cos_dx * cos_dy + first_order_const * cos_dxdy]> derivatives in
      let derivatives := <["xz" := second_order_const * cos_dx * cos_dz + first_order_const * cos_dxdz]> derivatives in
      let derivatives := <["yz" := second_order_const * cos_dy * cos_dz + first_order_const * cos_dydz]> derivatives in
      derivatives
    else derivatives in
  (* orders > 2 *)
  let r4 := r2 ^ 2 in
  let r7 := r5 * r2 in
  let cos_dx3 := (lit (-15) * d0 ^ 3 * dot + lit 9 * r2 * (d0 ^ 2 * n0 + d0 * dot) - lit 3 * r4 * n0) / r7 / norm in
  let cos_dy3 := (lit (-15) * d1 ^ 3 * dot + lit 9 * r2 * (d1 ^ 2 * n1 + d1 * dot) - lit 3 * r4 * n1) / r7 / norm in
  let cos_dz3 := (lit (-15) * d2 ^ 3 * dot + lit 9 * r2 * (d2 ^ 2 * n2 + d2 * dot) - lit 3 * r4 * n2) / r7 / norm in
  let cos_dx2dy := (lit (-15) * d0 ^ 2 * d1 * dot + lit 3 * r2 * (d0 ^ 2 * n1 + lit 2 * d0 * d1 * n0 + d1 * dot) - r4 * n1) / r7 / norm in
  let cos_dx2dz := (lit (-15) * d0 ^ 2 * d2 * dot + lit 3 * r2 * (d0 ^ 2 * n2 + lit 2 * d0 * d2 * n0 + d2 * dot) - r4 * n2) / r7 / norm in
  let cos_dy2dx := (lit (-15) * d1 ^ 2 * d0 * dot + lit 3 * r2 * (d1 ^ 2 * n0 + lit 2 * d1 * d0 * n1 + d0 * dot) - r4 * n0) / r7 / norm in
  let cos_dy2dz := (lit (-15) * d1 ^ 2 * d2 * dot + lit 3 * r2 * (d1 ^ 2 * n2 + lit 2 * d1 * d2 * n1 + d2 * dot) - r4 * n2) / r7 / norm in
  let cos_dz2dx := (lit (-15) * d2 ^ 2 * d0 * dot + lit 3 * r2 * (d2 ^ 2 * n0 + lit 2 * d2 * d0 * n2 + d0 * dot) - r4 * n0) / r7 / norm in
  let cos_dz2dy := (lit (-15) * d2 ^ 2 * d1 * dot + lit 3 * r2 * (d2 ^ 2 * n1 + lit 2 * d2 * d1 * n2 + d1 * dot) - r4 * n1) / r7 / norm in
  let J3_xi3 := J3_xi3 sin ka_sin in
  let third_order_const := J3_xi3 * ka ^ 6 * cos ^ 3 + lit 3 * J2_xi2 * ka ^ 4 * cos in
  let derivatives :=
    if (2 <? orders)%Z then
      let derivatives := <["xxx" := third_order_const * cos_dx ^ 3 + lit 3 * second_order_const * cos_dx2 * cos_dx + first_order_const * cos_dx3]> derivatives in
      let derivatives := <["yyy" := third_order_const * cos_dy ^ 3 + lit 3 * second_order_const * cos_dy2 * cos_dy + first_order_const * cos_dy3]> derivatives in
      let derivatives := <["zzz" := third_order_const * cos_dz ^ 3 + lit 3 * second_order_const * cos_dz2 * cos_dz + first_order_const * cos_dz3]> derivatives in
      let derivatives := <["xxy" := third_order_const * cos_dx ^ 2 * cos_dy + second_order_const * (cos_dx2 * cos_dy + lit 2 * cos_dxdy * cos_dx) + first_order_const * cos_dx2dy]> derivatives in
      let derivatives := <["xxz" := third_order_const * cos_dx ^ 2 * cos_dz + second_order_const * (cos_dx2 * cos_dz + lit 2 * cos_dxdz * cos_dx) + first_order_const * cos_dx2dz]> derivatives in
      let derivatives := <["yyx" := third_order_const * cos_dy ^ 2 * cos_dx + second_order_const * (cos_dy2 * cos_dx + lit 2 * cos_dxdy * cos_dy) + first_order_const * cos_dy2dx]> derivatives in
      let derivatives := <["yyz" := third_order_const * cos_dy ^ 2 * cos_dz + second_order_const * (cos_dy2 * cos_dz + lit 2 * cos_dydz * cos_dy) + first_order_const * cos_dy2dz]> derivatives in
      let derivatives := <["zzx" := third_order_const * cos_dz ^ 2 * cos_dx + second_order_const * (cos_dz2 * cos_dx + lit 2 * cos_dxdz * cos_dz) + first_order_const * cos_dz2dx]> derivatives in
      let derivatives := <["zzy" := third_order_const * cos_dz ^ 2 * cos_dy + second_order_const * (cos_dz2 * cos_dy + lit 2 * cos_dydz * cos_dz) + first_order_const * cos_dz2dy]> derivatives in
      derivatives
    else derivatives in
  derivatives.

Definition cls : TransducerModel.class T :=
  TransducerModel.mk_class directivity directivity_derivatives.
End Methods.
End CircularRing.

(** ** numpy functions used by the arrays *)

(** [np.mod x y] on exact reals: the remainder of the floored division, for
    a divisor other than zero. *)
Definition np_mod (x y : R) : R := x - IZR (Int_part (x / y)) * y.


(** [np.linspace start stop num]: [num] evenly spaced samples, the last one
    set to [stop]. *)
Definition linspace {T : Type} `{Float T} (start stop : T) (num : nat)
    : list T :=
  match num with
  | O => []
  | 1%nat => [start]
  | S div =>
      ((fun i => lit (INR i) * ((stop - start) / lit (INR div)) + start)%fl
       <$> seq 0 div) ++ [stop]
  end.

(** Matrices of three rows, for the rotations. *)
Section Matrices.
Context {T : Type} `{Float T}.
Local Open Scope fl_scope.

(** [- a] *)
Definition vneg (a : Vec3 T) : Vec3 T := mkVec3 (- vx a) (- vy a) (- vz a).

(** [np.cross a b] *)
Definition cross (a b : Vec3 T) : Vec3 T :=
  mkVec3 (vy a * vz b - vz a * vy b) (vz a * vx b - vx a * vz b)
         (vx a * vy b - vy a * vx b).

(** [np.eye(3)] *)
Definition eye : Vec3 (Vec3 T) :=
  mkVec3 (mkVec3 (lit 1) (lit 0) (lit 0)) (mkVec3 (lit 0) (lit 1) (lit 0))
         (mkVec3 (lit 0) (lit 0) (lit 1)).

(** [s * M] and [M + N] *)
Definition mscale (s : T) (M : Vec3 (Vec3 T)) : Vec3 (Vec3 T) :=
  mkVec3 (vscale s (vx M)) (vscale s (vy M)) (vscale s (vz M)).
Definition madd (M N : Vec3 (Vec3 T)) : Vec3 (Vec3 T) :=
  mkVec3 (vadd (vx M) (vx N)) (vadd (vy M) (vy N)) (vadd (vz M) (vz N)).

(** [np.outer a b] *)
Definition outer (a b : Vec3 T) : Vec3 (Vec3 T) :=
  mkVec3 (vscale (vx a) b) (vscale (vy a) b) (vscale (vz a) b).

(** The columns of a matrix. *)
Definition column (i : Vec3 T -> T) (M : Vec3 (Vec3 T)) : Vec3 T :=
  mkVec3 (i (vx M)) (i (vy M)) (i (vz M)).

(** [p.dot(M)] for a row [p], and [M.dot(N)]. *)
Definition vdotm (p : Vec3 T) (M : Vec3 (Vec3 T)) : Vec3 T :=
  mkVec3 (vdot p (column vx M)) (vdot p (column vy M)) (vdot p (column vz M)).
Definition mdot (M N : Vec3 (Vec3 T)) : Vec3 (Vec3 T) :=
  mkVec3 (vdotm (vx M) N) (vdotm (vy M) N) (vdotm (vz M) N).

End Matrices.

(** ** models.py: the properties of air *)

Module Air.
Record globals (T : Type) := mk_globals { c_air : T; rho_air : T }.
Arguments mk_globals {T} _ _.
Arguments c_air {T} _.
Arguments rho_air {T} _.

Section Update.
Context {T : Type} `{Float T}.
Local Open Scope fl_scope.

(** [temperature] and [pressure] are [None] by default; [None + 273.15]
    raises. *)
Definition update_air_properties (temperature pressure : option T)
    (g : globals T) : option (globals T) :=
  let R_spec := lit 287.058 in
  let gamma := lit 1.4 in
  let g :=
    match temperature with
    | Some temperature =>
        {| c_air := fsqrt (gamma * R_spec * (temperature + lit 273.15));
           rho_air := rho_air g |}
    | None => g
    end in
  match pressure with
  | Some pressure =>
      temperature ← temperature;
      Some {| c_air := c_air g;
              rho_air := pressure / R_spec / (temperature + lit 273.15) |}
  | None => Some g
  end.
End Update.
End Air.

(** ** models.py: [rectangular_grid] and [double_sided_grid] *)

Section Grids.
Context {T : Type} `{Float T}.
Local Open Scope fl_scope.

Definition rectangular_grid (shape : nat * nat) (spread : T)
    (offset normal : Vec3 T) (rotation : T)
    : list (Vec3 T) * list (Vec3 T) :=
  let normal := vdivs normal (fsqrt (vsum (vsq normal))) in
  let x := (fun v => v * spread)
             <$> linspace (- lit (INR shape.1 - 1) / lit 2)
                   (lit (INR shape.1 - 1) / lit 2) shape.1 in
  let y := (fun v => v * spread)
             <$> linspace (- lit (INR shape.2 - 1) / lit 2)
                   (lit (INR shape.2 - 1) / lit 2) shape.2 in
  (* X, Y, Z = np.meshgrid(x, y, 0), flattened and stacked *)
  let positions := yi ← y; xj ← x; [mkVec3 xj yi (lit 0)] in
  let normals := replicate (length positions) normal in
  let rotation_matrix :=
    if negb (feq0 (vx normal)) || negb (feq0 (vy normal)) then
      let rotation_vector := cross normal (mkVec3 (lit 0) (lit 0) (lit 1)) in
      let rotation_vector :=
        vdivs rotation_vector (fsqrt (vsum (vsq rotation_vector))) in
      let cross_product_matrix :=
        mkVec3 (mkVec3 (lit 0) (- vz rotation_vector) (vy rotation_vector))
               (mkVec3 (vz rotation_vector) (lit 0) (- vx rotation_vector))
               (mkVec3 (- vy rotation_vector) (vx rotation_vector) (lit 0)) in
      let cos := vz normal in
      let sin := fsqrt (lit 1 - cos ^ 2) in
      madd (madd (mscale cos eye) (mscale sin cross_product_matrix))
           (mscale (lit 1 - cos) (outer rotation_vector rotation_vector))
    else eye in
  let rotation_matrix :=
    if negb (feq0 rotation) then
      let cross_product_matrix :=
        mkVec3 (mkVec3 (lit 0) (- vz normal) (vy normal))
               (mkVec3 (vz normal) (lit 0) (- vx normal))
               (mkVec3 (- vy normal) (vx normal) (lit 0)) in
      let cos := fcos (- rotation) in
      let sin := fsin (- rotation) in
      mdot rotation_matrix
        (madd (madd (mscale cos eye) (mscale sin cross_product_matrix))
              (mscale (lit 1 - cos) (outer normal normal)))
    else rotation_matrix in
  let positions :=
    (fun p => vadd (vdotm p rotation_matrix) offset) <$> positions in
  (positions, normals).

(** [grid_generator] is [rectangular_grid] by default; [shape] and [spread]
    are passed on to it. *)
Definition double_sided_grid
    (grid_generator : Vec3 T -> Vec3 T -> T -> list (Vec3 T) * list (Vec3 T))
    (separation : T) (offset normal : Vec3 T) (rotation : T)
    : list (Vec3 T) * list (Vec3 T) :=
  let normal := vdivs normal (fsqrt (vsum (vsq normal))) in
  let '(pos_1, norm_1) := grid_generator offset normal rotation in
  let '(pos_2, norm_2) :=
    grid_generator (vadd offset (vscale separation normal)) (vneg normal)
      (- rotation) in
  (pos_1 ++ pos_2, norm_1 ++ norm_2).
End Grids.

(** ** arrays.py: [TransducerArray] *)

(** An elementwise operation on two one-dimensional arrays, with numpy's
    broadcasting of an array of length one; other lengths raise. *)
Definition broadcast2 {A B C : Type} (f : A -> B -> C) (a : list A) (b : list B)
    : option (list C) :=
  if decide (length a = length b) then Some (zip_with f a b)
  else match a, b with
       | [x], _ => Some (map (f x) b)
       | _, [y] => Some (map (fun x => f x y) a)
       | _, _ => None
       end.

Module TransducerArray.

Record attrs (T : Type) := mk_attrs {
  transducer_positions : list (Vec3 T);
  transducer_normals : list (Vec3 T);
  num_transducers : nat;
  amplitudes : list T;
  phases : list T
}.
Arguments mk_attrs {T} _ _ _ _ _.
Arguments transducer_positions {T} _.
Arguments transducer_normals {T} _.
Arguments num_transducers {T} _.
Arguments amplitudes {T} _.
Arguments phases {T} _.

Section Methods.
Context {T : Type} `{Float T}.
Local Open Scope fl_scope.

Definition init (transducer_positions transducer_normals : list (Vec3 T))
    : attrs T :=
  let num_transducers := length transducer_positions in
  {| transducer_positions := transducer_positions;
     transducer_normals := transducer_normals;
     num_transducers := num_transducers;
     amplitudes := replicate num_transducers (lit 1);
     phases := replicate num_transducers (lit 0) |}.

Definition set_phases (value : list T) (self : attrs T) : attrs T :=
  {| transducer_positions := transducer_positions self;
     transducer_normals := transducer_normals self;
     num_transducers := num_transducers self;
     amplitudes := amplitudes self;
     phases := value |}.

Definition set_amplitudes (value : list T) (self : attrs T) : attrs T :=
  {| transducer_positions := transducer_positions self;
     transducer_normals := transducer_normals self;
     num_transducers := num_transducers self;
     amplitudes := value;
     phases := phases self |}.

(** [amplitude * np.exp(1j * phase)] *)
Definition polar (amplitude phase : T) : Cx T :=
  (cof amplitude * cexp (Cj * cof phase))%cx.

Definition complex_amplitudes (self : attrs T) : option (list (Cx T)) :=
  broadcast2 polar (amplitudes self) (phases self).

Definition set_complex_amplitudes (value : list (Cx T)) (self : attrs T)
    : attrs T :=
  let self := set_amplitudes (cabs <$> value) self in
  let self := set_phases (cangle <$> value) self in
  self.

(** *** [spatial_derivatives]

    [E] is the type of an array over the receiver dimensions,
    [receiver_position.shape[:-1]]. The transducer model is the one of
    [levitate.transducers], whose [spatial_derivatives] returns one such
    array for each derivative; [num_spatial_derivatives] is the table of
    [levitate/__init__.py]; [empty] is what [np.empty] leaves in a cell. *)
Section SpatialDerivatives.
Context {E Recv : Type}.
Variable model_spatial_derivatives :
  Vec3 T -> Vec3 T -> Recv -> Z -> list E.
Variable num_spatial_derivatives : Z -> option nat.
Variable empty : E.

(** [derivatives[:, idx] = column] *)
Definition assign_column (derivatives : list (list E)) (idx : nat)
    (column : list E) : option (list (list E)) :=
  if decide (length column = length derivatives)
  then Some (zip_with (fun row value => <[idx := value]> row)
               derivatives column)
  else None.

Definition spatial_derivatives (self : attrs T) (receiver_position : Recv)
    (orders : Z) : option (list (list E)) :=
  M ← num_spatial_derivatives orders;
  let derivatives := replicate M (replicate (num_transducers self) empty) in
  foldl (fun derivatives idx =>
           derivatives ← derivatives;
           position ← transducer_positions self !! idx;
           normal ← transducer_normals self !! idx;
           assign_column derivatives idx
             (model_spatial_derivatives position normal receiver_position
                orders))
    (Some derivatives) (seq 0 (num_transducers self)).
End SpatialDerivatives.
End Methods.

(** *** [PersistentFieldEvaluator]

    [Positions] and [Tensor] are numpy arrays; [shape] and [allclose] are
    [positions.shape] and [np.allclose]; [array_spatial_derivatives] is
    [self.array.spatial_derivatives]. A call returns the tensor, the new
    attributes of the evaluator and the calls it made to
    [self.array.spatial_derivatives]. *)
Module PersistentFieldEvaluator.
Record attrs (Positions Tensor : Type) := mk_attrs {
  _last_positions : option Positions;
  _spatial_derivatives : option Tensor;
  _existing_orders : Z
}.
Arguments mk_attrs {Positions Tensor} _ _ _.
Arguments _last_positions {Positions Tensor} _.
Arguments _spatial_derivatives {Positions Tensor} _.
Arguments _existing_orders {Positions Tensor} _.

Section Methods.
Context {Positions Tensor : Type}.
Variable shape : Positions -> list nat.
Variable allclose : Positions -> Positions -> bool.
Variable array_spatial_derivatives : Positions -> Z -> Tensor.

Definition init : attrs Positions Tensor :=
  {| _last_positions := None;
     _spatial_derivatives := None;
     _existing_orders := -1 |}.

(** The condition of the [if], evaluated left to right; reading
    [.shape] of [None] raises. *)
Definition cached (self : attrs Positions Tensor) (positions : Positions)
    (orders : Z) : option bool :=
  match _spatial_derivatives self with
  | None => Some false
  | Some _ =>
      if negb (orders <=? _existing_orders self)%Z then Some false
      else match _last_positions self with
           | None => None
           | Some last =>
               Some (bool_decide (shape positions = shape last)
                     && allclose positions last)
           end
  end.

Definition spatial_derivatives (self : attrs Positions Tensor)
    (positions : Positions) (orders : Z)
    : option (Tensor * attrs Positions Tensor * list (Positions * Z)) :=
  hit ← cached self positions orders;
  if (hit : bool) then
    stored ← _spatial_derivatives self;
    Some (stored, self, [])
  else
    let computed := array_spatial_derivatives positions orders in
    Some (computed,
          {| _spatial_derivatives := Some computed;
             _existing_orders := orders;
             _last_positions := Some positions |},
          [(positions, orders)]).
End Methods.
End PersistentFieldEvaluator.
(** *** [focus_phases] and [signature]

    On exact reals. [transducer_model] is [self.transducer_model]. *)
Section Phases.
Variable transducer_model : TransducerModel.attrs R.

Definition k (self : attrs R) : R := TransducerModel.k transducer_model.

Definition focus_phases (self : attrs R) (focus : Vec3 R)
    : option (list R) :=
  phase ← mapM (fun idx =>
      position ← transducer_positions self !! idx;
      Some (- sqrt (vsum (vsq (vsub position focus))) * k self))
    (seq 0 (num_transducers self));
  (* Wrap phase to [-pi, pi] *)
  Some ((fun phase => np_mod (phase + PI) (2 * PI) - PI) <$> phase).

(** [phases] is [None] by default. *)
Definition signature (self : attrs R) (focus : Vec3 R)
    (phases : option (list R)) : option (list R) :=
  let phases :=
    match phases with
    | None => TransducerArray.phases self
    | Some phases => phases
    end in
  focus_phases ← focus_phases self focus;
  difference ← broadcast2 Rminus phases focus_phases;
  Some ((fun d => np_mod (d + PI) (2 * PI) - PI) <$> (difference : list R)).
End Phases.
End TransducerArray.

(** ** arrays.py: [RectangularArray] *)

Module RectangularArray.

(** [shape] is an int or a pair of ints. *)
Inductive shape := Int (n : nat) | Pair (n0 n1 : nat).

(** The attributes of an instance: those of [TransducerArray] and
    [transducer_size]. *)
Record attrs (T : Type) := mk_attrs {
  array : TransducerArray.attrs T;
  transducer_size : T
}.
Arguments mk_attrs {T} _ _.
Arguments array {T} _.
Arguments transducer_size {T} _.

Section Methods.
Context {T : Type} `{Float T}.

(** After [shape] is made a pair the body is the text of
    [rectangular_grid]. *)
Definition grid_generator (shape : shape) (spread : T)
    (offset normal : Vec3 T) (rotation : T)
    : list (Vec3 T) * list (Vec3 T) :=
  let shape :=
    match shape with
    | Int n => (n, n)
    | Pair n0 n1 => (n0, n1)
    end in
  rectangular_grid shape spread offset normal rotation.

(** [transducer_size], when it is not among the keyword arguments, is
    [spread]. *)
Definition init (shape : shape) (spread : T) (offset normal : Vec3 T)
    (rotation : T) (transducer_size : option T) : attrs T :=
  let '(positions, normals) :=
    grid_generator shape spread offset normal rotation in
  let transducer_size := default spread transducer_size in
  {| array := TransducerArray.init positions normals;
     transducer_size := transducer_size |}.
End Methods.

(** *** The signatures, on exact reals *)


Definition vortex_signature (self : attrs R) (position : R * R) (angle : R)
    : option (list R) :=
  mapM (fun idx =>
      p ← TransducerArray.transducer_positions (array self) !! idx;
      Some (atan2 (vy p) (vx p)))
    (seq 0 (TransducerArray.num_transducers (array self))).

(** [radius] is [None] by default. *)
Definition bottle_signature (self : attrs R) (position : R * R)
    (radius : option R) : option (list R) :=
  let radius :=
    match radius with
    | None =>
        let A := INR (TransducerArray.num_transducers (array self))
                 * transducer_size self ^ 2 in
        sqrt (A / 2 / PI)
    | Some radius => radius
    end in
  mapM (fun idx =>
      p ← TransducerArray.transducer_positions (array self) !! idx;
      Some (if Rlt_dec radius
                 (sqrt ((vx p - position.1) ^ 2 + (vy p - position.2) ^ 2))
            then PI else 0))
    (seq 0 (TransducerArray.num_transducers (array self))).
End RectangularArray.

(** ** arrays.py: [DoublesidedArray] *)

Module DoublesidedArray.
Section Methods.
Context {T : Type} `{Float T}.
Local Open Scope fl_scope.

(** [super_grid_generator] is the [grid_generator] of the singlesided class
    [ctype], with the remaining keyword arguments. *)
Definition grid_generator
    (super_grid_generator :
       Vec3 T -> Vec3 T -> T -> list (Vec3 T) * list (Vec3 T))
    (separation : T) (offset normal : Vec3 T) (rotation : T)
    : list (Vec3 T) * list (Vec3 T) :=
  let normal := vdivs normal (fsqrt (vsum (vsq normal))) in
  let '(pos_1, norm_1) :=
    super_grid_generator
      (vsub offset (vscale (lit 0.5 * separation) normal)) normal rotation in
  let '(pos_2, norm_2) :=
    super_grid_generator
      (vadd offset (vscale (lit 0.5 * separation) normal)) (vneg normal)
      (- rotation) in
  (pos_1 ++ pos_2, norm_1 ++ norm_2).
End Methods.
End DoublesidedArray.

(** ** models.py: the earlier [TransducerArray] *)

Module LegacyTransducerArray.

(** [focus] is one point ([np.ndim(focus) == 1]) or a list of points
    ([np.ndim(focus) == 2]); for another number of dimensions [shape] is
    unbound and the method raises. *)
Inductive focus (T : Type) :=
| Point (p : Vec3 T)
| Points (ps : list (Vec3 T)).
Arguments Point {T} _.
Arguments Points {T} _.

(** An array over the receiver dimensions: one value or one per point. *)
Inductive field (E : Type) :=
| Scalar (value : E)
| Vector (values : list E).
Arguments Scalar {E} _.
Arguments Vector {E} _.

(** An array of shape [(N,)] or [(points, N)]. *)
Inductive ndarray (E : Type) :=
| Arr1 (cells : list E)
| Arr2 (rows : list (list E)).
Arguments Arr1 {E} _.
Arguments Arr2 {E} _.

Definition np_shape {E : Type} (a : ndarray E) : list nat :=
  match a with
  | Arr1 cells => [length cells]
  | Arr2 rows => [length rows; default 0%nat (length <$> head rows)]
  end.

Section Methods.
Context {T : Type} `{Float T}.

(** [self.transducer_model.spatial_derivatives], at one receiver
    position. *)
Variable model_spatial_derivatives :
  Vec3 T -> Vec3 T -> Vec3 T -> Z -> option (gmap string (Cx T)).
Variable empty : Cx T.

Definition complex_amplitudes (self : TransducerArray.attrs T)
    : option (list (Cx T)) :=
  broadcast2 TransducerArray.polar (TransducerArray.amplitudes self)
    (TransducerArray.phases self).

Definition set_complex_amplitudes (value : list (Cx T))
    (self : TransducerArray.attrs T) : TransducerArray.attrs T :=
  let self := TransducerArray.set_amplitudes (cabs <$> value) self in
  let self := TransducerArray.set_phases (cangle <$> value) self in
  self.

(** [np.empty(shape, complex)] *)
Definition np_empty (foc : focus T) (N : nat) : ndarray (Cx T) :=
  match foc with
  | Point _ => Arr1 (replicate N empty)
  | Points ps => Arr2 (replicate (length ps) (replicate N empty))
  end.

(** The model evaluated at [focus]: for a list of points, each entry of
    the dictionary is the array of the values at the points. *)
Definition transducer_derivatives (position normal : Vec3 T)
    (foc : focus T) (orders : Z) (key : string) : option (field (Cx T)) :=
  match foc with
  | Point p =>
      d ← model_spatial_derivatives position normal p orders;
      Scalar <$> d !! key
  | Points ps =>
      ds ← mapM (fun p => model_spatial_derivatives position normal p orders)
             ps;
      Vector <$> mapM (fun d : gmap string (Cx T) => d !! key) ds
  end.

(** [a[..., idx] = value], for the shapes that match. *)
Definition assign_last (a : ndarray (Cx T)) (idx : nat)
    (value : field (Cx T)) : option (ndarray (Cx T)) :=
  match a, value with
  | Arr1 cells, Scalar v => Some (Arr1 (<[idx := v]> cells))
  | Arr2 rows, Vector vs =>
      if decide (length vs = length rows)
      then Some (Arr2 (zip_with (fun row v => <[idx := v]> row) rows vs))
      else None
  | _, _ => None
  end.

Definition spatial_derivatives (self : TransducerArray.attrs T)
    (foc : focus T) (orders : Z) : option (gmap string (ndarray (Cx T))) :=
  let N := TransducerArray.num_transducers self in
  let derivatives : gmap string (ndarray (Cx T)) :=
    list_to_map ((fun key => (key, np_empty foc N)) <$> keys_upto orders) in
  foldl (fun derivatives idx =>
           derivatives ← derivatives;
           position ← TransducerArray.transducer_positions self !! idx;
           normal ← TransducerArray.transducer_normals self !! idx;
           map_traverse (fun key a =>
               value ← transducer_derivatives position normal foc orders key;
               assign_last a idx value)
             derivatives)
    (Some derivatives) (seq 0 N).
End Methods.
(** *** [phases_amplitudes] and [calculate_pressure] *)
Section Controls.
Context {T : Type} `{Float T}.

Definition phases_amplitudes (self : TransducerArray.attrs T) : list T :=
  TransducerArray.phases self ++ TransducerArray.amplitudes self.

(** The setter, for an array of reals; [None] when it raises. With
    [num_transducers] values, [np.iscomplex(value)] is an array of [False]:
    its truth value is [False] for one element and raises for more. *)
Definition set_phases_amplitudes (value : list T)
    (self : TransducerArray.attrs T) : option (TransducerArray.attrs T) :=
  let N := TransducerArray.num_transducers self in
  if decide (length value = 2 * N)%nat then
    let self := TransducerArray.set_phases (take N value) self in
    let self := TransducerArray.set_amplitudes (drop N value) self in
    Some self
  else if decide (length value = N) then
    if decide (N = 1%nat) then Some (TransducerArray.set_phases value self)
    else None
  else None.

(** The pressure at one point; [transducer] is [None] by default. *)
Definition calculate_pressure (cls : TransducerModel.class T)
    (transducer_model : TransducerModel.attrs T)
    (self : TransducerArray.attrs T) (point : Vec3 T)
    (transducer : option nat) : option (Cx T) :=
  let term idx :=
    amplitude ← TransducerArray.amplitudes self !! idx;
    phase ← TransducerArray.phases self !! idx;
    position ← TransducerArray.transducer_positions self !! idx;
    normal ← TransducerArray.transducer_normals self !! idx;
    Some (cof amplitude * cexp (Cj * cof phase)
          * TransducerModel.greens_function cls transducer_model position
              normal point)%cx in
  match transducer with
  | None =>
      foldl (fun p idx => p ← p; t ← term idx; Some (p + t)%cx)
        (Some (cof (lit 0))) (seq 0 (TransducerArray.num_transducers self))
  | Some transducer => term transducer
  end.
End Controls.
End LegacyTransducerArray.

(** * Vocabulary of the properties *)

(** ** The properties [k], [omega], [freq] and [wavelength] *)

Inductive view := View_k | View_omega | View_freq | View_wavelength.

(** Setting the property [p] of [self] to [value]. *)
Definition set_view {T : Type} `{Float T} (c_air : T) (p : view) (value : T)
    (self : TransducerModel.attrs T) : TransducerModel.attrs T :=
  match p with
  | View_k => TransducerModel.set_k c_air value self
  | View_omega => TransducerModel.set_omega c_air value self
  | View_freq => TransducerModel.set_freq c_air value self
  | View_wavelength => TransducerModel.set_wavelength c_air value self
  end.

(** Reading the property [p] of [self]. *)
Definition get_view {T : Type} `{Float T} (p : view)
    (self : TransducerModel.attrs T) : T :=
  match p with
  | View_k => TransducerModel.k self
  | View_omega => TransducerModel.omega self
  | View_freq => TransducerModel.freq self
  | View_wavelength => TransducerModel.wavelength self
  end.


(** ** Partial derivatives of a complex field *)

(** [F], a complex function of a real variable, has derivative [l] at [x]. *)
Definition Cderiv (F : R -> Cx R) (x : R) (l : Cx R) : Prop :=
  derivable_pt_lim (fun t => re (F t)) x (re l) /\
  derivable_pt_lim (fun t => im (F t)) x (im l).

Inductive axis := Ax_x | Ax_y | Ax_z.

#[export] Instance axis_eq_dec : EqDecision axis.
Proof. solve_decision. Defined.

Definition coord (a : axis) (p : Vec3 R) : R :=
  match a with Ax_x => vx p | Ax_y => vy p | Ax_z => vz p end.

(** [p] with its coordinate [a] replaced by [t]. *)
Definition with_coord (a : axis) (p : Vec3 R) (t : R) : Vec3 R :=
  match a with
  | Ax_x => mkVec3 t (vy p) (vz p)
  | Ax_y => mkVec3 (vx p) t (vz p)
  | Ax_z => mkVec3 (vx p) (vy p) t
  end.

(** The field [u] has partial derivative [l] along [a] at [p]. *)
Definition partial_at (a : axis) (u : Vec3 R -> Cx R) (p : Vec3 R) (l : Cx R)
    : Prop :=
  Cderiv (fun t => u (with_coord a p t)) (coord a p) l.

(** [q] is within [delta] of [p], coordinate by coordinate. *)
Definition near (delta : R) (p q : Vec3 R) : Prop :=
  Rabs (vx q - vx p) < delta /\ Rabs (vy q - vy p) < delta /\
  Rabs (vz q - vz p) < delta.

(** [l] is the iterated partial derivative of [u] at [p] along the axes
    [alpha], the last of the list first: [u] has the derivative of the tail
    on a neighbourhood of [p], and that derivative has partial derivative [l]
    along the head at [p]. *)
Fixpoint is_partial (alpha : list axis) (u : Vec3 R -> Cx R) (p : Vec3 R)
    (l : Cx R) : Prop :=
  match alpha with
  | [] => l = u p
  | a :: alpha' =>
      exists w : Vec3 R -> Cx R,
        (exists delta, 0 < delta /\
           forall q, near delta p q -> is_partial alpha' u q (w q)) /\
        partial_at a w p l
  end.

(** The name of the derivative that differentiates so many times along x, y
    and z; the derivative along x, y and z has no name. The name of the
    derivative along the axes [alpha] does not depend on their order. *)
Definition count_axis (a : axis) (alpha : list axis) : nat :=
  length (filter (fun b => b = a) alpha).

Definition key_of_mi (alpha : nat * nat * nat) : option string :=
  match alpha with
  | (0, 0, 0) => Some ""
  | (1, 0, 0) => Some "x" | (0, 1, 0) => Some "y" | (0, 0, 1) => Some "z"
  | (2, 0, 0) => Some "xx" | (0, 2, 0) => Some "yy" | (0, 0, 2) => Some "zz"
  | (1, 1, 0) => Some "xy" | (1, 0, 1) => Some "xz" | (0, 1, 1) => Some "yz"
  | (3, 0, 0) => Some "xxx" | (0, 3, 0) => Some "yyy" | (0, 0, 3) => Some "zzz"
  | (2, 1, 0) => Some "xxy" | (2, 0, 1) => Some "xxz"
  | (1, 2, 0) => Some "yyx" | (0, 2, 1) => Some "yyz"
  | (1, 0, 2) => Some "zzx" | (0, 1, 2) => Some "zzy"
  | _ => None
  end%nat.

Definition key_of (alpha : list axis) : option string :=
  key_of_mi (count_axis Ax_x alpha, count_axis Ax_y alpha,
             count_axis Ax_z alpha).

(** The axes a name spells. *)
Fixpoint axes_of (key : string) : list axis :=
  match key with
  | EmptyString => []
  | String c key' =>
      (if Ascii.eqb c "x"%char then Ax_x
       else if Ascii.eqb c "y"%char then Ax_y else Ax_z)
      :: axes_of key'
  end.

(** The distance [r] from the source, as [spherical_derivatives] computes
    it. *)
Definition dist (source_position p : Vec3 R) : R :=
  sqrt (vsum (vsq (vsub p source_position))).

(** The radial coefficients of the closed forms:
    [e^{ikr}/r], [(ikr-1) e^{ikr}/r^3], [(3 - k^2 r^2 - 3ikr) e^{ikr}/r^5] and
    [((ikr-1)(15 - k^2 r^2) + 5 k^2 r^2) e^{ikr}/r^7]. *)
Definition radial0 (k r : R) : Cx R :=
  (cexp (Cj * cof (k * r)) / cof r)%cx.
Definition radial1 (k r : R) : Cx R :=
  ((Cj * cof (k * r) - cof 1) * cexp (Cj * cof (k * r)) / cof (r ^ 3))%cx.
Definition radial2 (k r : R) : Cx R :=
  ((cof (3 - (k * r) ^ 2) - cof 3 * (Cj * cof (k * r)))
   * cexp (Cj * cof (k * r)) / cof (r ^ 5))%cx.
Definition radial3 (k r : R) : Cx R :=
  (((Cj * cof (k * r) - cof 1) * cof (15 - (k * r) ^ 2)
    + cof (5 * (k * r) ^ 2)) * cexp (Cj * cof (k * r)) / cof (r ^ 7))%cx.

(** Their real and imaginary parts. *)
Definition P0 (k r : R) : Cx R :=
  mkCx (cos (k * r) / r) (sin (k * r) / r).
Definition P1 (k r : R) : Cx R :=
  mkCx ((- cos (k * r) - k * r * sin (k * r)) / r ^ 3)
       ((k * r * cos (k * r) - sin (k * r)) / r ^ 3).
Definition P2 (k r : R) : Cx R :=
  mkCx (((3 - (k * r) ^ 2) * cos (k * r) + 3 * (k * r) * sin (k * r)) / r ^ 5)
       (((3 - (k * r) ^ 2) * sin (k * r) - 3 * (k * r) * cos (k * r)) / r ^ 5).
Definition P3 (k r : R) : Cx R :=
  mkCx (((6 * (k * r) ^ 2 - 15) * cos (k * r)
         - k * r * (15 - (k * r) ^ 2) * sin (k * r)) / r ^ 7)
       (((6 * (k * r) ^ 2 - 15) * sin (k * r)
         + k * r * (15 - (k * r) ^ 2) * cos (k * r)) / r ^ 7).

(** A real multiple of a complex number. *)
Definition cscale (x : R) (z : Cx R) : Cx R := mkCx (x * re z) (x * im z).

Definition kron (a b : axis) : R :=
  match a, b with
  | Ax_x, Ax_x | Ax_y, Ax_y | Ax_z, Ax_z => 1
  | _, _ => 0
  end.

(** The derivative of [e^{ikr}/r] along the axes [alpha], up to three of
    them, at the offset [d = p - source_position]:
    [d_a P1], [d_a d_b P2 + kron a b P1] and
    [d_a d_b d_c P3 + (kron a b d_c + kron a c d_b + kron b c d_a) P2]. *)
Definition G (k : R) (source_position : Vec3 R) (alpha : list axis)
    (p : Vec3 R) : Cx R :=
  let d a := coord a p - coord a source_position in
  let r := dist source_position p in
  match alpha with
  | [] => P0 k r
  | [a] => cscale (d a) (P1 k r)
  | [a; b] => (cscale (d a * d b) (P2 k r) + cscale (kron a b) (P1 k r))%cx
  | [a; b; c] =>
      (cscale (d a * d b * d c) (P3 k r)
       + cscale (kron a b * d c + kron a c * d b + kron b c * d a) (P2 k r))%cx
  | _ => mkCx 0 0
  end.

(** ** The product rule *)

(** A multi-index: how many times each of x, y and z is differentiated. *)
Definition multi_index := (nat * nat * nat)%type.

Definition mi_order (alpha : multi_index) : nat :=
  let '(a, b, c) := alpha in (a + b + c)%nat.

Fixpoint binom (n m : nat) : nat :=
  match n, m with
  | _, O => 1
  | O, S _ => 0
  | S n', S m' => binom n' m' + binom n' (S m')
  end%nat.

(** The multi-indices below [alpha], componentwise. *)
Definition sub_indices (alpha : multi_index) : list multi_index :=
  let '(a, b, c) := alpha in
  i ← seq 0 (S a); j ← seq 0 (S b); l ← seq 0 (S c); [(i, j, l)].

(** The Leibniz expansion of the derivative [alpha] of a product, from the
    derivatives [S] and [D] of the factors: the sum over [beta <= alpha] of
    [binom alpha beta * S[beta] * D[alpha - beta]]. *)
Definition leibniz {T : Type} `{Float T} (S D : gmap string (Cx T))
    (alpha : multi_index) : option (Cx T) :=
  let '(a, b, c) := alpha in
  foldr (fun '(i, j, l) acc =>
           (oint (Z.of_nat (binom a i * binom b j * binom c l))
            * (key_of_mi (i, j, l) ≫= (S !!.))
            * (key_of_mi (a - i, b - j, c - l)%nat ≫= (D !!.))
            + acc)%py)
    (Some (cof (lit 0))) (sub_indices alpha).

(** The transducer models of the source, for Bessel functions [j0] and
    [j1]. *)
Inductive source_class (j0 j1 : R -> R) : TransducerModel.class R -> Prop :=
| class_TransducerModel : source_class j0 j1 TransducerModel.cls
| class_CircularPiston : source_class j0 j1 (CircularPiston.cls j1)
| class_CircularRing : source_class j0 j1 (CircularRing.cls j0 j1).

(** ** The cache of [PersistentFieldEvaluator] *)

Section CacheVocabulary.
Context {Positions Tensor : Type}.
Variable shape : Positions -> list nat.
Variable allclose : Positions -> Positions -> bool.
Variable array_spatial_derivatives : Positions -> Z -> Tensor.

Local Abbreviation evaluator := (TransducerArray.PersistentFieldEvaluator.attrs
                         Positions Tensor).
Local Abbreviation call := (TransducerArray.PersistentFieldEvaluator.spatial_derivatives
                    shape allclose array_spatial_derivatives).

(** The states of an evaluator: the one [__init__] builds and those its
    calls leave. *)
Inductive reachable : evaluator -> Prop :=
| reachable_init :
    reachable TransducerArray.PersistentFieldEvaluator.init
| reachable_call self positions orders tensor self' calls :
    reachable self ->
    call self positions orders = Some (tensor, self', calls) ->
    reachable self'.

(** A result is stored for orders at least [orders] and for positions of
    the shape of, and close to, [positions]. *)
Definition cache_hit (self : evaluator) (positions : Positions) (orders : Z)
    (stored : Tensor) : Prop :=
  TransducerArray.PersistentFieldEvaluator._spatial_derivatives self
  = Some stored /\
  (orders <= TransducerArray.PersistentFieldEvaluator._existing_orders self)%Z /\
  exists last,
    TransducerArray.PersistentFieldEvaluator._last_positions self = Some last /\
    shape positions = shape last /\
    allclose positions last = true.
End CacheVocabulary.

(** ** The layout of the array derivatives *)

Section LegacyLayout.
Variable model_spatial_derivatives :
  Vec3 R -> Vec3 R -> Vec3 R -> Z -> option (gmap string (Cx R)).

(** The array [a] stored under [key] by the earlier [TransducerArray] has
    the transducer index last, after the index of the receiver point if
    [focus] is a list of points, and holds the values of the model for the
    transducers below [j]. *)
Definition transducer_last (self : TransducerArray.attrs R)
    (foc : LegacyTransducerArray.focus R) (orders : Z) (j : nat)
    (key : string) (a : LegacyTransducerArray.ndarray (Cx R)) : Prop :=
  let N := TransducerArray.num_transducers self in
  let filled (row : list (Cx R)) (p : Vec3 R) :=
    length row = N /\
    forall idx position normal,
      (idx < j)%nat ->
      TransducerArray.transducer_positions self !! idx = Some position ->
      TransducerArray.transducer_normals self !! idx = Some normal ->
      row !! idx
      = model_spatial_derivatives position normal p orders ≫= (.!! key) in
  match foc, a with
  | LegacyTransducerArray.Point p, LegacyTransducerArray.Arr1 cells =>
      filled cells p
  | LegacyTransducerArray.Points ps, LegacyTransducerArray.Arr2 rows =>
      length rows = length ps /\
      forall i row p, rows !! i = Some row -> ps !! i = Some p -> filled row p
  | _, _ => False
  end.
End LegacyLayout.

(** The layout the specification gives: under every key an array of shape
    [(N, ...receiver dims)]. *)
Definition transducer_first {E : Type}
    (derivatives : gmap string (LegacyTransducerArray.ndarray E)) (N : nat)
    (receiver_dims : list nat) : Prop :=
  forall key a, derivatives !! key = Some a ->
                LegacyTransducerArray.np_shape a = N :: receiver_dims.

(** The layout of arrays.py: [derivatives[m][idx]] is the [m]-th array the
    model returns for transducer [idx]; the derivative index comes first, the
    transducer index second, and each cell is an array over the receiver
    dimensions. *)
Definition transducer_second {E Recv : Type}
    (model_spatial_derivatives : Vec3 R -> Vec3 R -> Recv -> Z -> list E)
    (self : TransducerArray.attrs R) (receiver_position : Recv) (orders : Z)
    (M : nat) (derivatives : list (list E)) : Prop :=
  length derivatives = M /\
  forall m row, derivatives !! m = Some row ->
    length row = TransducerArray.num_transducers self /\
    forall idx position normal,
      TransducerArray.transducer_positions self !! idx = Some position ->
      TransducerArray.transducer_normals self !! idx = Some normal ->
      row !! idx
      = model_spatial_derivatives position normal receiver_position orders
          !! m.

(** The array with other amplitudes and phases. *)
Definition reweighted (amplitudes phases : list R)
    (self : TransducerArray.attrs R) : TransducerArray.attrs R :=
  TransducerArray.set_phases phases
    (TransducerArray.set_amplitudes amplitudes self).

(** Two transducers in the plane [z = 0], facing up, and a point source. *)
Definition two_transducers : TransducerArray.attrs R :=
  TransducerArray.init [mkVec3 0 0 0; mkVec3 1 0 0]
    [mkVec3 0 0 1; mkVec3 0 0 1].

Definition point_source : TransducerModel.attrs R :=
  TransducerModel.mk_attrs 1 343 0 6.

Definition three_points : list (Vec3 R) :=
  [mkVec3 0 0 1; mkVec3 0 1 1; mkVec3 1 1 1].

(** ** The directivity on the axis of the transducer *)

(** The sine of the angle between the normal of the source and the direction
    to the receiver, as [CircularPiston.directivity] and
    [CircularRing.directivity] compute it. *)
Definition sin_angle {T : Type} `{Float T}
    (source_position source_normal receiver_position : Vec3 T) : T :=
  let diff := vsub receiver_position source_position in
  let dots := vdot diff source_normal in
  let norm1 := fsqrt (vsum (vsq source_normal)) in
  let norm2 := fsqrt (vdot diff diff) in
  let cos_angle := (dots / norm2 / norm1)%fl in
  fsqrt (lit 1 - cos_angle ^ 2)%fl.

(** A finite value other than zero. *)
Definition nonzero (x : option R) : Prop := exists a, x = Some a /\ a <> 0.

(** A position with finite coordinates. *)
Definition finite_position (v : Vec3 R) : Vec3 (option R) :=
  mkVec3 (Some (vx v)) (Some (vy v)) (Some (vz v)).

(** ** The grids *)

(** [M.dot(v)] for a column [v]. *)
Definition mdotv (M : Vec3 (Vec3 R)) (v : Vec3 R) : Vec3 R :=
  mkVec3 (vdot (vx M) v) (vdot (vy M) v) (vdot (vz M) v).

(** The unit vector along [normal]. *)
Definition unit (normal : Vec3 R) : Vec3 R :=
  vdivs normal (sqrt (vsum (vsq normal))).

(** The two numbers of elements a [shape] stands for. *)
Definition shape_pair (shape : RectangularArray.shape) : nat * nat :=
  match shape with
  | RectangularArray.Int n => (n, n)
  | RectangularArray.Pair n0 n1 => (n0, n1)
  end.

(** The points of a grid of [shape.1] by [shape.2] elements in the plane
    [z = 0], [spread] apart along x and along y and centred on the origin,
    a row along x after the other. *)
Definition grid_points (shape : nat * nat) (spread : R) : list (Vec3 R) :=
  i ← seq 0 shape.2; j ← seq 0 shape.1;
  [mkVec3 ((INR j - (INR shape.1 - 1) / 2) * spread)
          ((INR i - (INR shape.2 - 1) / 2) * spread) 0].

(** ** Polynomial directivities *)

(** A monomial [c x^i y^j z^l] of the receiver position, and a polynomial,
    the sum of its monomials. *)
Definition monomial := (R * (nat * nat * nat))%type.

Definition eval_monomial (m : monomial) (p : Vec3 R) : R :=
  let '(c, (i, j, l)) := m in c * vx p ^ i * vy p ^ j * vz p ^ l.

Definition eval (poly : list monomial) (p : Vec3 R) : R :=
  foldr (fun m acc => eval_monomial m p + acc) 0 poly.

(** The derivative of a monomial along an axis, and of a polynomial along
    the axes [alpha], the last of the list first. *)
Definition pderiv (a : axis) (m : monomial) : monomial :=
  let '(c, (i, j, l)) := m in
  match a with
  | Ax_x => (c * INR i, (pred i, j, l))
  | Ax_y => (c * INR j, (i, pred j, l))
  | Ax_z => (c * INR l, (i, j, pred l))
  end.

Definition pderivs (alpha : list axis) (poly : list monomial)
    : list monomial :=
  foldr (fun a poly => pderiv a <$> poly) poly alpha.

Definition degree_le (d : nat) (poly : list monomial) : Prop :=
  Forall (fun m : monomial => (m.2.1.1 + m.2.1.2 + m.2.2 <= d)%nat) poly.

(** The finite difference of the field [D] at [p] with the step [h], for
    the shifts and weights [sw] of the derivative [key]. *)
Definition stencil_value (D : Vec3 R -> R) (h : R) (p : Vec3 R)
    (key : string) (sw : list (Vec3 Z) * list R) : R :=
  fsum (zip_with (fun shift weight =>
                    D (TransducerModel.shifted shift h p) * weight)
          sw.1 sw.2)
  / h ^ String.length key.

(** ** Moving the source and the receiver together *)

(** A directivity that depends on the positions through their difference
    only. *)
Definition relative (directivity : TransducerModel.attrs R -> Vec3 R ->
                                   Vec3 R -> Vec3 R -> R) : Prop :=
  exists f, forall self s n p, directivity self s n p = f self n (vsub p s).

(** ** The derivatives of the directivity of the ring *)

(** The directivity of the ring as a function of the cosine [c] of the
    angle, [j0 (ka sqrt (1 - c^2))], and the three functions
    [first_order_const], [second_order_const] and [third_order_const] of
    [CircularRing.directivity_derivatives], away from the axis. *)
Definition ring_xi (ka c : R) : R := ka * sqrt (1 - c ^ 2).

Definition ring_J1 (j1 : R -> R) (ka c : R) : R :=
  j1 (ring_xi ka c) / ring_xi ka c.
Definition ring_J2 (j0 j1 : R -> R) (ka c : R) : R :=
  (2 * ring_J1 j1 ka c - j0 (ring_xi ka c)) / ring_xi ka c ^ 2.
Definition ring_J3 (j0 j1 : R -> R) (ka c : R) : R :=
  (4 * ring_J2 j0 j1 ka c - ring_J1 j1 ka c) / ring_xi ka c ^ 2.

Definition ring_profile (j0 j1 : R -> R) (ka : R) (order : nat) (c : R) : R :=
  match order with
  | 0%nat => j0 (ring_xi ka c)
  | 1%nat => ring_J1 j1 ka c * ka ^ 2 * c
  | 2%nat => ring_J2 j0 j1 ka c * ka ^ 4 * c ^ 2 + ring_J1 j1 ka c * ka ^ 2
  | _ => ring_J3 j0 j1 ka c * ka ^ 6 * c ^ 3
         + 3 * ring_J2 j0 j1 ka c * ka ^ 4 * c
  end.

(** The derivatives [j0' = - j1] and [j1' = j0 - j1 / x] of the Bessel
    functions. *)
Definition bessel_derivatives (j0 j1 : R -> R) : Prop :=
  (forall x, derivable_pt_lim j0 x (- j1 x)) /\
  (forall x, x <> 0 -> derivable_pt_lim j1 x (j0 x - j1 x / x)).

(** The cosine of the angle between the normal [n] of the source at [s] and
    the direction to [p], and its derivatives along up to three axes: the
    values [cos], [cos_dx], [cos_dx2], [cos_dxdy], [cos_dx3], [cos_dx2dy]
    and the like of [CircularRing.directivity_derivatives]. *)
Definition cos_partial (s n : Vec3 R) (alpha : list axis) (p : Vec3 R) : R :=
  let d a := coord a p - coord a s in
  let m a := coord a n in
  let dot := vdot (vsub p s) n in
  let r := dist s p in
  let norm := sqrt (vsum (vsq n)) in
  match alpha with
  | [] => dot / r / norm
  | [a] => (r ^ 2 * m a - d a * dot) / r ^ 3 / norm
  | [a; b] =>
      (3 * d a * d b * dot - r ^ 2 * (m a * d b + m b * d a)
       - kron a b * dot * r ^ 2) / r ^ 5 / norm
  | [a; b; c] =>
      (-15 * d a * d b * d c * dot
       + 3 * r ^ 2 * (d a * d b * m c + d a * d c * m b + d b * d c * m a
                      + dot * (kron a b * d c + kron a c * d b
                               + kron b c * d a))
       - r ^ 4 * (kron a b * m c + kron a c * m b + kron b c * m a))
      / r ^ 7 / norm
  | _ => 0
  end.

(** The derivative of the directivity of the ring along the axes [alpha],
    by the chain rule: the profile in the cosine and the derivatives of the
    cosine. *)
Definition ring_partial (j0 j1 : R -> R) (ka : R) (s n : Vec3 R)
    (alpha : list axis) (p : Vec3 R) : R :=
  let F order := ring_profile j0 j1 ka order (cos_partial s n [] p) in
  let C alpha := cos_partial s n alpha p in
  match alpha with
  | [] => F 0%nat
  | [a] => F 1%nat * C [a]
  | [a; b] => F 2%nat * C [a] * C [b] + F 1%nat * C [a; b]
  | [a; b; c] =>
      F 3%nat * C [a] * C [b] * C [c]
      + F 2%nat * (C [a; b] * C [c] + C [a; c] * C [b] + C [b; c] * C [a])
      + F 1%nat * C [a; b; c]
  | _ => 0
  end.

(** ** The derivatives of a product, along axes *)

(** The ways to share the axes [alpha] between two factors. *)
Fixpoint splits (alpha : list axis) : list (list axis * list axis) :=
  match alpha with
  | [] => [([], [])]
  | c :: alpha =>
      ((fun bg : list axis * list axis => (c :: bg.1, bg.2)) <$> splits alpha)
      ++ ((fun bg : list axis * list axis => (bg.1, c :: bg.2))
            <$> splits alpha)
  end.

Definition csum (l : list (Cx R)) : Cx R := foldr cadd (cof 0) l.

(** The derivative along [alpha] of the product of two fields times [p0],
    from the derivatives [S] and [D] of the fields: the sum over the ways to
    share [alpha] between them. *)
Definition product_rule (p0 : R) (S D : list axis -> Vec3 R -> Cx R)
    (alpha : list axis) (p : Vec3 R) : Cx R :=
  (csum ((fun bg : list axis * list axis => S bg.1 p * D bg.2 p)
           <$> splits alpha) * cof p0)%cx.

(** The derivatives of the directivity of the point source: one, and zero
    along any axes. *)
Definition constant_partial (alpha : list axis) (p : Vec3 R) : R :=
  match alpha with [] => 1 | _ => 0 end.

(** ** The derivatives of a reflecting transducer *)

(** Every entry of [spatial_derivatives] up to [orders] is the derivative
    of the field [u] along the axes its name spells, in any order. *)
Definition exact_entries (derivatives : option (gmap string (Cx R)))
    (u : Vec3 R -> Cx R) (p : Vec3 R) (orders : Z) : Prop :=
  exists sd,
    derivatives = Some sd /\
    forall alpha key,
      (Z.of_nat (length alpha) <= orders)%Z -> key_of alpha = Some key ->
      exists value, sd !! key = Some value /\ is_partial alpha u p value.
(** * Properties *)

(** ** Exact arithmetic: complex numbers over [R] *)

Lemma Cx_eq {T : Type} (z w : Cx T) : re z = re w -> im z = im w -> z = w.
Proof. destruct z, w; simpl; congruence. Qed.

(** Unfolds the operations of the exact instance down to those of [R]. *)
Ltac ideal_simpl :=
  cbn [lit fadd fsub fmul fdiv fopp fpow fsqrt fexp fcos fsin fatan2 feq0 ideal
       cof Cj cadd csub cmul cdiv cexp cabs cangle re im
       vadd vsub vmul vscale vmuls vdivs vsum vsq vdot vx vy vz] in *.

(** ** The properties [k], [omega], [freq] and [wavelength] *)

(** C7. With a speed of sound [c_air <> 0] and a value [v > 0], after any of
    the four properties is set to [v]: the property reads back [v],
    [omega = k * c_air], [freq = omega / (2 PI)] and [wavelength = 2 PI / k];
    the wavelength after [freq = v] is [c_air / v], and [k] after
    [wavelength = v] is [2 PI / v]. *)
Theorem views_consistent (c_air v : R) (p : view) (self : TransducerModel.attrs R) :
  c_air <> 0 -> 0 < v ->
  let self' := set_view c_air p v self in
  get_view p self' = v /\
  TransducerModel.omega self' = TransducerModel.k self' * c_air /\
  TransducerModel.freq self' = TransducerModel.omega self' / (2 * PI) /\
  TransducerModel.wavelength self' = 2 * PI / TransducerModel.k self' /\
  TransducerModel.wavelength (TransducerModel.set_freq c_air v self) = c_air / v /\
  TransducerModel.k (TransducerModel.set_wavelength c_air v self) = 2 * PI / v.
Proof.
  intros Hc Hv self'. subst self'.
  pose proof PI_neq0 as Hpi.
  assert (Hv' : v <> 0) by lra.
  destruct p; cbn -[PI]; repeat split; field; auto.
Qed.

Lemma views_consistent_witness :
  let self := TransducerModel.mk_attrs 0 0 0.005 6 in
  TransducerModel.wavelength (TransducerModel.set_freq 343 40000 self)
  = 343 / 40000.
Proof.
  intros self.
  refine (proj1 (proj2 (proj2 (proj2 (proj2
    (views_consistent 343 40000 View_freq self _ _)))))); lra.
Defined.

(** ** Derivatives of real functions *)

Lemma dpl_val f x l l' :
  derivable_pt_lim f x l' -> l' = l -> derivable_pt_lim f x l.
Proof. intros Hd <-; exact Hd. Qed.

Lemma dpl_plus f g x lf lg :
  derivable_pt_lim f x lf -> derivable_pt_lim g x lg ->
  derivable_pt_lim (fun t => f t + g t) x (lf + lg).
Proof. intros; apply (derivable_pt_lim_plus f g); auto. Qed.

Lemma dpl_minus f g x lf lg :
  derivable_pt_lim f x lf -> derivable_pt_lim g x lg ->
  derivable_pt_lim (fun t => f t - g t) x (lf - lg).
Proof. intros; apply (derivable_pt_lim_minus f g); auto. Qed.

Lemma dpl_mult f g x lf lg :
  derivable_pt_lim f x lf -> derivable_pt_lim g x lg ->
  derivable_pt_lim (fun t => f t * g t) x (lf * g x + f x * lg).
Proof. intros; apply (derivable_pt_lim_mult f g); auto. Qed.

Lemma dpl_div f g x lf lg :
  derivable_pt_lim f x lf -> derivable_pt_lim g x lg -> g x <> 0 ->
  derivable_pt_lim (fun t => f t / g t) x ((lf * g x - lg * f x) / (g x)²).
Proof. intros; apply (derivable_pt_lim_div f g); auto. Qed.

Lemma dpl_opp f x lf :
  derivable_pt_lim f x lf -> derivable_pt_lim (fun t => - f t) x (- lf).
Proof. intros; apply (derivable_pt_lim_opp f); auto. Qed.

Lemma dpl_const c x : derivable_pt_lim (fun _ => c) x 0.
Proof. apply (derivable_pt_lim_const c). Qed.

Lemma dpl_id x : derivable_pt_lim (fun t => t) x 1.
Proof. apply derivable_pt_lim_id. Qed.

Lemma dpl_comp (h : R -> R) g x lg lh :
  derivable_pt_lim g x lg -> derivable_pt_lim h (g x) lh ->
  derivable_pt_lim (fun t => h (g t)) x (lh * lg).
Proof. intros; apply (derivable_pt_lim_comp g h); auto. Qed.

Lemma dpl_pow g n x lg :
  derivable_pt_lim g x lg ->
  derivable_pt_lim (fun t => g t ^ n) x (INR n * g x ^ pred n * lg).
Proof.
  intros. apply (dpl_comp (fun y => y ^ n) g); auto.
  apply derivable_pt_lim_pow.
Qed.

Lemma dpl_sqrt g x lg :
  derivable_pt_lim g x lg -> 0 < g x ->
  derivable_pt_lim (fun t => sqrt (g t)) x (/ (2 * sqrt (g x)) * lg).
Proof.
  intros. apply (dpl_comp sqrt g); auto.
  apply derivable_pt_lim_sqrt; auto.
Qed.

(** Differentiates an expression built from the operations above; leaves
    the side conditions of the quotients and square roots. *)
Ltac dpl :=
  cbv beta;
  lazymatch goal with
  | |- derivable_pt_lim (fun t => t) _ _ => apply dpl_id
  | |- derivable_pt_lim (fun t => @?f t + @?g t) _ _ => eapply dpl_plus; dpl
  | |- derivable_pt_lim (fun t => @?f t - @?g t) _ _ => eapply dpl_minus; dpl
  | |- derivable_pt_lim (fun t => @?f t * @?g t) _ _ => eapply dpl_mult; dpl
  | |- derivable_pt_lim (fun t => @?f t / @?g t) _ _ =>
      eapply dpl_div; [dpl | dpl | ]
  | |- derivable_pt_lim (fun t => - @?f t) _ _ => eapply dpl_opp; dpl
  | |- derivable_pt_lim (fun t => @?f t ^ ?n) _ _ => eapply dpl_pow; dpl
  | |- derivable_pt_lim (fun t => sqrt (@?f t)) _ _ =>
      eapply dpl_sqrt; [dpl | ]
  | |- derivable_pt_lim (fun t => cos (@?f t)) _ _ =>
      eapply (dpl_comp cos); [dpl | apply derivable_pt_lim_cos]
  | |- derivable_pt_lim (fun t => sin (@?f t)) _ _ =>
      eapply (dpl_comp sin); [dpl | apply derivable_pt_lim_sin]
  | |- derivable_pt_lim (fun t => ?c) _ _ => apply dpl_const
  | |- derivable_pt_lim cos _ _ => apply derivable_pt_lim_cos
  | |- derivable_pt_lim sin _ _ => apply derivable_pt_lim_sin
  | |- derivable_pt_lim ?f ?x ?l =>
      lazymatch f with
      | (fun _ => _) => fail "dpl: no rule"
      | _ => let g := eval cbv beta in (fun t : R => f t) in
             change (derivable_pt_lim g x l); dpl
      end
  end.

(** ** Derivatives of complex functions of a real variable *)

Lemma Cderiv_val F x l l' : Cderiv F x l' -> l' = l -> Cderiv F x l.
Proof. intros Hd <-; exact Hd. Qed.

Lemma Cderiv_plus F G x lf lg :
  Cderiv F x lf -> Cderiv G x lg ->
  Cderiv (fun t => (F t + G t)%cx) x (lf + lg)%cx.
Proof.
  intros [Hf1 Hf2] [Hg1 Hg2]; split; ideal_simpl; apply dpl_plus; auto.
Qed.

Lemma Cderiv_scale (m : R -> R) F x lm lf :
  derivable_pt_lim m x lm -> Cderiv F x lf ->
  Cderiv (fun t => cscale (m t) (F t)) x
    (cscale lm (F x) + cscale (m x) lf)%cx.
Proof.
  intros Hm [Hf1 Hf2]; split; unfold cscale; ideal_simpl;
    apply (dpl_mult m); auto.
Qed.

Lemma Cderiv_comp (h : R -> Cx R) (g : R -> R) x lg lh :
  derivable_pt_lim g x lg -> Cderiv h (g x) lh ->
  Cderiv (fun t => h (g t)) x (cscale lg lh).
Proof.
  intros Hg [Hh1 Hh2]; split; unfold cscale; ideal_simpl.
  - eapply dpl_val; [apply (dpl_comp (fun y => re (h y)) g); eauto | ring].
  - eapply dpl_val; [apply (dpl_comp (fun y => im (h y)) g); eauto | ring].
Qed.

(** ** The radial coefficients *)

Lemma P0_deriv k r : r <> 0 -> Cderiv (P0 k) r (cscale r (P1 k r)).
Proof.
  intros Hr; split; unfold P0, P1, cscale; ideal_simpl.
  all: eapply dpl_val; [dpl; auto | unfold Rsqr; simpl; field; auto].
Qed.

Lemma P1_deriv k r : r <> 0 -> Cderiv (P1 k) r (cscale r (P2 k r)).
Proof.
  intros Hr; split; unfold P1, P2, cscale; ideal_simpl.
  all: eapply dpl_val;
    [dpl; apply pow_nonzero; auto | unfold Rsqr; simpl; field; auto].
Qed.

Lemma P2_deriv k r : r <> 0 -> Cderiv (P2 k) r (cscale r (P3 k r)).
Proof.
  intros Hr; split; unfold P2, P3, cscale; ideal_simpl.
  all: eapply dpl_val;
    [dpl; apply pow_nonzero; auto | unfold Rsqr; simpl; field; auto].
Qed.

(** ** The distance from the source *)

Lemma with_coord_id a p : with_coord a p (coord a p) = p.
Proof. destruct a, p; reflexivity. Qed.

Lemma dist_sq_pos source_position p :
  0 < dist source_position p <->
  0 < (vx p - vx source_position) ^ 2 + (vy p - vy source_position) ^ 2
      + (vz p - vz source_position) ^ 2.
Proof.
  unfold dist; ideal_simpl. split.
  - intros Hs. apply Rnot_le_lt. intros Hle.
    rewrite sqrt_neg_0 in Hs by exact Hle. lra.
  - apply sqrt_lt_R0.
Qed.

Lemma dist_deriv a source_position p :
  0 < dist source_position p ->
  derivable_pt_lim (fun t => dist source_position (with_coord a p t))
    (coord a p)
    ((coord a p - coord a source_position) / dist source_position p).
Proof.
  intros Hr. pose proof (proj1 (dist_sq_pos _ _) Hr) as Hs.
  assert (Hne : dist source_position p <> 0) by lra. revert Hne.
  destruct a, p as [px py pz], source_position as [sx sy sz];
    unfold dist; ideal_simpl; simpl coord; simpl with_coord; ideal_simpl;
    intros Hne.
  all: eapply dpl_val; [dpl; exact Hs | simpl; field; exact Hne].
Qed.

(** The receiver positions away from the source form an open set. *)
Lemma near_dist_pos source_position p :
  0 < dist source_position p ->
  exists delta, 0 < delta /\
    forall q, near delta p q -> 0 < dist source_position q.
Proof.
  intros Hr. apply dist_sq_pos in Hr.
  assert (Hcase : vx p <> vx source_position \/ vy p <> vy source_position
                  \/ vz p <> vz source_position).
  { destruct (Req_dec (vx p) (vx source_position)) as [Hx|]; [|auto].
    destruct (Req_dec (vy p) (vy source_position)) as [Hy|]; [|auto].
    destruct (Req_dec (vz p) (vz source_position)) as [Hz|]; [|auto].
    rewrite Hx, Hy, Hz in Hr. exfalso. lra. }
  assert (Hsq : forall x y : R, x <> y -> 0 < (x - y) ^ 2).
  { intros x y Hxy. replace ((x - y) ^ 2) with (Rsqr (x - y))
      by (unfold Rsqr; ring).
    apply Rsqr_pos_lt. lra. }
  assert (Hge : forall x : R, 0 <= x ^ 2) by (intros; apply pow2_ge_0).
  destruct Hcase as [Hd | [Hd | Hd]].
  - exists (Rabs (vx p - vx source_position)). split.
    { apply Rabs_pos_lt. lra. }
    intros q (Hq & _ & _). apply dist_sq_pos.
    assert (vx q <> vx source_position).
    { intros Heq. rewrite Heq in Hq. rewrite Rabs_minus_sym in Hq. lra. }
    pose proof (Hsq _ _ H). pose proof (Hge (vy q - vy source_position)).
    pose proof (Hge (vz q - vz source_position)). lra.
  - exists (Rabs (vy p - vy source_position)). split.
    { apply Rabs_pos_lt. lra. }
    intros q (_ & Hq & _). apply dist_sq_pos.
    assert (vy q <> vy source_position).
    { intros Heq. rewrite Heq in Hq. rewrite Rabs_minus_sym in Hq. lra. }
    pose proof (Hsq _ _ H). pose proof (Hge (vx q - vx source_position)).
    pose proof (Hge (vz q - vz source_position)). lra.
  - exists (Rabs (vz p - vz source_position)). split.
    { apply Rabs_pos_lt. lra. }
    intros q (_ & _ & Hq). apply dist_sq_pos.
    assert (vz q <> vz source_position).
    { intros Heq. rewrite Heq in Hq. rewrite Rabs_minus_sym in Hq. lra. }
    pose proof (Hsq _ _ H). pose proof (Hge (vx q - vx source_position)).
    pose proof (Hge (vy q - vy source_position)). lra.
Qed.

(** ** The closed forms are the partial derivatives *)

Lemma dcoord_deriv a c source_position p :
  derivable_pt_lim
    (fun t => coord a (with_coord c p t) - coord a source_position)
    (coord c p) (kron a c).
Proof.
  destruct a, c, p; simpl; (eapply dpl_val; [dpl | simpl; ring]).
Qed.

Lemma radial_partial (h : R -> Cx R) (l : Cx R) c source_position p :
  0 < dist source_position p ->
  Cderiv h (dist source_position p) (cscale (dist source_position p) l) ->
  Cderiv (fun t => h (dist source_position (with_coord c p t))) (coord c p)
    (cscale (coord c p - coord c source_position) l).
Proof.
  intros Hr Hh.
  eapply Cderiv_val.
  - apply (Cderiv_comp h (fun t => dist source_position (with_coord c p t))).
    + apply dist_deriv; exact Hr.
    + cbv beta. rewrite with_coord_id. exact Hh.
  - apply Cx_eq; unfold cscale; ideal_simpl; field; lra.
Qed.

Lemma G_partial k source_position alpha c p :
  (length alpha < 3)%nat -> 0 < dist source_position p ->
  partial_at c (G k source_position alpha) p (G k source_position (c :: alpha) p).
Proof.
  intros Hlen Hr. assert (Hne : dist source_position p <> 0) by lra.
  pose proof (fun h l => radial_partial h l c source_position p Hr) as Hrad.
  destruct alpha as [|a [|b [|? ?]]]; [| | |simpl in Hlen; lia];
    unfold partial_at, G.
  - apply Hrad, P0_deriv, Hne.
  - eapply Cderiv_val.
    + apply (Cderiv_scale
               (fun t => coord a (with_coord c p t) - coord a source_position)).
      * apply dcoord_deriv.
      * apply Hrad, P1_deriv, Hne.
    + cbv beta. rewrite !with_coord_id.
      destruct a, c; apply Cx_eq; unfold cscale; ideal_simpl; simpl; ring.
  - eapply Cderiv_val.
    + apply Cderiv_plus.
      * apply (Cderiv_scale
                 (fun t => (coord a (with_coord c p t) - coord a source_position)
                           * (coord b (with_coord c p t)
                              - coord b source_position))).
        -- apply dpl_mult; apply dcoord_deriv.
        -- apply Hrad, P2_deriv, Hne.
      * apply (Cderiv_scale (fun _ => kron a b)).
        -- apply dpl_const.
        -- apply Hrad, P1_deriv, Hne.
    + cbv beta. rewrite !with_coord_id.
      destruct a, b, c; apply Cx_eq; unfold cscale; ideal_simpl; simpl; ring.
Qed.

Lemma G_is_partial k source_position (u : Vec3 R -> Cx R) alpha :
  (forall q, 0 < dist source_position q -> u q = G k source_position [] q) ->
  (length alpha <= 3)%nat ->
  forall p, 0 < dist source_position p ->
    is_partial alpha u p (G k source_position alpha p).
Proof.
  intros Hu. induction alpha as [|a alpha IH]; intros Hlen p Hr.
  - simpl. symmetry. apply Hu, Hr.
  - simpl in Hlen. cbn [is_partial].
    exists (G k source_position alpha). split.
    + destruct (near_dist_pos _ _ Hr) as (delta & Hdelta & Hnear).
      exists delta. split; [exact Hdelta|].
      intros q Hq. apply IH; [lia | apply Hnear, Hq].
    + apply G_partial; [lia | exact Hr].
Qed.

(** ** The entries of [spherical_derivatives] *)

Lemma phase_eq (x : R) : cexp (Cj * cof x)%cx = mkCx (cos x) (sin x).
Proof.
  apply Cx_eq; ideal_simpl.
  - replace (0 * x - 1 * 0) with 0 by ring.
    replace (0 * 0 + 1 * x) with x by ring. rewrite exp_0. ring.
  - replace (0 * x - 1 * 0) with 0 by ring.
    replace (0 * 0 + 1 * x) with x by ring. rewrite exp_0. ring.
Qed.

Lemma count_axis_length alpha :
  (count_axis Ax_x alpha + count_axis Ax_y alpha + count_axis Ax_z alpha
   = length alpha)%nat.
Proof.
  unfold count_axis. induction alpha as [|a alpha IH]; [reflexivity|].
  destruct a; rewrite !filter_cons; repeat case_decide; try congruence;
    simpl; lia.
Qed.

Lemma key_of_length alpha key :
  key_of alpha = Some key -> (length alpha <= 3)%nat.
Proof.
  unfold key_of, key_of_mi. rewrite <- (count_axis_length alpha).
  destruct (count_axis Ax_x alpha) as [|[|[|[|?]]]];
    destruct (count_axis Ax_y alpha) as [|[|[|[|?]]]];
    destruct (count_axis Ax_z alpha) as [|[|[|[|?]]]];
    intros; simplify_eq; lia.
Qed.

(** Reads an entry of a dictionary built by successive assignments. *)
Ltac dict_lookup :=
  repeat first
    [ rewrite lookup_insert_eq
    | rewrite lookup_insert_ne by (intros ?; discriminate)
    | rewrite lookup_singleton_eq
    | rewrite lookup_singleton_ne by (intros ?; discriminate)
    | rewrite lookup_empty ].

Ltac entry_eq :=
  dict_lookup; f_equal; apply Cx_eq;
  unfold P0, P1, P2, P3, cscale, kron; ideal_simpl; simpl coord;
  field; auto.

Lemma spherical_derivatives_G self source_position p orders alpha key :
  (Z.of_nat (length alpha) <= orders)%Z -> key_of alpha = Some key ->
  0 < dist source_position p ->
  TransducerModel.spherical_derivatives self source_position p orders !! key
  = Some (G (TransducerModel._k self) source_position alpha p).
Proof.
  intros Hlen Hkey Hr. pose proof (key_of_length _ _ Hkey) as Hlen3.
  assert (Hne : dist source_position p <> 0) by lra.
  unfold TransducerModel.spherical_derivatives, TransducerModel.k, G.
  change (fsqrt (vsum (vsq (vsub p source_position))))
    with (dist source_position p).
  revert Hne. generalize (dist source_position p) as r. intros r Hne.
  rewrite !phase_eq.
  destruct alpha as [|a [|b [|c [|? ?]]]]; [| | | |simpl in Hlen3; lia].
  - vm_compute in Hkey; simplify_eq.
    destruct (0 <? orders)%Z, (1 <? orders)%Z, (2 <? orders)%Z; entry_eq.
  - assert (H0 : (0 <? orders)%Z = true) by (apply Z.ltb_lt; simpl in Hlen; lia).
    rewrite H0.
    destruct a; vm_compute in Hkey; simplify_eq;
      destruct (1 <? orders)%Z, (2 <? orders)%Z; entry_eq.
  - assert (H0 : (0 <? orders)%Z = true) by (apply Z.ltb_lt; simpl in Hlen; lia).
    assert (H1 : (1 <? orders)%Z = true) by (apply Z.ltb_lt; simpl in Hlen; lia).
    rewrite H0, H1.
    destruct a, b; vm_compute in Hkey; simplify_eq;
      destruct (2 <? orders)%Z; entry_eq.
  - assert (H0 : (0 <? orders)%Z = true) by (apply Z.ltb_lt; simpl in Hlen; lia).
    assert (H1 : (1 <? orders)%Z = true) by (apply Z.ltb_lt; simpl in Hlen; lia).
    assert (H2 : (2 <? orders)%Z = true) by (apply Z.ltb_lt; simpl in Hlen; lia).
    rewrite H0, H1, H2.
    destruct a, b, c; vm_compute in Hkey; simplify_eq; entry_eq.
Qed.

Lemma spherical_spreading_P0 self source_position q :
  0 < dist source_position q ->
  TransducerModel.spherical_spreading self source_position q
  = G (TransducerModel._k self) source_position [] q.
Proof.
  intros Hr. assert (Hne : dist source_position q <> 0) by lra.
  unfold TransducerModel.spherical_spreading, TransducerModel.k, G.
  replace (fsqrt (vdot (vsub q source_position) (vsub q source_position)))
    with (dist source_position q)
    by (unfold dist; ideal_simpl; f_equal; ring).
  revert Hne. generalize (dist source_position q) as r. intros r Hne.
  apply Cx_eq; unfold P0; ideal_simpl.
  - replace ((0 * TransducerModel._k self - 1 * 0) * r
             - (0 * 0 + 1 * TransducerModel._k self) * 0) with 0 by ring.
    replace ((0 * TransducerModel._k self - 1 * 0) * 0
             + (0 * 0 + 1 * TransducerModel._k self) * r)
      with (TransducerModel._k self * r) by ring.
    rewrite exp_0. field; auto.
  - replace ((0 * TransducerModel._k self - 1 * 0) * r
             - (0 * 0 + 1 * TransducerModel._k self) * 0) with 0 by ring.
    replace ((0 * TransducerModel._k self - 1 * 0) * 0
             + (0 * 0 + 1 * TransducerModel._k self) * r)
      with (TransducerModel._k self * r) by ring.
    rewrite exp_0. field; auto.
Qed.

Lemma spherical_derivatives_keys {T : Type} `{Float T}
    (self : TransducerModel.attrs T) source_position p orders key :
  is_Some (TransducerModel.spherical_derivatives self source_position p orders
           !! key) ->
  key ∈ keys_upto orders.
Proof.
  unfold TransducerModel.spherical_derivatives, keys_upto.
  intros [v Hv].
  destruct (0 <? orders)%Z, (1 <? orders)%Z, (2 <? orders)%Z;
    repeat (apply lookup_insert_Some in Hv as [[<- _] | [_ Hv]];
            [set_solver|]);
    apply lookup_singleton_Some in Hv as [<- _]; set_solver.
Qed.

Lemma keys_upto_axes orders key :
  (0 <= orders)%Z -> key ∈ keys_upto orders ->
  (Z.of_nat (length (axes_of key)) <= orders)%Z /\
  key_of (axes_of key) = Some key.
Proof.
  unfold keys_upto. intros Hord Hin.
  destruct (Z.ltb_spec 0 orders), (Z.ltb_spec 1 orders),
    (Z.ltb_spec 2 orders); try lia;
    simpl in Hin;
    repeat (apply elem_of_cons in Hin as [-> | Hin];
            [split; [simpl; lia | reflexivity]|]);
    apply elem_of_nil in Hin; contradiction.
Qed.

(** C1. Away from the source ([r > 0]) and for [orders] from 0 to 3,
    [spherical_derivatives] returns the closed forms: [e^{ikr}/r] for [''];
    the component of [recv - src] times [(ikr-1) e^{ikr}/r^3] for ['x'], ['y']
    and ['z']; the squared component times [(3 - k^2 r^2 - 3ikr) e^{ikr}/r^5]
    plus [(ikr-1) e^{ikr}/r^3] for ['xx'], ['yy'] and ['zz']; the product of
    the two components times [(3 - k^2 r^2 - 3ikr) e^{ikr}/r^5] for ['xy'],
    ['xz'] and ['yz']. Every entry is the iterated partial derivative of
    [spherical_spreading], in the receiver position, along the axes its name
    spells, taken in any order; and every name returned spells at most
    [orders] axes. *)
Theorem spherical_derivatives_closed_form
    (self : TransducerModel.attrs R) (source_position receiver_position : Vec3 R)
    (orders : Z) :
  let k := TransducerModel._k self in
  let d := vsub receiver_position source_position in
  let r := dist source_position receiver_position in
  let D := TransducerModel.spherical_derivatives self source_position
             receiver_position orders in
  0 < r -> (0 <= orders <= 3)%Z ->
  D !! "" = Some (radial0 k r) /\
  ((0 < orders)%Z ->
     D !! "x" = Some (cof (vx d) * radial1 k r)%cx /\
     D !! "y" = Some (cof (vy d) * radial1 k r)%cx /\
     D !! "z" = Some (cof (vz d) * radial1 k r)%cx) /\
  ((1 < orders)%Z ->
     D !! "xx" = Some (cof (vx d ^ 2) * radial2 k r + radial1 k r)%cx /\
     D !! "yy" = Some (cof (vy d ^ 2) * radial2 k r + radial1 k r)%cx /\
     D !! "zz" = Some (cof (vz d ^ 2) * radial2 k r + radial1 k r)%cx /\
     D !! "xy" = Some (cof (vx d * vy d) * radial2 k r)%cx /\
     D !! "xz" = Some (cof (vx d * vz d) * radial2 k r)%cx /\
     D !! "yz" = Some (cof (vy d * vz d) * radial2 k r)%cx) /\
  (forall alpha key,
     (Z.of_nat (length alpha) <= orders)%Z -> key_of alpha = Some key ->
     exists v, D !! key = Some v /\
       is_partial alpha
         (TransducerModel.spherical_spreading self source_position)
         receiver_position v) /\
  (forall key, is_Some (D !! key) ->
     (Z.of_nat (length (axes_of key)) <= orders)%Z /\
     key_of (axes_of key) = Some key).
Proof.
  intros k d r D Hr Hord. subst k d r D.
  split; [|split; [|split; [|split]]].
  - unfold TransducerModel.spherical_derivatives.
    destruct (0 <? orders)%Z, (1 <? orders)%Z, (2 <? orders)%Z;
      dict_lookup; reflexivity.
  - intros H0. unfold TransducerModel.spherical_derivatives.
    rewrite (proj2 (Z.ltb_lt 0 orders) H0).
    destruct (1 <? orders)%Z, (2 <? orders)%Z;
      repeat split; dict_lookup; reflexivity.
  - intros H1. unfold TransducerModel.spherical_derivatives.
    rewrite (proj2 (Z.ltb_lt 1 orders) H1).
    destruct (0 <? orders)%Z, (2 <? orders)%Z;
      repeat split; dict_lookup; reflexivity.
  - intros alpha key Hlen Hkey.
    exists (G (TransducerModel._k self) source_position alpha receiver_position).
    split.
    + apply spherical_derivatives_G; assumption.
    + apply G_is_partial.
      * intros q Hq. apply spherical_spreading_P0, Hq.
      * eapply key_of_length, Hkey.
      * exact Hr.
  - intros key Hkey. apply keys_upto_axes; [lia|].
    eapply (spherical_derivatives_keys self); exact Hkey.
Qed.

Lemma spherical_derivatives_closed_form_witness :
  let self := TransducerModel.mk_attrs 1 343 0 6 in
  let source_position := mkVec3 0 0 0 in
  let receiver_position := mkVec3 1 0 0 in
  TransducerModel.spherical_derivatives self source_position receiver_position 3
    !! "" = Some (radial0 1 (dist source_position receiver_position)).
Proof.
  intros self source_position receiver_position.
  refine (proj1 (spherical_derivatives_closed_form self source_position
                   receiver_position 3 _ _)).
  - apply dist_sq_pos. simpl. lra.
  - lia.
Defined.

(** ** The keys of the dictionaries *)

(** Finds a key in a dictionary built by successive assignments. *)
Ltac has_key :=
  apply (bool_decide_unpack _); vm_compute; reflexivity.

(** Finds a key in a list of keys. *)
Ltac in_keys := apply (bool_decide_unpack _); vm_compute; reflexivity.

Lemma spherical_derivatives_has_keys {T : Type} `{Float T}
    (self : TransducerModel.attrs T) source_position p orders key :
  key ∈ keys_upto orders ->
  is_Some (TransducerModel.spherical_derivatives self source_position p orders
           !! key).
Proof.
  unfold TransducerModel.spherical_derivatives, keys_upto. intros Hin.
  destruct (0 <? orders)%Z, (1 <? orders)%Z, (2 <? orders)%Z;
    simpl in Hin;
    repeat (apply elem_of_cons in Hin as [-> | Hin]; [has_key|]);
    apply elem_of_nil in Hin; contradiction.
Qed.

Lemma finite_difference_coefficients_has_keys orders key :
  key ∈ keys_upto orders ->
  is_Some (TransducerModel.finite_difference_coefficients orders !! key).
Proof.
  unfold TransducerModel.finite_difference_coefficients, keys_upto. intros Hin.
  destruct (0 <? orders)%Z, (1 <? orders)%Z, (2 <? orders)%Z;
    simpl in Hin;
    repeat (apply elem_of_cons in Hin as [-> | Hin]; [has_key|]);
    apply elem_of_nil in Hin; contradiction.
Qed.

Lemma directivity_derivatives_has_keys {T : Type} `{Float T}
    directivity (self : TransducerModel.attrs T) source_position source_normal
    p orders key :
  key ∈ keys_upto orders ->
  is_Some (TransducerModel.directivity_derivatives directivity self
             source_position source_normal p orders !! key).
Proof.
  intros Hin. unfold TransducerModel.directivity_derivatives.
  rewrite map_lookup_imap.
  destruct (finite_difference_coefficients_has_keys _ _ Hin) as [[s w] ->].
  simpl. eauto.
Qed.

Lemma CircularRing_directivity_derivatives_has_keys {T : Type} `{Float T}
    j0 j1 (self : TransducerModel.attrs T) source_position source_normal
    p orders key :
  key ∈ keys_upto orders ->
  is_Some (CircularRing.directivity_derivatives j0 j1 self
             source_position source_normal p orders !! key).
Proof.
  unfold CircularRing.directivity_derivatives, keys_upto. intros Hin.
  destruct (0 <? orders)%Z, (1 <? orders)%Z, (2 <? orders)%Z;
    simpl in Hin;
    repeat (apply elem_of_cons in Hin as [-> | Hin]; [has_key|]);
    apply elem_of_nil in Hin; contradiction.
Qed.

Lemma Vec3_eq {T : Type} (a b : Vec3 T) :
  vx a = vx b -> vy a = vy b -> vz a = vz b -> a = b.
Proof. destruct a, b; simpl; congruence. Qed.

(** The entry [''] of the finite differences is the directivity itself. *)
Lemma directivity_derivatives_0 directivity (self : TransducerModel.attrs R)
    source_position source_normal p orders :
  TransducerModel.directivity_derivatives directivity self source_position
    source_normal p orders !! ""
  = Some (directivity self source_position source_normal p).
Proof.
  unfold TransducerModel.directivity_derivatives.
  rewrite map_lookup_imap.
  assert (TransducerModel.finite_difference_coefficients orders !! ""
          = Some ([mkVec3 0 0 0]%Z, [1])) as ->.
  { unfold TransducerModel.finite_difference_coefficients.
    destruct (0 <? orders)%Z, (1 <? orders)%Z, (2 <? orders)%Z;
      dict_lookup; reflexivity. }
  cbn [mbind option_bind zip_with fsum foldl String.length].
  f_equal.
  replace (TransducerModel.shifted (mkVec3 0 0 0)%Z
             (lit 1 / TransducerModel.k self)%fl p) with p.
  - ideal_simpl. rewrite pow_O. field.
  - apply Vec3_eq; unfold TransducerModel.shifted; ideal_simpl; simpl; ring.
Qed.

Lemma CircularRing_directivity_derivatives_0 j0 j1
    (self : TransducerModel.attrs R) source_position source_normal p orders :
  CircularRing.directivity_derivatives j0 j1 self source_position
    source_normal p orders !! ""
  = Some (CircularRing.directivity j0 self source_position source_normal p).
Proof.
  unfold CircularRing.directivity_derivatives, CircularRing.directivity.
  destruct (0 <? orders)%Z, (1 <? orders)%Z, (2 <? orders)%Z;
    dict_lookup; do 2 f_equal; ideal_simpl;
    repeat (f_equal; try ring).
Qed.

Lemma spherical_derivatives_0 (self : TransducerModel.attrs R)
    source_position p orders :
  TransducerModel.spherical_derivatives self source_position p orders !! ""
  = Some (TransducerModel.spherical_spreading self source_position p).
Proof.
  unfold TransducerModel.spherical_derivatives,
    TransducerModel.spherical_spreading.
  destruct (0 <? orders)%Z, (1 <? orders)%Z, (2 <? orders)%Z;
    dict_lookup; f_equal.
  all: replace (fsqrt (vdot (vsub p source_position) (vsub p source_position)))
         with (fsqrt (vsum (vsq (vsub p source_position))))
         by (ideal_simpl; f_equal; ring).
  all: generalize (fsqrt (vsum (vsq (vsub p source_position)))) as r; intros r.
  all: rewrite phase_eq.
  all: replace (Cj * cof (TransducerModel.k self) * cof r)%cx
         with (Cj * cof (TransducerModel.k self * r))%cx
         by (apply Cx_eq; ideal_simpl; ring).
  all: rewrite phase_eq; reflexivity.
Qed.

Lemma source_class_has_keys j0 j1 cls (self : TransducerModel.attrs R)
    source_position source_normal p orders key :
  source_class j0 j1 cls -> key ∈ keys_upto orders ->
  is_Some (TransducerModel.cls_directivity_derivatives cls self
             source_position source_normal p orders !! key).
Proof.
  intros [] Hin; simpl.
  - apply directivity_derivatives_has_keys, Hin.
  - apply directivity_derivatives_has_keys, Hin.
  - apply CircularRing_directivity_derivatives_has_keys, Hin.
Qed.

Lemma source_class_0 j0 j1 cls (self : TransducerModel.attrs R)
    source_position source_normal p orders :
  source_class j0 j1 cls ->
  TransducerModel.cls_directivity_derivatives cls self source_position
    source_normal p orders !! ""
  = Some (TransducerModel.cls_directivity cls self source_position
            source_normal p).
Proof.
  intros []; simpl.
  - apply directivity_derivatives_0.
  - apply directivity_derivatives_0.
  - apply CircularRing_directivity_derivatives_0.
Qed.

(** Names the entries of the dictionaries [S] and [Dd] under [key]. *)
Ltac take_key HS HD key :=
  let s := fresh "s" in let d := fresh "d" in
  let Es := fresh "Es" in let Ed := fresh "Ed" in
  destruct (HS key ltac:(in_keys)) as [s Es];
  destruct (HD key ltac:(in_keys)) as [d Ed].

Ltac rewrite_entries :=
  repeat match goal with
         | E : _ !! _ = Some _ |- _ => rewrite !E
         end.

Ltac py_simpl :=
  cbn [fmap option_fmap option_map omul oadd oint mbind option_bind setitem
       seq list_bind foldr app key_of_mi binom Nat.sub Nat.mul Nat.add
       Z.of_nat Pos.of_succ_nat Pos.succ].

(** An entry of the product is its Leibniz expansion. *)
Ltac leibniz_entry D :=
  rewrite lookup_fmap; dict_lookup;
  unfold leibniz, sub_indices, D; py_simpl;
  rewrite ?lookup_fmap; rewrite_entries; py_simpl;
  f_equal; apply Cx_eq; ideal_simpl; ring.

Ltac product_keys :=
  let v := fresh "v" in let Hv := fresh "Hv" in
  intros key [v Hv]; rewrite lookup_fmap in Hv;
  apply fmap_Some in Hv as (? & Hv & _);
  repeat (apply lookup_insert_Some in Hv as [[<- _] | [_ Hv]]; [in_keys|]);
  rewrite lookup_empty in Hv; discriminate.

(** The product rule on two dictionaries that hold every key. *)
Lemma product_rule_leibniz cls (self : TransducerModel.attrs R)
    source_position source_normal p orders :
  (0 <= orders <= 3)%Z ->
  let S := TransducerModel.spherical_derivatives self source_position p orders in
  let Dd := TransducerModel.cls_directivity_derivatives cls self
              source_position source_normal p orders in
  let D : gmap string (Cx R) := cof <$> Dd in
  (forall key, key ∈ keys_upto orders -> is_Some (Dd !! key)) ->
  exists sd,
    TransducerModel.spatial_derivatives cls self source_position source_normal
      p orders = Some sd /\
    (forall alpha key,
       (Z.of_nat (mi_order alpha) <= orders)%Z -> key_of_mi alpha = Some key ->
       sd !! key = (Some (cof (TransducerModel.p0 self)) * leibniz S D alpha)%py) /\
    (forall key, is_Some (sd !! key) -> key ∈ keys_upto orders).
Proof.
  intros Hord S Dd D HD.
  assert (HS : forall key, key ∈ keys_upto orders -> is_Some (S !! key)).
  { intros key Hin. apply spherical_derivatives_has_keys, Hin. }
  unfold TransducerModel.spatial_derivatives.
  fold S. fold Dd.
  clearbody S Dd.
  assert (Hcase : orders = 0%Z \/ orders = 1%Z \/ orders = 2%Z \/ orders = 3%Z)
    by lia.
  clear Hord.
  destruct Hcase as [-> | [-> | [-> | ->]]].
  - take_key HS HD "".
    cbn [Z.ltb Z.compare Pos.compare Pos.compare_cont].
    rewrite_entries. py_simpl.
    eexists; split; [reflexivity|]. split.
    + intros [[[|?] [|?]] [|?]] key Ha Hk; simpl in Ha; try lia.
      vm_compute in Hk; simplify_eq; leibniz_entry D.
    + product_keys.
  - take_key HS HD "". take_key HS HD "x". take_key HS HD "y".
    take_key HS HD "z".
    cbn [Z.ltb Z.compare Pos.compare Pos.compare_cont].
    rewrite_entries. py_simpl.
    eexists; split; [reflexivity|]. split.
    + intros [[[|[|?]] [|[|?]]] [|[|?]]] key Ha Hk; simpl in Ha; try lia.
      all: vm_compute in Hk; simplify_eq; leibniz_entry D.
    + product_keys.
  - take_key HS HD "". take_key HS HD "x". take_key HS HD "y".
    take_key HS HD "z". take_key HS HD "xx". take_key HS HD "yy".
    take_key HS HD "zz". take_key HS HD "xy". take_key HS HD "xz".
    take_key HS HD "yz".
    cbn [Z.ltb Z.compare Pos.compare Pos.compare_cont].
    rewrite_entries. py_simpl.
    eexists; split; [reflexivity|]. split.
    + intros [[[|[|[|?]]] [|[|[|?]]]] [|[|[|?]]]] key Ha Hk; simpl in Ha;
        try lia.
      all: vm_compute in Hk; simplify_eq; leibniz_entry D.
    + product_keys.
  - take_key HS HD "". take_key HS HD "x". take_key HS HD "y".
    take_key HS HD "z". take_key HS HD "xx". take_key HS HD "yy".
    take_key HS HD "zz". take_key HS HD "xy". take_key HS HD "xz".
    take_key HS HD "yz". take_key HS HD "xxx". take_key HS HD "yyy".
    take_key HS HD "zzz". take_key HS HD "xxy". take_key HS HD "xxz".
    take_key HS HD "yyx". take_key HS HD "yyz". take_key HS HD "zzx".
    take_key HS HD "zzy".
    cbn [Z.ltb Z.compare Pos.compare Pos.compare_cont].
    rewrite_entries. py_simpl.
    eexists; split; [reflexivity|]. split.
    + intros [[[|[|[|[|?]]]] [|[|[|[|?]]]]] [|[|[|[|?]]]]] key Ha Hk;
        simpl in Ha; try lia.
      all: vm_compute in Hk; simplify_eq; leibniz_entry D.
    + product_keys.
Qed.

(** C2. For a transducer model of the source and [orders] from 0 to 3,
    [spatial_derivatives] returns a dictionary whose entry for every
    multi-index of order at most [orders] is [p0] times the Leibniz
    expansion of the product of the entries of [spherical_derivatives] and
    [directivity_derivatives]; it has no other entry; its entry ['xy'] is
    [p0 * (S[''] * D['xy'] + D[''] * S['xy'] + S['x'] * D['y'] + D['x'] * S['y'])];
    and its entry [''] is [greens_function]. *)
Theorem spatial_derivatives_product_rule (j0 j1 : R -> R)
    (cls : TransducerModel.class R) (self : TransducerModel.attrs R)
    (source_position source_normal receiver_position : Vec3 R) (orders : Z) :
  source_class j0 j1 cls -> (0 <= orders <= 3)%Z ->
  let S := TransducerModel.spherical_derivatives self source_position
             receiver_position orders in
  let D : gmap string (Cx R) :=
    cof <$> TransducerModel.cls_directivity_derivatives cls self
              source_position source_normal receiver_position orders in
  exists sd,
    TransducerModel.spatial_derivatives cls self source_position source_normal
      receiver_position orders = Some sd /\
    (forall alpha key,
       (Z.of_nat (mi_order alpha) <= orders)%Z -> key_of_mi alpha = Some key ->
       sd !! key = (Some (cof (TransducerModel.p0 self)) * leibniz S D alpha)%py) /\
    (forall key, is_Some (sd !! key) ->
       exists alpha, (Z.of_nat (mi_order alpha) <= orders)%Z /\
                     key_of_mi alpha = Some key) /\
    ((1 < orders)%Z ->
       sd !! "xy"
       = (Some (cof (TransducerModel.p0 self))
          * (S !! "" * D !! "xy" + D !! "" * S !! "xy"
             + S !! "x" * D !! "y" + D !! "x" * S !! "y"))%py) /\
    sd !! ""
    = Some (TransducerModel.greens_function cls self source_position
              source_normal receiver_position).
Proof.
  intros Hcls Hord S D.
  pose proof (fun key => source_class_has_keys j0 j1 cls self source_position
                source_normal receiver_position orders key Hcls) as HD.
  pose proof (fun key => spherical_derivatives_has_keys self source_position
                receiver_position orders key) as HS.
  destruct (product_rule_leibniz cls self source_position source_normal
              receiver_position orders Hord HD) as (sd & Hsd & Hleib & Hkeys).
  exists sd. split; [exact Hsd|]. split; [exact Hleib|]. split; [|split].
  - intros key Hkey. apply Hkeys in Hkey.
    destruct (keys_upto_axes orders key ltac:(lia) Hkey) as [Hlen Hk].
    exists (count_axis Ax_x (axes_of key), count_axis Ax_y (axes_of key),
            count_axis Ax_z (axes_of key)).
    split; [|exact Hk].
    unfold mi_order. rewrite count_axis_length. exact Hlen.
  - intros H1.
    rewrite (Hleib (1, 1, 0)%nat "xy") by (simpl; lia || reflexivity).
    assert (Hin : forall key, key ∈ [""; "x"; "y"; "xy"] ->
                              key ∈ keys_upto orders).
    { intros key Hin. unfold keys_upto.
      rewrite (proj2 (Z.ltb_lt 0 orders)) by lia.
      rewrite (proj2 (Z.ltb_lt 1 orders)) by lia.
      repeat (apply elem_of_cons in Hin as [-> | Hin]; [in_keys|]).
      apply elem_of_nil in Hin. contradiction. }
    subst S D.
    destruct (HS "" ltac:(apply Hin; in_keys)) as [s0 E0].
    destruct (HD "" ltac:(apply Hin; in_keys)) as [d0 F0].
    destruct (HS "x" ltac:(apply Hin; in_keys)) as [sx Ex].
    destruct (HD "x" ltac:(apply Hin; in_keys)) as [dx Fx].
    destruct (HS "y" ltac:(apply Hin; in_keys)) as [sy Ey].
    destruct (HD "y" ltac:(apply Hin; in_keys)) as [dy Fy].
    destruct (HS "xy" ltac:(apply Hin; in_keys)) as [sxy Exy].
    destruct (HD "xy" ltac:(apply Hin; in_keys)) as [dxy Fxy].
    unfold leibniz, sub_indices; py_simpl.
    rewrite ?lookup_fmap. rewrite_entries. py_simpl.
    f_equal. apply Cx_eq; ideal_simpl; ring.
  - rewrite (Hleib (0, 0, 0)%nat "") by (simpl; lia || reflexivity).
    subst S D.
    unfold leibniz, sub_indices; py_simpl. rewrite lookup_fmap.
    rewrite spherical_derivatives_0.
    rewrite (source_class_0 j0 j1) by exact Hcls. py_simpl.
    unfold TransducerModel.greens_function.
    f_equal. apply Cx_eq; ideal_simpl; ring.
Qed.

Lemma spatial_derivatives_product_rule_witness :
  let self := TransducerModel.mk_attrs 1 343 0 6 in
  exists sd,
    TransducerModel.spatial_derivatives TransducerModel.cls self
      (mkVec3 0 0 0) (mkVec3 0 0 1) (mkVec3 1 0 0) 3 = Some sd.
Proof.
  intros self.
  destruct (spatial_derivatives_product_rule cos sin TransducerModel.cls self
              (mkVec3 0 0 0) (mkVec3 0 0 1) (mkVec3 1 0 0) 3
              (class_TransducerModel cos sin) ltac:(lia))
    as (sd & Hsd & _).
  exists sd. exact Hsd.
Defined.

(** ** [ReflectingTransducer] *)

Lemma map_traverse_Some {A B : Type} (f : string -> A -> option B)
    (d : gmap string A) :
  (forall key a, d !! key = Some a -> is_Some (f key a)) ->
  map_traverse f d = Some (map_imap f d).
Proof.
  intros Hall. unfold map_traverse.
  destruct (decide _) as [|Hn]; [reflexivity|].
  exfalso. apply Hn. intros key a Hk. eapply Hall, Hk.
Qed.

Lemma map_traverse_None {A B : Type} (f : string -> A -> option B)
    (d : gmap string A) key a :
  d !! key = Some a -> f key a = None -> map_traverse f d = None.
Proof.
  intros Hk Hf. unfold map_traverse.
  destruct (decide _) as [Hall|]; [|reflexivity].
  destruct (Hall key a Hk) as [b Hb]. simpl in Hb. congruence.
Qed.

Lemma setitem_Some {V : Type} key (value : option V) (d d' : gmap string V) :
  setitem key value d = Some d' ->
  exists v, value = Some v /\ d' = <[key := v]> d.
Proof.
  unfold setitem. destruct value as [v|]; simpl; [|discriminate].
  intros [= <-]. eauto.
Qed.

(** Runs the assignments of a block of [spatial_derivatives]. *)
Ltac run_setitems H :=
  repeat match type of H with
         | context [setitem ?key ?value ?d] =>
             let d' := fresh "d" in
             let E := fresh "E" in
             destruct (setitem key value d) as [d'|] eqn:E;
             [ apply setitem_Some in E as (? & _ & ->);
               cbn [mbind option_bind] in H
             | discriminate H ]
         end.

(** The dictionary [spatial_derivatives] returns holds the keys of the
    requested orders, whatever the class. *)
Lemma spatial_derivatives_keys {T : Type} `{Float T} cls
    (self : TransducerModel.attrs T) source_position source_normal p orders sd
    key :
  TransducerModel.spatial_derivatives cls self source_position source_normal p
    orders = Some sd ->
  is_Some (sd !! key) <-> key ∈ keys_upto orders.
Proof.
  unfold TransducerModel.spatial_derivatives, keys_upto.
  generalize (TransducerModel.spherical_derivatives self source_position p
                orders) as S.
  generalize (TransducerModel.cls_directivity_derivatives cls self
                source_position source_normal p orders) as D.
  intros D S Hsd. cbv zeta in Hsd.
  destruct (0 <? orders)%Z, (1 <? orders)%Z, (2 <? orders)%Z;
    run_setitems Hsd; injection Hsd as <-;
    rewrite lookup_fmap, fmap_is_Some.
  all: split;
    [ intros [v Hv];
      repeat (apply lookup_insert_Some in Hv as [[<- _] | [_ Hv]]; [in_keys|]);
      rewrite lookup_empty in Hv; discriminate
    | intros Hin;
      repeat (apply elem_of_cons in Hin as [-> | Hin]; [has_key|]);
      apply elem_of_nil in Hin; contradiction ].
Qed.


Lemma init_plane_normal_unit (super_init : TransducerModel.attrs R)
    (plane_distance : R) (plane_normal : Vec3 R) (coefficient : Cx R) :
  vdot plane_normal plane_normal <> 0 ->
  let self := ReflectingTransducer.init super_init plane_distance plane_normal
                coefficient in
  vdot (ReflectingTransducer.plane_normal self)
    (ReflectingTransducer.plane_normal self) = 1.
Proof.
  intros Hn self. subst self. unfold ReflectingTransducer.init.
  cbn [ReflectingTransducer.plane_normal].
  destruct plane_normal as [a b c]. ideal_simpl.
  assert (Hpos : 0 < a ^ 2 + b ^ 2 + c ^ 2).
  { assert (Hge : 0 <= a ^ 2 + b ^ 2 + c ^ 2).
    { pose proof (pow2_ge_0 a). pose proof (pow2_ge_0 b).
      pose proof (pow2_ge_0 c). lra. }
    destruct Hge as [Hlt | Heq]; [exact Hlt|].
    exfalso. apply Hn. simpl in Heq. lra. }
  pose proof (sqrt_lt_R0 _ Hpos) as Hs.
  pose proof (sqrt_sqrt (a ^ 2 + b ^ 2 + c ^ 2) (Rlt_le _ _ Hpos)) as Hss.
  set (q := sqrt (a ^ 2 + b ^ 2 + c ^ 2)) in *.
  replace (a / q * (a / q) + b / q * (b / q) + c / q * (c / q))
    with ((a ^ 2 + b ^ 2 + c ^ 2) / (q * q)) by (field; lra).
  rewrite Hss. field. lra.
Qed.

(** Proves [a = b] from [Hn : N = 1] when [a - b] is [c * (N - 1)]. *)
Ltac mod_unit c :=
  lazymatch goal with
  | Hn : ?N = 1 |- ?a = ?b =>
      replace a with (b + c * (N - 1))
        by (repeat match goal with x := _ |- _ => subst x end; ring);
      rewrite Hn; ring
  end.

(** C3. For a wrapped class [ctype], a reflecting transducer whose plane
    normal [n] is a unit vector, a plane distance [d] and a reflection
    coefficient [Rc]: the mirror source is [s' = s - 2 ((s.n) - d) n] and
    [m' = m - 2 (m.n) n]; [greens_function] is the one of the wrapped class
    at [(s, m)] plus [Rc] times the one at [(s', m')]; when the wrapped
    [spatial_derivatives] returns [direct] at [(s, m)] and [reflected] at
    [(s', m')], [spatial_derivatives] returns a dictionary with the keys of
    [direct] whose entries are [direct[key] + Rc * reflected[key]]; and
    [s'], [m'] are the reflections across the plane [x.n = d]: [s'] lies at
    the opposite signed distance, the midpoint of [s] and [s'] lies on the
    plane, reflecting twice gives [s] and [m] back, and [m'] has the
    length of [m] and the opposite normal component. *)
Theorem reflecting_transducer_superposition (ctype : TransducerModel.class R)
    (self : ReflectingTransducer.attrs R) (s m p : Vec3 R) (orders : Z) :
  let n := ReflectingTransducer.plane_normal self in
  let d := ReflectingTransducer.plane_distance self in
  let Rc := ReflectingTransducer.reflection_coefficient self in
  let super := ReflectingTransducer.base self in
  let reflect_point x := vsub x (vscale (2 * (vdot x n - d)) n) in
  let reflect_vector x := vsub x (vscale (2 * vdot x n) n) in
  vdot n n = 1 ->
  ReflectingTransducer.mirror_position self s = reflect_point s /\
  ReflectingTransducer.mirror_normal self m = reflect_vector m /\
  ReflectingTransducer.greens_function ctype self s m p
  = (TransducerModel.greens_function ctype super s m p
     + Rc * TransducerModel.greens_function ctype super (reflect_point s)
              (reflect_vector m) p)%cx /\
  (forall direct reflected,
     TransducerModel.spatial_derivatives ctype super s m p orders
     = Some direct ->
     TransducerModel.spatial_derivatives ctype super (reflect_point s)
       (reflect_vector m) p orders = Some reflected ->
     exists out,
       ReflectingTransducer.spatial_derivatives ctype self s m p orders
       = Some out /\
       forall key,
         (is_Some (out !! key) <-> is_Some (direct !! key)) /\
         out !! key
         = (direct_key ← direct !! key; reflected_key ← reflected !! key;
            Some (direct_key + Rc * reflected_key)%cx)) /\
  vdot (reflect_point s) n - d = - (vdot s n - d) /\
  vdot (vscale (1 / 2) (vadd s (reflect_point s))) n = d /\
  reflect_point (reflect_point s) = s /\
  reflect_vector (reflect_vector m) = m /\
  vdot (reflect_vector m) n = - vdot m n /\
  vdot (reflect_vector m) (reflect_vector m) = vdot m m.
Proof.
  intros n d Rc super reflect_point reflect_vector Hn.
  assert (Hs : ReflectingTransducer.mirror_position self s = reflect_point s).
  { apply Vec3_eq; unfold ReflectingTransducer.mirror_position;
      subst n d reflect_point; ideal_simpl; ring. }
  assert (Hm : ReflectingTransducer.mirror_normal self m = reflect_vector m).
  { apply Vec3_eq; unfold ReflectingTransducer.mirror_normal;
      subst n reflect_vector; ideal_simpl; ring. }
  split; [exact Hs|]. split; [exact Hm|]. split.
  { unfold ReflectingTransducer.greens_function. rewrite Hs, Hm. reflexivity. }
  split.
  { intros direct reflected Hd Hr.
    unfold ReflectingTransducer.spatial_derivatives.
    fold super. rewrite Hs, Hm, Hd, Hr. cbn [mbind option_bind].
    pose proof (fun key => spatial_derivatives_keys ctype super s m p orders
                  direct key Hd) as Kd.
    pose proof (fun key => spatial_derivatives_keys ctype super _ _ p orders
                  reflected key Hr) as Kr.
    assert (Hiff : forall key,
               is_Some (direct !! key) <-> is_Some (reflected !! key)).
    { intros key. rewrite Kd, Kr. reflexivity. }
    eexists. split.
    - apply map_traverse_Some. intros key a Hk.
      destruct (proj1 (Hiff key) ltac:(eauto)) as [b ->]. simpl. eauto.
    - intros key. rewrite map_lookup_imap. specialize (Hiff key).
      split; [|reflexivity].
      destruct (direct !! key) as [a|] eqn:Ea; simpl.
      + destruct (proj1 Hiff ltac:(eauto)) as [b ->]. simpl.
        split; eauto.
      + split; intros [? ?]; discriminate. }
  revert Hn. subst n d reflect_point reflect_vector. cbv beta.
  generalize (ReflectingTransducer.plane_normal self) as n.
  generalize (ReflectingTransducer.plane_distance self) as d.
  intros d [nx ny nz]. destruct s as [sx sy sz], m as [mx my mz].
  ideal_simpl. intros Hn.
  set (N := nx * nx + ny * ny + nz * nz) in *.
  repeat split.
  - replace ((sx - 2 * (sx * nx + sy * ny + sz * nz - d) * nx) * nx
             + (sy - 2 * (sx * nx + sy * ny + sz * nz - d) * ny) * ny
             + (sz - 2 * (sx * nx + sy * ny + sz * nz - d) * nz) * nz)
      with (sx * nx + sy * ny + sz * nz
            - 2 * (sx * nx + sy * ny + sz * nz - d) * N)
      by (unfold N; ring).
    rewrite Hn. ring.
  - replace (1 / 2 * (sx + (sx - 2 * (sx * nx + sy * ny + sz * nz - d) * nx))
             * nx
             + 1 / 2 * (sy + (sy - 2 * (sx * nx + sy * ny + sz * nz - d) * ny))
               * ny
             + 1 / 2 * (sz + (sz - 2 * (sx * nx + sy * ny + sz * nz - d) * nz))
               * nz)
      with (sx * nx + sy * ny + sz * nz
            - (sx * nx + sy * ny + sz * nz - d) * N)
      by (unfold N; field).
    rewrite Hn. ring.
  - set (q := sx * nx + sy * ny + sz * nz - d).
    apply Vec3_eq; ideal_simpl; fold q.
    + mod_unit (4 * q * nx).
    + mod_unit (4 * q * ny).
    + mod_unit (4 * q * nz).
  - set (q := mx * nx + my * ny + mz * nz).
    apply Vec3_eq; ideal_simpl; fold q.
    + mod_unit (4 * q * nx).
    + mod_unit (4 * q * ny).
    + mod_unit (4 * q * nz).
  - mod_unit (- 2 * (mx * nx + my * ny + mz * nz)).
  - mod_unit (4 * (mx * nx + my * ny + mz * nz) ^ 2).
Qed.

Lemma reflecting_transducer_superposition_witness :
  let self := ReflectingTransducer.init (TransducerModel.mk_attrs 1 343 0 6)
                0.1 (mkVec3 0 0 2) (cof 1) in
  let s := mkVec3 0 0 0 in
  ReflectingTransducer.mirror_position self s
  = vsub s (vscale (2 * (vdot s (ReflectingTransducer.plane_normal self)
                         - ReflectingTransducer.plane_distance self))
              (ReflectingTransducer.plane_normal self)).
Proof.
  intros self s.
  refine (proj1 (reflecting_transducer_superposition TransducerModel.cls self s
                   (mkVec3 0 0 1) (mkVec3 1 0 0) 3 _)).
  apply init_plane_normal_unit. ideal_simpl. lra.
Defined.


(** ** The point source *)

(** The weights of every stencil but that of [''] sum to zero, and each
    stencil has as many weights as shifts. *)
Lemma stencil_weights_sum orders key shifts weights :
  TransducerModel.finite_difference_coefficients orders !! key
  = Some (shifts, weights) ->
  key <> "" ->
  length shifts = length weights /\ fsum weights = 0.
Proof.
  unfold TransducerModel.finite_difference_coefficients. intros Hk Hne.
  destruct (0 <? orders)%Z, (1 <? orders)%Z, (2 <? orders)%Z;
    repeat (apply lookup_insert_Some in Hk as [[_ [= <- <-]] | [_ Hk]];
            [split; [reflexivity | cbn; lra] |]);
    apply lookup_singleton_Some in Hk as [<- _]; congruence.
Qed.

(** The finite differences of a constant directivity. *)
Lemma fsum_constant_directivity (shifts : list (Vec3 Z)) (weights : list R)
    (acc : R) :
  length shifts = length weights ->
  foldl Rplus acc (zip_with (fun _ weight => 1 * weight) shifts weights)
  = foldl Rplus acc weights.
Proof.
  revert weights acc. induction shifts as [|s shifts IH];
    intros [|w weights] acc Hlen; simpl in *; try discriminate; [reflexivity|].
  rewrite IH by congruence. f_equal. ring.
Qed.

Lemma point_source_directivity_derivatives (self : TransducerModel.attrs R)
    source_position source_normal p orders key :
  key ∈ keys_upto orders -> key <> "" ->
  TransducerModel.directivity_derivatives TransducerModel.directivity self
    source_position source_normal p orders !! key = Some 0.
Proof.
  intros Hin Hne. unfold TransducerModel.directivity_derivatives.
  rewrite map_lookup_imap.
  destruct (finite_difference_coefficients_has_keys _ _ Hin) as [[s w] Hk].
  rewrite Hk. cbn [mbind option_bind]. f_equal.
  destruct (stencil_weights_sum _ _ _ _ Hk Hne) as [Hlen Hsum].
  unfold fsum, TransducerModel.directivity. ideal_simpl.
  rewrite fsum_constant_directivity by exact Hlen.
  unfold fsum in Hsum. ideal_simpl. rewrite Hsum.
  unfold Rdiv. ring.
Qed.

Ltac take_S HS key :=
  let s := fresh "s" in let Es := fresh "Es" in
  destruct (HS key ltac:(in_keys)) as [s Es].

Ltac rewrite_D HD1 HD0 :=
  rewrite !HD1; rewrite ?HD0 by first [in_keys | intros ?; discriminate].

Ltac point_source_entry :=
  rewrite lookup_fmap; dict_lookup; cbn [fmap option_fmap option_map];
  intros [= <-]; f_equal; apply Cx_eq; ideal_simpl; ring.

Lemma point_source_spatial_derivatives (self : TransducerModel.attrs R)
    source_position source_normal p orders :
  (0 <= orders <= 3)%Z ->
  exists sd,
    TransducerModel.spatial_derivatives TransducerModel.cls self
      source_position source_normal p orders = Some sd /\
    forall key s,
      TransducerModel.spherical_derivatives self source_position p orders
        !! key = Some s ->
      sd !! key = Some (cof (TransducerModel.p0 self) * s)%cx.
Proof.
  intros Hord.
  pose proof (fun key => spherical_derivatives_has_keys self source_position p
                orders key) as HS.
  pose proof (fun key (H : is_Some _) =>
                spherical_derivatives_keys self source_position p orders key H)
    as HK.
  pose proof (directivity_derivatives_0 TransducerModel.directivity self
                source_position source_normal p orders) as HD1.
  pose proof (fun key => point_source_directivity_derivatives self
                source_position source_normal p orders key) as HD0.
  unfold TransducerModel.directivity at 2 in HD1. cbn [lit ideal] in HD1.
  unfold TransducerModel.spatial_derivatives.
  cbn [TransducerModel.cls TransducerModel.cls_directivity_derivatives].
  revert HS HK HD1 HD0.
  generalize (TransducerModel.spherical_derivatives self source_position p
                orders) as S.
  generalize (TransducerModel.directivity_derivatives
                TransducerModel.directivity self source_position source_normal
                p orders) as Dd.
  intros Dd S HS HK HD1 HD0. cbv zeta.
  assert (Hin : forall key s, S !! key = Some s -> key ∈ keys_upto orders)
    by (intros key s Hs; apply HK; eauto).
  clear HK.
  assert (Hcase : orders = 0%Z \/ orders = 1%Z \/ orders = 2%Z \/ orders = 3%Z)
    by lia.
  clear Hord.
  destruct Hcase as [-> | [-> | [-> | ->]]].
  - take_S HS "".
    cbn [Z.ltb Z.compare Pos.compare Pos.compare_cont].
    rewrite_D HD1 HD0. rewrite_entries. py_simpl.
    eexists; split; [reflexivity|].
    intros key v Hs. pose proof (Hin _ _ Hs) as Hk. revert Hs.
    cbn in Hk.
    repeat (apply elem_of_cons in Hk as [-> | Hk];
            [rewrite_entries; point_source_entry|]).
    apply elem_of_nil in Hk. contradiction.
  - take_S HS "". take_S HS "x". take_S HS "y". take_S HS "z".
    cbn [Z.ltb Z.compare Pos.compare Pos.compare_cont].
    rewrite_D HD1 HD0. rewrite_entries. py_simpl.
    eexists; split; [reflexivity|].
    intros key v Hs. pose proof (Hin _ _ Hs) as Hk. revert Hs.
    cbn in Hk.
    repeat (apply elem_of_cons in Hk as [-> | Hk];
            [rewrite_entries; point_source_entry|]).
    apply elem_of_nil in Hk. contradiction.
  - take_S HS "". take_S HS "x". take_S HS "y". take_S HS "z".
    take_S HS "xx". take_S HS "yy". take_S HS "zz".
    take_S HS "xy". take_S HS "xz". take_S HS "yz".
    cbn [Z.ltb Z.compare Pos.compare Pos.compare_cont].
    rewrite_D HD1 HD0. rewrite_entries. py_simpl.
    eexists; split; [reflexivity|].
    intros key v Hs. pose proof (Hin _ _ Hs) as Hk. revert Hs.
    cbn in Hk.
    repeat (apply elem_of_cons in Hk as [-> | Hk];
            [rewrite_entries; point_source_entry|]).
    apply elem_of_nil in Hk. contradiction.
  - take_S HS "". take_S HS "x". take_S HS "y". take_S HS "z".
    take_S HS "xx". take_S HS "yy". take_S HS "zz".
    take_S HS "xy". take_S HS "xz". take_S HS "yz".
    take_S HS "xxx". take_S HS "yyy". take_S HS "zzz".
    take_S HS "xxy". take_S HS "xxz". take_S HS "yyx".
    take_S HS "yyz". take_S HS "zzx". take_S HS "zzy".
    cbn [Z.ltb Z.compare Pos.compare Pos.compare_cont].
    rewrite_D HD1 HD0. rewrite_entries. py_simpl.
    eexists; split; [reflexivity|].
    intros key v Hs. pose proof (Hin _ _ Hs) as Hk. revert Hs.
    cbn in Hk.
    repeat (apply elem_of_cons in Hk as [-> | Hk];
            [rewrite_entries; point_source_entry|]).
    apply elem_of_nil in Hk. contradiction.
Qed.

(** C10. For the point source and [orders] from 0 to 3: [directivity] is 1
    at every source position, source normal and receiver position;
    [directivity_derivatives] holds 1 under [''] and 0 under every other
    key of the requested orders, the weights of each finite-difference
    stencil summing to zero; and [spatial_derivatives] returns, under each
    key of the requested orders, [p0] times the entry of
    [spherical_derivatives]. *)
Theorem point_source_directivity (self : TransducerModel.attrs R)
    (source_position source_normal receiver_position : Vec3 R) (orders : Z) :
  (0 <= orders <= 3)%Z ->
  let dd := TransducerModel.directivity_derivatives TransducerModel.directivity
              self source_position source_normal receiver_position orders in
  let S := TransducerModel.spherical_derivatives self source_position
             receiver_position orders in
  TransducerModel.directivity self source_position source_normal
    receiver_position = 1 /\
  dd !! "" = Some 1 /\
  (forall key, key ∈ keys_upto orders -> key <> "" -> dd !! key = Some 0) /\
  (forall key shifts weights,
     TransducerModel.finite_difference_coefficients orders !! key
     = Some (shifts, weights) ->
     key <> "" -> fsum weights = 0) /\
  exists sd,
    TransducerModel.spatial_derivatives TransducerModel.cls self
      source_position source_normal receiver_position orders = Some sd /\
    (forall key, is_Some (sd !! key) <-> key ∈ keys_upto orders) /\
    (forall key s, S !! key = Some s ->
                   sd !! key = Some (cof (TransducerModel.p0 self) * s)%cx).
Proof.
  intros Hord dd S. split; [reflexivity|]. split; [|split; [|split]].
  - exact (directivity_derivatives_0 TransducerModel.directivity self
             source_position source_normal receiver_position orders).
  - intros key Hin Hne. apply point_source_directivity_derivatives; assumption.
  - intros key shifts weights Hk Hne.
    apply (stencil_weights_sum orders key shifts weights Hk Hne).
  - destruct (point_source_spatial_derivatives self source_position
                source_normal receiver_position orders Hord)
      as (sd & Hsd & Hentries).
    exists sd. split; [exact Hsd|]. split; [|exact Hentries].
    intros key.
    apply (spatial_derivatives_keys TransducerModel.cls self source_position
             source_normal receiver_position orders sd key Hsd).
Qed.

Lemma point_source_directivity_witness :
  TransducerModel.directivity_derivatives TransducerModel.directivity
    (TransducerModel.mk_attrs 1 343 0 6) (mkVec3 0 0 0) (mkVec3 0 0 1)
    (mkVec3 1 0 0) 3 !! "xxy" = Some 0.
Proof.
  refine (proj1 (proj2 (proj2
    (point_source_directivity (TransducerModel.mk_attrs 1 343 0 6)
       (mkVec3 0 0 0) (mkVec3 0 0 1) (mkVec3 1 0 0) 3 _))) "xxy" _ _).
  - lia.
  - in_keys.
  - discriminate.
Defined.

(** ** The cache of [PersistentFieldEvaluator] *)

Section Cache.
Context {Positions Tensor : Type}.
Variable shape : Positions -> list nat.
Variable allclose : Positions -> Positions -> bool.
Variable array_spatial_derivatives : Positions -> Z -> Tensor.

Local Abbreviation evaluator := (TransducerArray.PersistentFieldEvaluator.attrs
                         Positions Tensor).
Local Abbreviation call := (TransducerArray.PersistentFieldEvaluator.spatial_derivatives
                    shape allclose array_spatial_derivatives).
Local Abbreviation reachable := (reachable shape allclose array_spatial_derivatives).

(** The stored tensor comes with the positions and orders it was computed
    for. *)
Lemma reachable_stored (self : evaluator) :
  reachable self ->
  forall stored,
    TransducerArray.PersistentFieldEvaluator._spatial_derivatives self
    = Some stored ->
    exists last,
      TransducerArray.PersistentFieldEvaluator._last_positions self
      = Some last /\
      stored = array_spatial_derivatives last
                 (TransducerArray.PersistentFieldEvaluator._existing_orders
                    self).
Proof.
  induction 1 as [|self positions orders tensor self' calls Hr IH Hcall];
    intros stored Hs.
  - discriminate.
  - unfold TransducerArray.PersistentFieldEvaluator.spatial_derivatives,
      TransducerArray.PersistentFieldEvaluator.cached in Hcall.
    destruct (TransducerArray.PersistentFieldEvaluator._spatial_derivatives
                self) as [t|] eqn:Et.
    + destruct (IH t eq_refl) as (last & El & Ht).
      rewrite El in Hcall.
      destruct (negb _); cbn in Hcall;
        [|destruct (_ && _); cbn in Hcall];
        injection Hcall as <- <- <-; cbn in *;
        first [ injection Hs as <-; eauto
              | rewrite Et in Hs; injection Hs as <-; eauto ].
    + cbn in Hcall. injection Hcall as <- <- <-. cbn in *.
      injection Hs as <-. eauto.
Qed.

(** C4. In every state the evaluator reaches, a call with [positions] and
    [orders] does not raise; when a result is stored for orders at least
    [orders] and for positions of the same shape as, and close to,
    [positions], the call returns the stored tensor, leaves the state as
    it is and does not call [array.spatial_derivatives]; otherwise it
    calls [array.spatial_derivatives(positions, orders)] once, returns
    its result and stores the result, [positions] and [orders]. *)
Theorem persistent_field_evaluator_cache (self : evaluator)
    (positions : Positions) (orders : Z) :
  reachable self ->
  (forall stored,
     cache_hit shape allclose self positions orders stored ->
     call self positions orders = Some (stored, self, [])) /\
  ((forall stored, ~ cache_hit shape allclose self positions orders stored) ->
   let computed := array_spatial_derivatives positions orders in
   call self positions orders
   = Some (computed,
           TransducerArray.PersistentFieldEvaluator.mk_attrs
             (Some positions) (Some computed) orders,
           [(positions, orders)])).
Proof.
  intros Hr. split.
  - intros stored (Hs & Ho & last & Hl & Hshape & Hclose).
    unfold TransducerArray.PersistentFieldEvaluator.spatial_derivatives,
      TransducerArray.PersistentFieldEvaluator.cached.
    rewrite Hs, Hl. apply Z.leb_le in Ho. rewrite Ho. cbn.
    rewrite bool_decide_eq_true_2 by exact Hshape. rewrite Hclose.
    reflexivity.
  - intros Hmiss computed.
    unfold TransducerArray.PersistentFieldEvaluator.spatial_derivatives,
      TransducerArray.PersistentFieldEvaluator.cached.
    destruct (TransducerArray.PersistentFieldEvaluator._spatial_derivatives
                self) as [t|] eqn:Et; [|reflexivity].
    destruct (reachable_stored self Hr t Et) as (last & El & _).
    rewrite El.
    destruct (orders <=? _)%Z eqn:Eo; cbn; [|reflexivity].
    destruct (bool_decide _ && allclose positions last) eqn:Eb; cbn;
      [|reflexivity].
    exfalso. apply (Hmiss t).
    apply andb_true_iff in Eb as [Eshape Eclose].
    apply bool_decide_eq_true in Eshape. apply Z.leb_le in Eo.
    split; [exact Et|]. split; [exact Eo|]. eauto.
Qed.
End Cache.

Lemma persistent_field_evaluator_cache_witness :
  let shape (p : list Z) := [length p] in
  let allclose (p q : list Z) := bool_decide (p = q) in
  let compute (p : list Z) (orders : Z) := (p, orders) in
  TransducerArray.PersistentFieldEvaluator.spatial_derivatives shape allclose
    compute TransducerArray.PersistentFieldEvaluator.init [1; 2; 3]%Z 2
  = Some (([1; 2; 3]%Z, 2%Z),
          TransducerArray.PersistentFieldEvaluator.mk_attrs
            (Some [1; 2; 3]%Z) (Some ([1; 2; 3]%Z, 2%Z)) 2,
          [([1; 2; 3]%Z, 2%Z)]).
Proof.
  intros shape allclose compute.
  refine (proj2 (persistent_field_evaluator_cache shape allclose compute
                   TransducerArray.PersistentFieldEvaluator.init
                   [1; 2; 3]%Z 2 (reachable_init _ _ _)) _).
  intros stored (Hs & _). discriminate Hs.
Defined.

(** ** The complex amplitudes *)

(** [np.abs] and [np.angle] are the polar coordinates. *)
Lemma atan2_polar (x y : R) :
  sqrt (x * x + y * y) * cos (atan2 y x) = x /\
  sqrt (x * x + y * y) * sin (atan2 y x) = y.
Proof.
  set (r := sqrt (x * x + y * y)).
  destruct (Req_dec x 0) as [Hx0 | Hx0].
  - subst x. unfold atan2.
    assert (Hr : r = Rabs y).
    { unfold r. replace (0 * 0 + y * y) with (Rsqr y) by (unfold Rsqr; ring).
      apply sqrt_Rsqr_abs. }
    destruct (Rlt_dec 0 0) as [H|_]; [lra|].
    destruct (Rlt_dec 0 y) as [Hy|Hy].
    + rewrite cos_PI2, sin_PI2, Hr, Rabs_pos_eq by lra. lra.
    + destruct (Rlt_dec y 0) as [Hy'|Hy'].
      * rewrite cos_neg, sin_neg, cos_PI2, sin_PI2, Hr, Rabs_left by lra. lra.
      * assert (y = 0) by lra. subst y. rewrite Hr, Rabs_R0. lra.
  - set (t := y / x).
    set (q := sqrt (1 + Rsqr t)).
    assert (Hq1 : 0 < 1 + Rsqr t) by (pose proof (Rle_0_sqr t); lra).
    assert (Hq : 0 < q) by (apply sqrt_lt_R0; exact Hq1).
    assert (Hqq : q * q = 1 + Rsqr t) by (apply sqrt_sqrt; lra).
    assert (Hr : r = Rabs x * q).
    { unfold r. apply sqrt_lem_1.
      - nra.
      - pose proof (Rabs_pos x). nra.
      - replace (Rabs x * q * (Rabs x * q)) with (Rsqr (Rabs x) * (q * q))
          by (unfold Rsqr; ring).
        rewrite <- Rsqr_abs, Hqq. unfold t, Rsqr. field. exact Hx0. }
    assert (Hcos : cos (atan t) = 1 / q) by apply cos_atan.
    assert (Hsin : sin (atan t) = t / q) by apply sin_atan.
    unfold atan2. fold t.
    destruct (Rlt_dec 0 x) as [Hx|Hx].
    + rewrite Hcos, Hsin, Hr, Rabs_pos_eq by lra.
      split; unfold t; field; lra.
    + destruct (Rlt_dec x 0) as [Hx'|Hx']; [|lra].
      destruct (Rle_dec 0 y) as [Hy|Hy].
      * rewrite neg_cos, neg_sin, Hcos, Hsin, Hr, Rabs_left by lra.
        split; unfold t; field; lra.
      * rewrite cos_minus, sin_minus, cos_PI, sin_PI, Hcos, Hsin, Hr,
          Rabs_left by lra.
        split; unfold t; field; lra.
Qed.

Lemma polar_abs_angle (z : Cx R) :
  TransducerArray.polar (cabs z) (cangle z) = z.
Proof.
  unfold TransducerArray.polar. rewrite phase_eq.
  destruct z as [x y]. destruct (atan2_polar x y) as [Hc Hs].
  apply Cx_eq; ideal_simpl.
  - lra.
  - lra.
Qed.

Lemma tan_shift_PI (x : R) : cos x <> 0 -> tan (x + PI) = tan x /\ tan (x - PI) = tan x.
Proof.
  intros Hc. unfold tan.
  rewrite neg_sin, neg_cos, sin_minus, cos_minus, cos_PI, sin_PI.
  split; field; lra.
Qed.

(** The angle of [a * e^{i phi}] is [phi], for [a > 0] and [phi] in
    [(-PI, PI]]. *)
Lemma atan2_of_polar (a phi : R) :
  0 < a -> - PI < phi <= PI -> atan2 (a * sin phi) (a * cos phi) = phi.
Proof.
  intros Ha [Hlo Hhi]. pose proof PI_RGT_0 as Hpi. unfold atan2.
  destruct (Rlt_dec (- (PI / 2)) phi) as [H1|H1].
  - destruct (Rlt_dec phi (PI / 2)) as [H2|H2].
    + (* -PI/2 < phi < PI/2 *)
      assert (Hc : 0 < cos phi) by (apply cos_gt_0; lra).
      destruct (Rlt_dec 0 (a * cos phi)) as [_|Hn]; [|exfalso; apply Hn; nra].
      replace (a * sin phi / (a * cos phi)) with (tan phi)
        by (unfold tan; field; lra).
      apply atan_tan. lra.
    + destruct (Req_dec phi (PI / 2)) as [-> | Hne].
      * rewrite cos_PI2, sin_PI2.
        destruct (Rlt_dec 0 (a * 0)) as [H|_]; [lra|].
        destruct (Rlt_dec (a * 0) 0) as [H|_]; [lra|].
        destruct (Rlt_dec 0 (a * 1)) as [_|H]; [reflexivity|lra].
      * (* PI/2 < phi <= PI *)
        assert (Hc : cos phi < 0) by (apply cos_lt_0; lra).
        assert (Hs : 0 <= sin phi) by (apply sin_ge_0; lra).
        destruct (Rlt_dec 0 (a * cos phi)) as [H|_]; [nra|].
        destruct (Rlt_dec (a * cos phi) 0) as [_|H]; [|exfalso; apply H; nra].
        destruct (Rle_dec 0 (a * sin phi)) as [_|H]; [|exfalso; apply H; nra].
        replace (a * sin phi / (a * cos phi)) with (tan (phi - PI)).
        -- rewrite atan_tan by lra. ring.
        -- rewrite (proj2 (tan_shift_PI phi ltac:(lra))).
           unfold tan; field; lra.
  - destruct (Req_dec phi (- (PI / 2))) as [-> | Hne].
    + rewrite cos_neg, sin_neg, cos_PI2, sin_PI2.
      destruct (Rlt_dec 0 (a * 0)) as [H|_]; [lra|].
      destruct (Rlt_dec (a * 0) 0) as [H|_]; [lra|].
      destruct (Rlt_dec 0 (a * - (1))) as [H|_]; [lra|].
      destruct (Rlt_dec (a * - (1)) 0) as [_|H]; [reflexivity|lra].
    + (* -PI < phi < -PI/2 *)
      assert (Hc : cos phi < 0).
      { rewrite <- cos_neg. apply cos_lt_0; lra. }
      assert (Hs : sin phi < 0) by (apply sin_lt_0_var; lra).
      destruct (Rlt_dec 0 (a * cos phi)) as [H|_]; [nra|].
      destruct (Rlt_dec (a * cos phi) 0) as [_|H]; [|exfalso; apply H; nra].
      destruct (Rle_dec 0 (a * sin phi)) as [H|_]; [nra|].
      replace (a * sin phi / (a * cos phi)) with (tan (phi + PI)).
      * rewrite atan_tan by lra. ring.
      * rewrite (proj1 (tan_shift_PI phi ltac:(lra))).
        unfold tan; field; lra.
Qed.

Lemma abs_of_polar (a phi : R) :
  0 <= a -> cabs (TransducerArray.polar a phi) = a.
Proof.
  intros Ha. unfold TransducerArray.polar. rewrite phase_eq. ideal_simpl.
  replace ((a * cos phi - 0 * sin phi) * (a * cos phi - 0 * sin phi)
           + (a * sin phi + 0 * cos phi) * (a * sin phi + 0 * cos phi))
    with (a * a * (Rsqr (sin phi) + Rsqr (cos phi))) by (unfold Rsqr; ring).
  rewrite sin2_cos2, Rmult_1_r. apply sqrt_square. exact Ha.
Qed.

Lemma angle_of_polar (a phi : R) :
  0 < a -> - PI < phi <= PI -> cangle (TransducerArray.polar a phi) = phi.
Proof.
  intros Ha Hphi. unfold TransducerArray.polar. rewrite phase_eq. ideal_simpl.
  replace (a * sin phi + 0 * cos phi) with (a * sin phi) by ring.
  replace (a * cos phi - 0 * sin phi) with (a * cos phi) by ring.
  apply atan2_of_polar; assumption.
Qed.

Lemma broadcast2_same_length {A B C : Type} (f : A -> B -> C) a b :
  length a = length b -> broadcast2 f a b = Some (zip_with f a b).
Proof. intros H. unfold broadcast2. rewrite decide_True by exact H. reflexivity. Qed.

(** C8. Setting [complex_amplitudes] to any complex array and reading it
    back gives that array, in particular for [a * e^{i phi}] with [a >= 0]
    and [phi] in [(-PI, PI]]; the attributes hold the amplitudes and the
    phases only, and the getter computes [amplitudes * exp(1j * phases)]
    from them: after the phases alone are replaced, it returns the stored
    amplitudes with the new phases. The setter stores the amplitudes [a]
    themselves, and the phases [phi] themselves where the amplitudes are
    positive. The earlier [TransducerArray] of models.py has the same getter
    and setter. *)
Theorem complex_amplitudes_round_trip (self : TransducerArray.attrs R)
    (value : list (Cx R)) (amplitudes phases : list R) :
  length amplitudes = length phases ->
  Forall (fun a => 0 <= a) amplitudes ->
  Forall (fun phi => - PI < phi <= PI) phases ->
  let self' := TransducerArray.set_complex_amplitudes value self in
  let polars := zip_with TransducerArray.polar amplitudes phases in
  TransducerArray.complex_amplitudes self' = Some value /\
  TransducerArray.complex_amplitudes
    (TransducerArray.set_complex_amplitudes polars self) = Some polars /\
  TransducerArray.complex_amplitudes self
  = broadcast2 TransducerArray.polar (TransducerArray.amplitudes self)
      (TransducerArray.phases self) /\
  (length phases = length value ->
   TransducerArray.complex_amplitudes (TransducerArray.set_phases phases self')
   = Some (zip_with TransducerArray.polar (cabs <$> value) phases)) /\
  TransducerArray.amplitudes
    (TransducerArray.set_complex_amplitudes polars self) = amplitudes /\
  (Forall (fun a => 0 < a) amplitudes ->
   TransducerArray.phases
     (TransducerArray.set_complex_amplitudes polars self) = phases) /\
  LegacyTransducerArray.complex_amplitudes
    (LegacyTransducerArray.set_complex_amplitudes value self) = Some value.
Proof.
  intros Hlen Hamp Hphase self' polars.
  assert (Hround : forall v : list (Cx R),
             broadcast2 TransducerArray.polar (cabs <$> v) (cangle <$> v)
             = Some v).
  { intros v. rewrite broadcast2_same_length by (rewrite !length_fmap; reflexivity).
    f_equal. induction v as [|z v IH]; [reflexivity|].
    cbn [fmap list_fmap zip_with]. rewrite polar_abs_angle.
    f_equal. exact IH. }
  split; [apply Hround|]. split; [apply Hround|]. split; [reflexivity|].
  split; [|split; [|split; [|apply Hround]]].
  - intros Hlen'. unfold TransducerArray.complex_amplitudes. cbn.
    apply broadcast2_same_length. rewrite length_fmap. congruence.
  - cbn. subst polars. clear Hphase. revert phases Hlen.
    induction Hamp as [|a amplitudes Ha Hamp IH]; intros [|phi phases] Hlen;
      try discriminate; [reflexivity|].
    cbn [zip_with fmap list_fmap]. rewrite abs_of_polar by exact Ha.
    f_equal. apply IH. simpl in Hlen. congruence.
  - intros Hpos. cbn. subst polars. clear Hamp. revert phases Hlen Hphase.
    induction Hpos as [|a amplitudes Ha Hpos IH]; intros [|phi phases] Hlen Hphase;
      try discriminate; [reflexivity|].
    cbn [zip_with fmap list_fmap]. inversion Hphase; subst.
    rewrite angle_of_polar by assumption.
    f_equal. apply IH; [simpl in Hlen; congruence | assumption].
Qed.

Lemma complex_amplitudes_round_trip_witness :
  let self := TransducerArray.init [mkVec3 0 0 0; mkVec3 1 0 0]
                [mkVec3 0 0 1; mkVec3 0 0 1] in
  let value := [mkCx 0 1; mkCx (-2) 0] in
  TransducerArray.complex_amplitudes
    (TransducerArray.set_complex_amplitudes value self) = Some value.
Proof.
  intros self value.
  refine (proj1 (complex_amplitudes_round_trip self value [1; 2] [0; PI] _ _ _)).
  - reflexivity.
  - repeat constructor; lra.
  - pose proof PI_RGT_0. repeat constructor; lra.
Defined.

(** ** [TransducerArray.spatial_derivatives] *)

Section ArrayDerivatives.
Context {E Recv : Type}.
Variable model_spatial_derivatives : Vec3 R -> Vec3 R -> Recv -> Z -> list E.
Variable num_spatial_derivatives : Z -> option nat.
Variable empty : E.

Local Abbreviation array_derivatives :=
  (TransducerArray.spatial_derivatives model_spatial_derivatives
     num_spatial_derivatives empty).

Lemma assign_column_lookup (derivatives : list (list E)) idx column m :
  length column = length derivatives ->
  exists derivatives',
    TransducerArray.assign_column derivatives idx column = Some derivatives' /\
    length derivatives' = length derivatives /\
    (derivatives' !! m
     = (row ← derivatives !! m; value ← column !! m;
        Some (<[idx := value]> row))).
Proof.
  intros Hlen. unfold TransducerArray.assign_column.
  rewrite decide_True by exact Hlen. eexists. split; [reflexivity|].
  split.
  - rewrite length_zip_with. lia.
  - rewrite lookup_zip_with. reflexivity.
Qed.

(** The state of the loop after the transducers below [j]. *)
Lemma array_derivatives_loop (self : TransducerArray.attrs R)
    (receiver_position : Recv) (orders : Z) (M j : nat) :
  let N := TransducerArray.num_transducers self in
  length (TransducerArray.transducer_positions self) = N ->
  length (TransducerArray.transducer_normals self) = N ->
  (forall position normal,
     length (model_spatial_derivatives position normal receiver_position
               orders) = M) ->
  (j <= N)%nat ->
  exists derivatives,
    foldl (fun derivatives idx =>
             derivatives ← derivatives;
             position ← TransducerArray.transducer_positions self !! idx;
             normal ← TransducerArray.transducer_normals self !! idx;
             TransducerArray.assign_column derivatives idx
               (model_spatial_derivatives position normal receiver_position
                  orders))
      (Some (replicate M (replicate N empty))) (seq 0 j)
    = Some derivatives /\
    length derivatives = M /\
    forall m row, derivatives !! m = Some row ->
      length row = N /\
      forall idx position normal,
        (idx < j)%nat ->
        TransducerArray.transducer_positions self !! idx = Some position ->
        TransducerArray.transducer_normals self !! idx = Some normal ->
        row !! idx
        = model_spatial_derivatives position normal receiver_position orders
            !! m.
Proof.
  intros N Hpos Hnrm Hmodel. induction j as [|j IH]; intros Hj.
  - eexists. split; [reflexivity|]. split; [apply length_replicate|].
    intros m row Hrow. apply lookup_replicate in Hrow as [-> _].
    split; [apply length_replicate|]. intros; lia.
  - destruct IH as (d & Hd & Hlen & Hrows); [lia|].
    rewrite seq_S, foldl_app, Hd. cbn [foldl mbind option_bind Nat.add].
    destruct (lookup_lt_is_Some_2 (TransducerArray.transducer_positions self)
                j ltac:(lia)) as [pj Hpj].
    destruct (lookup_lt_is_Some_2 (TransducerArray.transducer_normals self)
                j ltac:(lia)) as [nj Hnj].
    rewrite Hpj, Hnj. cbn [mbind option_bind].
    pose proof (fun m => assign_column_lookup d j
                  (model_spatial_derivatives pj nj receiver_position orders)
                  m ltac:(rewrite Hmodel; lia)) as Hassign.
    destruct (Hassign 0%nat) as (d' & Hd' & Hlen' & _).
    exists d'. split; [exact Hd'|]. split; [lia|].
    intros m row' Hrow'.
    destruct (Hassign m) as (d'' & Hd'' & _ & Hm).
    rewrite Hd' in Hd''. injection Hd'' as <-. rewrite Hrow' in Hm.
    destruct (d !! m) as [row|] eqn:Erow; [|discriminate].
    destruct (Hrows m row Erow) as [Hrl Hentries].
    cbn [mbind option_bind] in Hm.
    destruct (model_spatial_derivatives pj nj receiver_position orders !! m)
      as [value|] eqn:Evalue; [|discriminate].
    cbn [mbind option_bind] in Hm. injection Hm as ->.
    split; [rewrite length_insert; exact Hrl|].
    intros idx position normal Hidx Hp Hn.
    destruct (decide (idx = j)) as [-> | Hne].
    + rewrite list_lookup_insert_eq by lia.
      rewrite Hpj in Hp. rewrite Hnj in Hn.
      injection Hp as <-. injection Hn as <-. symmetry. exact Evalue.
    + rewrite list_lookup_insert_ne by congruence.
      apply Hentries; [lia | assumption | assumption].
Qed.
End ArrayDerivatives.

Section LegacyArrayDerivatives.
Variable model_spatial_derivatives :
  Vec3 R -> Vec3 R -> Vec3 R -> Z -> option (gmap string (Cx R)).
Variable empty : Cx R.

Local Abbreviation td :=
  (LegacyTransducerArray.transducer_derivatives model_spatial_derivatives).

Lemma transducer_derivatives_points position normal ps orders key :
  (forall p, exists d,
      model_spatial_derivatives position normal p orders = Some d /\
      is_Some (d !! key)) ->
  exists vs,
    td position normal (LegacyTransducerArray.Points ps) orders key
    = Some (LegacyTransducerArray.Vector vs) /\
    length vs = length ps /\
    forall i p, ps !! i = Some p ->
      vs !! i = model_spatial_derivatives position normal p orders
                ≫= (.!! key).
Proof.
  intros Hmodel.
  unfold LegacyTransducerArray.transducer_derivatives.
  induction ps as [|p ps IH].
  - exists []. split; [reflexivity|]. split; [reflexivity|].
    intros i p Hp. discriminate.
  - destruct IH as (vs & Hvs & Hlen & Hentries).
    destruct (Hmodel p) as (d & Hd & [v Hv]).
    destruct (mapM _ ps) as [ds|] eqn:Eds; [|discriminate].
    cbn [mbind option_bind] in Hvs.
    destruct (mapM _ ds) as [vs'|] eqn:Evs; [|discriminate].
    injection Hvs as <-.
    exists (v :: vs'). simpl. rewrite Hd. simpl. rewrite Eds. simpl.
    rewrite Hv. simpl. rewrite Evs. simpl.
    split; [reflexivity|]. split; [congruence|].
    intros [|i] q Hq; simpl in Hq.
    + injection Hq as <-. rewrite Hd. simpl. symmetry. exact Hv.
    + apply Hentries. exact Hq.
Qed.
End LegacyArrayDerivatives.

Lemma lookup_constant_map {V : Type} (keys : list string) (v : V) key :
  (list_to_map ((fun k => (k, v)) <$> keys) : gmap string V) !! key
  = if decide (key ∈ keys) then Some v else None.
Proof.
  induction keys as [|k keys IH].
  - rewrite fmap_nil. cbn [list_to_map foldr]. rewrite lookup_empty.
    destruct (decide (key ∈ [])) as [Hin | _]; [|reflexivity].
    exfalso. revert Hin. apply not_elem_of_nil.
  - rewrite fmap_cons. cbn [list_to_map foldr uncurry fst snd].
    destruct (decide (key = k)) as [-> | Hne].
    + rewrite lookup_insert_eq.
      destruct (decide (k ∈ k :: keys)) as [_ | Hin]; [reflexivity|].
      exfalso. apply Hin, elem_of_cons; left; reflexivity.
    + rewrite lookup_insert_ne by congruence.
      change (foldr (fun p => <[p.1:=p.2]>) ∅ ((fun k0 => (k0, v)) <$> keys))
        with (list_to_map ((fun k0 => (k0, v)) <$> keys) : gmap string V).
      rewrite IH.
      destruct (decide (key ∈ keys)) as [Hin | Hin];
        destruct (decide (key ∈ k :: keys)) as [Hin' | Hin']; try reflexivity.
      * exfalso. apply Hin', elem_of_cons; right; exact Hin.
      * exfalso. apply elem_of_cons in Hin' as [? | ?]; tauto.
Qed.

Section LegacyLoop.
Variable model_spatial_derivatives :
  Vec3 R -> Vec3 R -> Vec3 R -> Z -> option (gmap string (Cx R)).
Variable empty : Cx R.

Local Abbreviation td :=
  (LegacyTransducerArray.transducer_derivatives model_spatial_derivatives).
Local Abbreviation ok := (transducer_last model_spatial_derivatives).

(** The state of the loop after the transducers below [j]. *)
Lemma legacy_derivatives_loop (self : TransducerArray.attrs R)
    (foc : LegacyTransducerArray.focus R) (orders : Z) (j : nat) :
  let N := TransducerArray.num_transducers self in
  length (TransducerArray.transducer_positions self) = N ->
  length (TransducerArray.transducer_normals self) = N ->
  (forall position normal p, exists d,
      model_spatial_derivatives position normal p orders = Some d /\
      forall key, key ∈ keys_upto orders -> is_Some (d !! key)) ->
  (j <= N)%nat ->
  exists derivatives,
    foldl (fun derivatives idx =>
             derivatives ← derivatives;
             position ← TransducerArray.transducer_positions self !! idx;
             normal ← TransducerArray.transducer_normals self !! idx;
             map_traverse (fun key a =>
                 value ← td position normal foc orders key;
                 LegacyTransducerArray.assign_last a idx value)
               derivatives)
      (Some (list_to_map
               ((fun key => (key, LegacyTransducerArray.np_empty empty foc N))
                <$> keys_upto orders)))
      (seq 0 j)
    = Some derivatives /\
    (forall key, is_Some (derivatives !! key) <-> key ∈ keys_upto orders) /\
    (forall key a, derivatives !! key = Some a ->
                   ok self foc orders j key a).
Proof.
  intros N Hpos Hnrm Hmodel. induction j as [|j IH]; intros Hj.
  - eexists. split; [reflexivity|]. split.
    + intros key. rewrite lookup_constant_map.
      destruct (decide (key ∈ keys_upto orders)) as [Hin | Hin].
      * split; [intros _; exact Hin | intros _; eauto].
      * split; [intros [? Hx]; discriminate | intros Hx; contradiction].
    + intros key a. rewrite lookup_constant_map.
      destruct (decide (key ∈ keys_upto orders)); [|discriminate].
      intros [= <-].
      unfold transducer_last. destruct foc as [p | ps]; simpl.
      * split; [apply length_replicate|]. intros; lia.
      * split; [apply length_replicate|].
        intros i row p Hrow _. apply lookup_replicate in Hrow as [-> _].
        split; [apply length_replicate|]. intros; lia.
  - destruct IH as (d & Hd & Hkeys & Hok); [lia|].
    rewrite seq_S, foldl_app, Hd. cbn [foldl mbind option_bind Nat.add].
    destruct (lookup_lt_is_Some_2 (TransducerArray.transducer_positions self)
                j ltac:(lia)) as [pj Hpj].
    destruct (lookup_lt_is_Some_2 (TransducerArray.transducer_normals self)
                j ltac:(lia)) as [nj Hnj].
    rewrite Hpj, Hnj. cbn [mbind option_bind].
    (* the body of the inner loop, for one key *)
    assert (Hstep : forall key a, d !! key = Some a ->
              exists a',
                (value ← td pj nj foc orders key;
                 LegacyTransducerArray.assign_last a j value) = Some a' /\
                ok self foc orders (S j) key a').
    { intros key a Ha. specialize (Hok key a Ha).
      assert (Hin : key ∈ keys_upto orders) by (apply Hkeys; eauto).
      unfold transducer_last in Hok |- *.
      destruct foc as [p | ps], a as [cells | rows]; try contradiction.
      - destruct (Hmodel pj nj p) as (dp & Hdp & Hdk).
        destruct (Hdk key Hin) as [v Hv].
        destruct Hok as [Hlen Hentries].
        exists (LegacyTransducerArray.Arr1 (<[j := v]> cells)).
        simpl. rewrite Hdp. simpl. rewrite Hv. simpl.
        split; [reflexivity|].
        split; [rewrite length_insert; exact Hlen|].
        intros idx position normal Hidx Hp Hn.
        destruct (decide (idx = j)) as [-> | Hne].
        + rewrite list_lookup_insert_eq by (fold N in Hlen; lia).
          rewrite Hpj in Hp. rewrite Hnj in Hn.
          injection Hp as <-. injection Hn as <-.
          rewrite Hdp. simpl. symmetry. exact Hv.
        + rewrite list_lookup_insert_ne by congruence.
          apply Hentries; [lia | assumption | assumption].
      - destruct Hok as [Hlen Hrows].
        destruct (transducer_derivatives_points model_spatial_derivatives
                    pj nj ps orders key) as (vs & Hvs & Hvlen & Hventries).
        { intros p. destruct (Hmodel pj nj p) as (dp & Hdp & Hdk).
          exists dp. split; [exact Hdp | apply Hdk, Hin]. }
        rewrite Hvs. cbn [mbind option_bind].
        unfold LegacyTransducerArray.assign_last.
        rewrite decide_True by congruence.
        eexists. split; [reflexivity|].
        split; [rewrite length_zip_with; lia|].
        intros i row' p Hrow' Hp.
        rewrite lookup_zip_with in Hrow'.
        destruct (rows !! i) as [row|] eqn:Erow; [|discriminate].
        cbn [mbind option_bind] in Hrow'.
        destruct (vs !! i) as [v|] eqn:Ev; [|discriminate].
        cbn [mbind option_bind] in Hrow'. injection Hrow' as <-.
        destruct (Hrows i row p Erow Hp) as [Hrl Hentries].
        split; [rewrite length_insert; exact Hrl|].
        intros idx position normal Hidx Hpp Hnn.
        destruct (decide (idx = j)) as [-> | Hne].
        + rewrite list_lookup_insert_eq by (fold N in Hrl; lia).
          rewrite Hpj in Hpp. rewrite Hnj in Hnn.
          injection Hpp as <-. injection Hnn as <-.
          rewrite <- (Hventries i p Hp). symmetry. exact Ev.
        + rewrite list_lookup_insert_ne by congruence.
          apply Hentries; [lia | assumption | assumption]. }
    eexists. split.
    { apply map_traverse_Some. intros key a Ha.
      destruct (Hstep key a Ha) as (a' & -> & _). eauto. }
    split.
    + intros key. rewrite map_lookup_imap. rewrite <- Hkeys.
      destruct (d !! key) as [a|] eqn:Ea; simpl.
      * destruct (Hstep key a Ea) as (a' & -> & _). split; eauto.
      * split; intros [? ?]; discriminate.
    + intros key a'. rewrite map_lookup_imap.
      destruct (d !! key) as [a|] eqn:Ea; simpl; [|discriminate].
      destruct (Hstep key a Ea) as (a'' & -> & Hok'').
      intros [= <-]. exact Hok''.
Qed.
End LegacyLoop.

Lemma array_spatial_derivatives_stacked {E Recv : Type}
    (model_spatial_derivatives : Vec3 R -> Vec3 R -> Recv -> Z -> list E)
    num_spatial_derivatives (empty : E) (self : TransducerArray.attrs R)
    (receiver_position : Recv) (orders : Z) (M : nat) :
  let N := TransducerArray.num_transducers self in
  length (TransducerArray.transducer_positions self) = N ->
  length (TransducerArray.transducer_normals self) = N ->
  num_spatial_derivatives orders = Some M ->
  (forall position normal,
     length (model_spatial_derivatives position normal receiver_position
               orders) = M) ->
  exists derivatives,
    TransducerArray.spatial_derivatives model_spatial_derivatives
      num_spatial_derivatives empty self receiver_position orders
    = Some derivatives /\
    transducer_second model_spatial_derivatives self receiver_position orders
      M derivatives.
Proof.
  intros N Hpos Hnrm HM Hmodel.
  destruct (array_derivatives_loop model_spatial_derivatives empty self
              receiver_position orders M N Hpos Hnrm Hmodel (le_n N))
    as (derivatives & Hrun & Hlen & Hrows).
  exists derivatives. split.
  - unfold TransducerArray.spatial_derivatives. rewrite HM. exact Hrun.
  - split; [exact Hlen|]. intros m row Hrow.
    destruct (Hrows m row Hrow) as [Hrl Hentries].
    split; [exact Hrl|]. intros idx position normal Hp Hn.
    apply Hentries; [|exact Hp|exact Hn].
    apply lookup_lt_Some in Hp. fold N. lia.
Qed.

Lemma legacy_spatial_derivatives_last
    (model_spatial_derivatives :
       Vec3 R -> Vec3 R -> Vec3 R -> Z -> option (gmap string (Cx R)))
    (empty : Cx R) (self : TransducerArray.attrs R)
    (foc : LegacyTransducerArray.focus R) (orders : Z) :
  let N := TransducerArray.num_transducers self in
  length (TransducerArray.transducer_positions self) = N ->
  length (TransducerArray.transducer_normals self) = N ->
  (forall position normal p, exists d,
      model_spatial_derivatives position normal p orders = Some d /\
      forall key, key ∈ keys_upto orders -> is_Some (d !! key)) ->
  exists derivatives,
    LegacyTransducerArray.spatial_derivatives model_spatial_derivatives empty
      self foc orders = Some derivatives /\
    (forall key, is_Some (derivatives !! key) <-> key ∈ keys_upto orders) /\
    (forall key a, derivatives !! key = Some a ->
       transducer_last model_spatial_derivatives self foc orders N key a).
Proof.
  intros N Hpos Hnrm Hmodel.
  exact (legacy_derivatives_loop model_spatial_derivatives empty self foc
           orders N Hpos Hnrm Hmodel (le_n N)).
Qed.

(** C6, as amended. [TransducerArray.spatial_derivatives] reads the positions
    and normals of the array only, so other amplitudes and phases give the
    same result. In arrays.py the result holds, for each derivative and then
    for each transducer, the array the transducer model returns. In the
    earlier version of models.py the result is a dictionary that holds under
    each derivative key an array with the transducer index last: one value
    per transducer for one receiver point, and for a list of points one row
    per point with one value per transducer. *)
Theorem array_spatial_derivatives_layout {E Recv : Type}
    (transducer_model : Vec3 R -> Vec3 R -> Recv -> Z -> list E)
    (num_spatial_derivatives : Z -> option nat) (empty : E)
    (legacy_model :
       Vec3 R -> Vec3 R -> Vec3 R -> Z -> option (gmap string (Cx R)))
    (legacy_empty : Cx R) (self : TransducerArray.attrs R)
    (receiver_position : Recv) (foc : LegacyTransducerArray.focus R)
    (orders : Z) (M : nat) :
  let N := TransducerArray.num_transducers self in
  length (TransducerArray.transducer_positions self) = N ->
  length (TransducerArray.transducer_normals self) = N ->
  num_spatial_derivatives orders = Some M ->
  (forall position normal,
     length (transducer_model position normal receiver_position orders) = M) ->
  (forall position normal p, exists d,
      legacy_model position normal p orders = Some d /\
      forall key, key ∈ keys_upto orders -> is_Some (d !! key)) ->
  (exists derivatives,
     transducer_second transducer_model self receiver_position orders M
       derivatives /\
     forall amplitudes phases,
       TransducerArray.spatial_derivatives transducer_model
         num_spatial_derivatives empty (reweighted amplitudes phases self)
         receiver_position orders = Some derivatives) /\
  (exists derivatives,
     (forall key, is_Some (derivatives !! key) <-> key ∈ keys_upto orders) /\
     (forall key a, derivatives !! key = Some a ->
        transducer_last legacy_model self foc orders N key a) /\
     forall amplitudes phases,
       LegacyTransducerArray.spatial_derivatives legacy_model legacy_empty
         (reweighted amplitudes phases self) foc orders = Some derivatives).
Proof.
  intros N Hpos Hnrm HM Hmodel Hlegacy. split.
  - destruct (array_spatial_derivatives_stacked transducer_model
                num_spatial_derivatives empty self receiver_position orders M
                Hpos Hnrm HM Hmodel) as (derivatives & Hrun & Hlayout).
    exists derivatives. split; [exact Hlayout|].
    intros amplitudes phases. exact Hrun.
  - destruct (legacy_spatial_derivatives_last legacy_model legacy_empty self
                foc orders Hpos Hnrm Hlegacy)
      as (derivatives & Hrun & Hkeys & Hlayout).
    exists derivatives. split; [exact Hkeys|]. split; [exact Hlayout|].
    intros amplitudes phases. exact Hrun.
Qed.

Lemma point_source_returns_keys (self : TransducerModel.attrs R) orders :
  (0 <= orders <= 3)%Z ->
  forall position normal p, exists d,
    TransducerModel.spatial_derivatives TransducerModel.cls self position
      normal p orders = Some d /\
    forall key, key ∈ keys_upto orders -> is_Some (d !! key).
Proof.
  intros Hord position normal p.
  destruct (point_source_spatial_derivatives self position normal p orders
              Hord) as (d & Hd & _).
  exists d. split; [exact Hd|]. intros key Hin.
  apply (spatial_derivatives_keys TransducerModel.cls self position normal p
           orders d key Hd), Hin.
Qed.

Lemma array_spatial_derivatives_layout_witness :
  (exists derivatives,
     transducer_second
       (fun position normal p (_ : Z) =>
          [TransducerModel.greens_function TransducerModel.cls point_source
             position normal p])
       two_transducers (mkVec3 0 0 1) 0 1 derivatives /\
     forall amplitudes phases,
       TransducerArray.spatial_derivatives
         (fun position normal p (_ : Z) =>
            [TransducerModel.greens_function TransducerModel.cls point_source
               position normal p])
         (fun orders => Some (length (keys_upto orders))) (cof 0)
         (reweighted amplitudes phases two_transducers) (mkVec3 0 0 1) 0
       = Some derivatives) /\
  (exists derivatives,
     (forall key, is_Some (derivatives !! key) <-> key ∈ keys_upto 0) /\
     (forall key a, derivatives !! key = Some a ->
        transducer_last
          (TransducerModel.spatial_derivatives TransducerModel.cls
             point_source)
          two_transducers (LegacyTransducerArray.Points three_points) 0 2 key
          a) /\
     forall amplitudes phases,
       LegacyTransducerArray.spatial_derivatives
         (TransducerModel.spatial_derivatives TransducerModel.cls
            point_source)
         (cof 0) (reweighted amplitudes phases two_transducers)
         (LegacyTransducerArray.Points three_points) 0 = Some derivatives).
Proof.
  apply (array_spatial_derivatives_layout
           (fun position normal p (_ : Z) =>
              [TransducerModel.greens_function TransducerModel.cls
                 point_source position normal p])
           (fun orders => Some (length (keys_upto orders))) (cof 0)
           (TransducerModel.spatial_derivatives TransducerModel.cls
              point_source)
           (cof 0) two_transducers (mkVec3 0 0 1)
           (LegacyTransducerArray.Points three_points) 0 1).
  - reflexivity.
  - reflexivity.
  - reflexivity.
  - intros position normal. reflexivity.
  - apply point_source_returns_keys. lia.
Defined.

(** For two transducers and three receiver points the earlier
    [TransducerArray.spatial_derivatives] returns under the key of the
    pressure an array of shape [(3, 2)]: the transducer index is the last
    one, not the one before the receiver dimensions. *)
Lemma legacy_spatial_derivatives_transducer_axis :
  exists derivatives,
    LegacyTransducerArray.spatial_derivatives
      (TransducerModel.spatial_derivatives TransducerModel.cls point_source)
      (cof 0) two_transducers (LegacyTransducerArray.Points three_points) 0
    = Some derivatives /\
    LegacyTransducerArray.np_shape <$> derivatives !! ""
    = Some [3%nat; 2%nat] /\
    ~ transducer_first derivatives 2 [3%nat].
Proof.
  destruct (legacy_spatial_derivatives_last
              (TransducerModel.spatial_derivatives TransducerModel.cls
                 point_source)
              (cof 0) two_transducers
              (LegacyTransducerArray.Points three_points) 0)
    as (derivatives & Hrun & Hkeys & Hlayout).
  - reflexivity.
  - reflexivity.
  - apply point_source_returns_keys. lia.
  - exists derivatives. split; [exact Hrun|].
    destruct (proj2 (Hkeys "") ltac:(in_keys)) as [a Ha].
    assert (Hshape : LegacyTransducerArray.np_shape a = [3%nat; 2%nat]).
    { specialize (Hlayout "" a Ha). unfold transducer_last in Hlayout.
      destruct a as [cells | rows]; [contradiction|].
      destruct Hlayout as [Hlen Hrows]. simpl in Hlen.
      destruct rows as [|row rows]; [discriminate|].
      destruct (Hrows 0%nat row (mkVec3 0 0 1) eq_refl eq_refl) as [Hrow _].
      simpl in Hrow |- *. rewrite Hrow.
      change (S (length rows)) with (length (row :: rows)). rewrite Hlen.
      reflexivity. }
    split.
    + rewrite Ha. simpl. rewrite Hshape. reflexivity.
    + intros Hfirst. specialize (Hfirst "" a Ha). rewrite Hshape in Hfirst.
      discriminate.
Qed.

(** ** Finite values of the guarded arithmetic *)

Lemma lift2_Some_inv f (x y : option R) v :
  lift2 f x y = Some v -> exists a b, x = Some a /\ y = Some b /\ v = f a b.
Proof.
  destruct x as [a|], y as [b|]; simpl; try discriminate.
  intros [= <-]. eauto.
Qed.

Lemma lift1_Some_inv f (x : option R) v :
  lift1 f x = Some v -> exists a, x = Some a /\ v = f a.
Proof. destruct x as [a|]; simpl; [|discriminate]. intros [= <-]. eauto. Qed.

Lemma gdiv_Some_inv (x y : option R) v :
  gdiv x y = Some v -> is_Some x /\ nonzero y.
Proof.
  destruct x as [a|], y as [b|]; simpl; try discriminate.
  unfold Req0. destruct (Req_dec_T b 0) as [|Hb]; [discriminate|].
  intros _. split; [eauto | exists b; auto].
Qed.

Lemma gsqrt_Some_inv (x : option R) v :
  gsqrt x = Some v -> exists a, x = Some a /\ 0 <= a /\ v = sqrt a.
Proof.
  destruct x as [a|]; simpl; [|discriminate].
  destruct (Rlt_dec a 0) as [|Ha]; [discriminate|].
  intros [= <-]. exists a. repeat split. lra.
Qed.

Lemma finite_lit (x : R) : is_Some (lit (T := option R) x).
Proof. simpl. eauto. Qed.

Lemma finite_add (x y : option R) :
  is_Some x -> is_Some y -> is_Some (x + y)%fl.
Proof. intros [a ->] [b ->]. simpl. eauto. Qed.

Lemma finite_sub (x y : option R) :
  is_Some x -> is_Some y -> is_Some (x - y)%fl.
Proof. intros [a ->] [b ->]. simpl. eauto. Qed.

Lemma finite_mul (x y : option R) :
  is_Some x -> is_Some y -> is_Some (x * y)%fl.
Proof. intros [a ->] [b ->]. simpl. eauto. Qed.

Lemma finite_pow (x : option R) n : is_Some x -> is_Some (x ^ n)%fl.
Proof. intros [a ->]. simpl. eauto. Qed.

Lemma finite_lift1 f (x : option R) : is_Some x -> is_Some (lift1 f x).
Proof. intros [a ->]. simpl. eauto. Qed.

Lemma finite_div (x y : option R) :
  is_Some x -> nonzero y -> is_Some (x / y)%fl.
Proof.
  intros [a ->] (b & -> & Hb). simpl. unfold Req0.
  destruct (Req_dec_T b 0); [contradiction | eauto].
Qed.

Lemma nonzero_finite (x : option R) : nonzero x -> is_Some x.
Proof. intros (a & -> & _). eauto. Qed.

Lemma nonzero_lit (x : R) : x <> 0 -> nonzero (lit x).
Proof. intros Hx. exists x. auto. Qed.

Lemma nonzero_mul (x y : option R) :
  nonzero x -> nonzero y -> nonzero (x * y)%fl.
Proof.
  intros (a & -> & Ha) (b & -> & Hb). exists (a * b). split; [reflexivity|].
  apply Rmult_integral_contrapositive. auto.
Qed.

Lemma nonzero_pow (x : option R) n : nonzero x -> nonzero (x ^ n)%fl.
Proof.
  intros (a & -> & Ha). exists (a ^ n). split; [reflexivity|].
  apply pow_nonzero, Ha.
Qed.

Lemma guarded_vsum_vsq (d : Vec3 (option R)) : vsum (vsq d) = vdot d d.
Proof.
  destruct d as [[a|] [b|] [c|]]; simpl; try reflexivity. f_equal. ring.
Qed.

Lemma finite_vdot_inv (a b : Vec3 (option R)) :
  is_Some (vdot a b) ->
  (is_Some (vx a) /\ is_Some (vy a) /\ is_Some (vz a)) /\
  (is_Some (vx b) /\ is_Some (vy b) /\ is_Some (vz b)).
Proof.
  destruct a as [[?|] [?|] [?|]], b as [[?|] [?|] [?|]]; simpl;
    intros [v Hv]; try discriminate; repeat split; eauto.
Qed.

Ltac finite :=
  lazymatch goal with
  | |- is_Some (Some _) => eexists; reflexivity
  | |- is_Some (lit _) => apply finite_lit
  | |- is_Some (_ + _)%fl => apply finite_add; finite
  | |- is_Some (_ - _)%fl => apply finite_sub; finite
  | |- is_Some (_ * _)%fl => apply finite_mul; finite
  | |- is_Some (_ / _)%fl => apply finite_div; finite
  | |- is_Some (_ ^ _)%fl => apply finite_pow; finite
  | |- is_Some (lift1 _ _) => apply finite_lift1; finite
  | |- is_Some _ => first [assumption | apply nonzero_finite; assumption]
  | |- nonzero (lit _) => apply nonzero_lit; lra
  | |- nonzero (_ * _)%fl => apply nonzero_mul; finite
  | |- nonzero (_ ^ _)%fl => apply nonzero_pow; finite
  | |- nonzero _ => assumption
  end.

(** What a computed [sin_angle] of zero says about the inputs. *)
Lemma sin_angle_zero_inv (source_position source_normal receiver_position :
                            Vec3 (option R)) :
  sin_angle source_position source_normal receiver_position = Some 0 ->
  let diff := vsub receiver_position source_position in
  (is_Some (vx diff) /\ is_Some (vy diff) /\ is_Some (vz diff)) /\
  (is_Some (vx source_normal) /\ is_Some (vy source_normal) /\
   is_Some (vz source_normal)) /\
  nonzero (fsqrt (vdot diff diff)) /\
  nonzero (fsqrt (vsum (vsq source_normal))).
Proof.
  unfold sin_angle. cbv zeta. intros Hsin.
  apply gsqrt_Some_inv in Hsin as (a & Ha & _).
  apply lift2_Some_inv in Ha as (? & c2 & _ & Hc2 & _).
  apply lift1_Some_inv in Hc2 as (c & Hc & _).
  apply gdiv_Some_inv in Hc as [[q Hq] Hnorm].
  apply gdiv_Some_inv in Hq as [Hdot Hr].
  apply finite_vdot_inv in Hdot as [Hd Hn].
  split; [exact Hd|]. split; [exact Hn|]. split; [exact Hr | exact Hnorm].
Qed.

Section OnAxis.
Variables J0 J1 : R -> R.

Local Abbreviation j0 := (lift1 J0).
Local Abbreviation j1 := (lift1 J1).

Lemma J1_xi_limit ka_sin : CircularRing.J1_xi j1 (Some 0) ka_sin = Some 0.5.
Proof.
unfold CircularRing.J1_xi. simpl. unfold Req0.
destruct (Req_dec_T 0 0); [reflexivity | contradiction].
Qed.

Lemma J2_xi2_limit ka_sin :
CircularRing.J2_xi2 j0 j1 (Some 0) ka_sin = Some 0.125.
Proof.
unfold CircularRing.J2_xi2. simpl. unfold Req0.
destruct (Req_dec_T 0 0); [reflexivity | contradiction].
Qed.

Lemma J3_xi3_limit ka_sin :
CircularRing.J3_xi3 j0 j1 (Some 0) ka_sin = Some (1 / 48).
Proof.
unfold CircularRing.J3_xi3. simpl. unfold Req0.
destruct (Req_dec_T 0 0); [|contradiction].
destruct (Req_dec_T 48 0); [lra | reflexivity].
Qed.

Lemma CircularRing_derivatives_finite (self : TransducerModel.attrs (option R))
  source_position source_normal receiver_position orders :
is_Some (TransducerModel.k self) ->
is_Some (TransducerModel.effective_radius self) ->
sin_angle source_position source_normal receiver_position = Some 0 ->
map_Forall (fun _ v => is_Some v)
  (CircularRing.directivity_derivatives j0 j1 self source_position
     source_normal receiver_position orders).
Proof.
intros Hk Ha Hsin.
destruct (sin_angle_zero_inv _ _ _ Hsin)
  as ((Hd0 & Hd1 & Hd2) & (Hn0 & Hn1 & Hn2) & Hr & Hnorm).
unfold sin_angle in Hsin. cbv zeta in Hsin.
unfold CircularRing.directivity_derivatives. cbv zeta.
rewrite (guarded_vsum_vsq (vsub receiver_position source_position)).
rewrite !Hsin. rewrite J1_xi_limit, J2_xi2_limit, J3_xi3_limit.
assert (Hdot : is_Some (vdot (vsub receiver_position source_position)
                          source_normal))
  by (unfold vdot; finite).
destruct Hk as [kv Hk], Ha as [av Ha].
unfold TransducerModel.k in *. rewrite Hk, Ha. clear Hsin Hk Ha.
generalize dependent (fsqrt (vsum (vsq source_normal))). intros norm Hnorm.
generalize dependent (fsqrt (vdot (vsub receiver_position source_position)
                               (vsub receiver_position source_position))).
intros r Hr.
generalize dependent (vdot (vsub receiver_position source_position)
                        source_normal).
intros dot Hdot.
generalize dependent (vsub receiver_position source_position).
intros [d0 d1 d2]. destruct source_normal as [n0 n1 n2].
cbn [vx vy vz]. intros Hd0 Hd1 Hd2.
destruct (0 <? orders)%Z, (1 <? orders)%Z, (2 <? orders)%Z;
  repeat (apply map_Forall_insert_2; [finite|]);
  apply map_Forall_empty.
Qed.

(** C5. In the arithmetic with a non-finite element, for a model with a
  finite wavenumber and radius and a receiver position at which the
  computed sine of the angle to the normal is zero:
  [CircularPiston.directivity] returns exactly 1; the Bessel ratios of
  [CircularRing.directivity_derivatives] are the constants 0.5, 0.125 and
  1/48; the directivity of the ring is finite and so is every entry of its
  derivatives. *)
Theorem on_axis_directivity_limits (self : TransducerModel.attrs (option R))
  source_position source_normal receiver_position orders :
is_Some (TransducerModel.k self) ->
is_Some (TransducerModel.effective_radius self) ->
sin_angle source_position source_normal receiver_position = Some 0 ->
CircularPiston.directivity j1 self source_position source_normal
  receiver_position = Some 1 /\
(forall ka_sin,
   let sin := sin_angle source_position source_normal receiver_position in
   CircularRing.J1_xi j1 sin ka_sin = Some 0.5 /\
   CircularRing.J2_xi2 j0 j1 sin ka_sin = Some 0.125 /\
   CircularRing.J3_xi3 j0 j1 sin ka_sin = Some (1 / 48)) /\
is_Some (CircularRing.directivity j0 self source_position source_normal
           receiver_position) /\
forall key, key ∈ keys_upto orders ->
  exists v : R,
    CircularRing.directivity_derivatives j0 j1 self source_position
      source_normal receiver_position orders !! key = Some (Some v).
Proof.
intros Hk Ha Hsin. split; [|split; [|split]].
- unfold CircularPiston.directivity. cbv zeta.
  unfold sin_angle in Hsin. cbv zeta in Hsin. rewrite Hsin.
  destruct Hk as [kv Hk], Ha as [av Ha].
  unfold TransducerModel.k in *. rewrite Hk, Ha. simpl. unfold Req0.
  destruct (Req_dec_T (kv * av * 0) 0) as [|Hne]; [reflexivity|].
  exfalso. apply Hne. ring.
- intros ka_sin. cbv zeta. rewrite Hsin.
  split; [apply J1_xi_limit|]. split; [apply J2_xi2_limit|].
  apply J3_xi3_limit.
- unfold CircularRing.directivity. cbv zeta.
  unfold sin_angle in Hsin. cbv zeta in Hsin. rewrite Hsin.
  unfold TransducerModel.k. finite.
- intros key Hin.
  destruct (CircularRing_directivity_derivatives_has_keys j0 j1 self
              source_position source_normal receiver_position orders key
              Hin) as [[v|] Hv].
  + exists v. exact Hv.
  + destruct (CircularRing_derivatives_finite self source_position
                source_normal receiver_position orders Hk Ha Hsin key None
                Hv) as [? ?].
    discriminate.
Qed.
End OnAxis.

(** In exact arithmetic the computed sine is zero at every point of the
    axis of the transducer other than its position. *)
Lemma on_axis_sin_angle (s n : Vec3 R) (t : R) :
  t <> 0 -> 0 < vsum (vsq n) ->
  sin_angle (finite_position s) (finite_position n)
    (finite_position (vadd s (vscale t n))) = Some 0.
Proof.
  intros Ht Hn. destruct s as [s0 s1 s2], n as [n0 n1 n2].
  cbn [vsum vsq vx vy vz fadd fpow ideal] in Hn.
  unfold sin_angle, finite_position.
  cbn [vsub vdot vsum vsq vadd vscale vx vy vz lit fadd fsub fmul fpow ideal
       guarded lift1 lift2 fmap option_fmap option_map fsqrt gsqrt].
  set (N2 := n0 ^ 2 + n1 ^ 2 + n2 ^ 2) in *.
  set (D := (s0 + t * n0 - s0) * n0 + _ + _).
  set (Q := (s0 + t * n0 - s0) * (s0 + t * n0 - s0) + _ + _).
  assert (HQ : Q = t ^ 2 * N2) by (subst Q N2; ring).
  assert (HD : D = t * N2) by (subst D N2; ring).
  assert (Ht2 : 0 < t ^ 2) by (apply Rsqr_pos_lt in Ht; unfold Rsqr in Ht; lra).
  assert (HQpos : 0 < Q) by (rewrite HQ; apply Rmult_lt_0_compat; assumption).
  destruct (Rlt_dec N2 0) as [|_]; [lra|].
  destruct (Rlt_dec Q 0) as [|_]; [lra|].
  cbn [fdiv guarded gdiv]. unfold Req0.
  assert (HsQ : sqrt Q <> 0) by (apply Rgt_not_eq, sqrt_lt_R0, HQpos).
  assert (HsN : sqrt N2 <> 0) by (apply Rgt_not_eq, sqrt_lt_R0, Hn).
  destruct (Req_dec_T (sqrt Q) 0) as [|_]; [contradiction|].
  cbn [gdiv]. unfold Req0.
  destruct (Req_dec_T (sqrt N2) 0) as [|_]; [contradiction|].
  cbn [lift1 lift2 fmap option_fmap option_map gsqrt].
  assert (Hzero : 1 - (D / sqrt Q / sqrt N2) ^ 2 = 0).
  { replace ((D / sqrt Q / sqrt N2) ^ 2)
      with (D ^ 2 / ((sqrt Q) ^ 2 * (sqrt N2) ^ 2)) by (field; auto).
    rewrite !pow2_sqrt by lra. rewrite HD, HQ. field. split; lra. }
  rewrite Hzero. destruct (Rlt_dec 0 0) as [|_]; [lra|].
  rewrite sqrt_0. reflexivity.
Qed.

Lemma on_axis_directivity_limits_witness :
  CircularPiston.directivity (lift1 (fun x => x / 2))
    (TransducerModel.mk_attrs (Some 733) (Some 251327) (Some 0.005) (Some 6))
    (finite_position (mkVec3 0 0 0)) (finite_position (mkVec3 0 0 1))
    (finite_position (vadd (mkVec3 0 0 0) (vscale 2 (mkVec3 0 0 1))))
  = Some 1.
Proof.
  refine (proj1 (on_axis_directivity_limits (fun _ => 1) (fun x => x / 2)
                   (TransducerModel.mk_attrs (Some 733) (Some 251327)
                      (Some 0.005) (Some 6))
                   (finite_position (mkVec3 0 0 0))
                   (finite_position (mkVec3 0 0 1))
                   (finite_position
                      (vadd (mkVec3 0 0 0) (vscale 2 (mkVec3 0 0 1))))
                   3 _ _ _)).
  - simpl. eauto.
  - simpl. eauto.
  - apply on_axis_sin_angle; [lra|]. simpl. lra.
Defined.

(** ** The receiver at the position of the source *)

Lemma coincident_distance (p : Vec3 (option R)) :
  let diff := vsub p p in
  fsqrt (vdot diff diff) = Some 0 \/ fsqrt (vdot diff diff) = None.
Proof.
  destruct p as [[a|] [b|] [c|]]; simpl; auto.
  replace ((a - a) * (a - a) + (b - b) * (b - b) + (c - c) * (c - c))
    with 0 by ring.
  destruct (Rlt_dec 0 0) as [|_]; [lra|]. rewrite sqrt_0. auto.
Qed.

Lemma gdiv_zero (x y : option R) : y = Some 0 \/ y = None -> gdiv x y = None.
Proof.
  intros [-> | ->]; destruct x as [a|]; simpl; try reflexivity.
  unfold Req0. destruct (Req_dec_T 0 0); [reflexivity | contradiction].
Qed.

Lemma cdiv_zero (z : Cx (option R)) (x : option R) :
  x = Some 0 \/ x = None -> (z / cof x)%cx = mkCx None None.
Proof.
  intros Hx. unfold cdiv. cbv zeta. f_equal; apply gdiv_zero.
  - destruct Hx as [-> | ->]; simpl; [left; f_equal; ring | auto].
  - destruct Hx as [-> | ->]; simpl; [left; f_equal; ring | auto].
Qed.

Lemma cmul_not_finite_l (w : Cx (option R)) :
  (mkCx None None * w)%cx = mkCx None None.
Proof. reflexivity. Qed.

Lemma cmul_not_finite_r (z : Cx (option R)) :
  (z * mkCx None None)%cx = mkCx None None.
Proof. destruct z as [[a|] [b|]]; reflexivity. Qed.

(** C9. In the arithmetic with a non-finite element, with the receiver at the
    position of the source the distance is zero (or not finite already):
    [spherical_spreading] divides by it, without a test, and returns a value
    whose real and imaginary parts are not finite; so does
    [greens_function], whatever the class, the amplitude and the normal. Both
    return this value: neither has an error result. *)
Theorem coincident_positions_not_finite (cls : TransducerModel.class (option R))
    (self : TransducerModel.attrs (option R))
    (position source_normal : Vec3 (option R)) :
  TransducerModel.spherical_spreading self position position
  = mkCx None None /\
  TransducerModel.greens_function cls self position source_normal position
  = mkCx None None.
Proof.
  assert (Hs : TransducerModel.spherical_spreading self position position
               = mkCx None None).
  { unfold TransducerModel.spherical_spreading. cbv zeta.
    apply cdiv_zero, coincident_distance. }
  split; [exact Hs|].
  unfold TransducerModel.greens_function. rewrite Hs.
  rewrite cmul_not_finite_r. apply cmul_not_finite_l.
Qed.

(** * Further properties of the code *)

(** ** The Helmholtz equation *)

Lemma dist_sq source_position p :
  dist source_position p ^ 2
  = (vx p - vx source_position) ^ 2 + (vy p - vy source_position) ^ 2
    + (vz p - vz source_position) ^ 2.
Proof.
  unfold dist; ideal_simpl. rewrite pow2_sqrt; [reflexivity|].
  pose proof (pow2_ge_0 (vx p - vx source_position)).
  pose proof (pow2_ge_0 (vy p - vy source_position)).
  pose proof (pow2_ge_0 (vz p - vz source_position)). lra.
Qed.

(** The sum of the closed forms along [a, a] over the three axes, after one
    more derivative along [rest]. *)
Lemma G_laplacian k source_position p :
  0 < dist source_position p ->
  (G k source_position [Ax_x; Ax_x] p + G k source_position [Ax_y; Ax_y] p
   + G k source_position [Ax_z; Ax_z] p)%cx
  = cscale (- k ^ 2) (G k source_position [] p).
Proof.
  intros Hr. pose proof (dist_sq source_position p) as Hsq.
  assert (Hne : dist source_position p <> 0) by lra.
  unfold G, P0, P1, P2, cscale, kron.
  destruct source_position as [s0 s1 s2], p as [p0 p1 p2].
  ideal_simpl. simpl coord in *. revert Hne Hsq.
  generalize (dist (mkVec3 s0 s1 s2) (mkVec3 p0 p1 p2)) as r.
  intros r Hne Hsq.
  apply Cx_eq; ideal_simpl.
  - replace ((p0 - s0) * (p0 - s0)) with
      (r ^ 2 - (p1 - s1) ^ 2 - (p2 - s2) ^ 2) by (rewrite Hsq; ring).
    field. exact Hne.
  - replace ((p0 - s0) * (p0 - s0)) with
      (r ^ 2 - (p1 - s1) ^ 2 - (p2 - s2) ^ 2) by (rewrite Hsq; ring).
    field. exact Hne.
Qed.

Lemma G_laplacian_gradient k source_position p a :
  0 < dist source_position p ->
  (G k source_position [Ax_x; Ax_x; a] p + G k source_position [Ax_y; Ax_y; a] p
   + G k source_position [Ax_z; Ax_z; a] p)%cx
  = cscale (- k ^ 2) (G k source_position [a] p).
Proof.
  intros Hr. pose proof (dist_sq source_position p) as Hsq.
  assert (Hne : dist source_position p <> 0) by lra.
  unfold G, P1, P2, P3, cscale, kron.
  destruct source_position as [s0 s1 s2], p as [p0 p1 p2].
  ideal_simpl. simpl coord in *. revert Hne Hsq.
  generalize (dist (mkVec3 s0 s1 s2) (mkVec3 p0 p1 p2)) as r.
  intros r Hne Hsq.
  destruct a; apply Cx_eq; ideal_simpl; simpl coord;
    replace ((p0 - s0) * (p0 - s0)) with
      (r ^ 2 - (p1 - s1) ^ 2 - (p2 - s2) ^ 2) by (rewrite Hsq; ring);
    field; exact Hne.
Qed.

Lemma cmul_cof (x : R) (z : Cx R) : (cof x * z)%cx = cscale x z.
Proof. apply Cx_eq; unfold cscale; ideal_simpl; ring. Qed.

Ltac entry_G self s p orders alpha :=
  lazymatch eval vm_compute in (key_of alpha) with
  | Some ?key =>
      rewrite (spherical_derivatives_G self s p orders alpha key)
        by first [simpl; lia | reflexivity | assumption]
  end.

(** X1. Away from the source the entries of [spherical_derivatives] satisfy
    the Helmholtz equation: the sum of the entries [xx], [yy] and [zz] is
    [- k^2] times the entry of the field, and from order three on the same
    holds after one more derivative along x, y or z. *)
Theorem spherical_derivatives_helmholtz (self : TransducerModel.attrs R)
    (source_position receiver_position : Vec3 R) (orders : Z) :
  0 < dist source_position receiver_position ->
  let sd := TransducerModel.spherical_derivatives self source_position
              receiver_position orders in
  let k2 : option (Cx R) := Some (cof (- TransducerModel.k self ^ 2)) in
  ((1 < orders)%Z ->
   is_Some (sd !! "") /\
   (sd !! "xx" + sd !! "yy" + sd !! "zz" = k2 * sd !! "")%py) /\
  ((2 < orders)%Z ->
   (sd !! "xxx" + sd !! "yyx" + sd !! "zzx" = k2 * sd !! "x")%py /\
   (sd !! "xxy" + sd !! "yyy" + sd !! "zzy" = k2 * sd !! "y")%py /\
   (sd !! "xxz" + sd !! "yyz" + sd !! "zzz" = k2 * sd !! "z")%py).
Proof.
  intros Hr sd k2. subst sd k2. unfold TransducerModel.k. split.
  - intros Hord.
    entry_G self source_position receiver_position orders (@nil axis).
    entry_G self source_position receiver_position orders [Ax_x; Ax_x].
    entry_G self source_position receiver_position orders [Ax_y; Ax_y].
    entry_G self source_position receiver_position orders [Ax_z; Ax_z].
    split; [eauto|]. cbn [oadd omul mbind option_bind].
    rewrite G_laplacian by exact Hr. rewrite cmul_cof. reflexivity.
  - intros Hord.
    entry_G self source_position receiver_position orders [Ax_x].
    entry_G self source_position receiver_position orders [Ax_y].
    entry_G self source_position receiver_position orders [Ax_z].
    entry_G self source_position receiver_position orders [Ax_x; Ax_x; Ax_x].
    entry_G self source_position receiver_position orders [Ax_y; Ax_y; Ax_x].
    entry_G self source_position receiver_position orders [Ax_z; Ax_z; Ax_x].
    entry_G self source_position receiver_position orders [Ax_x; Ax_x; Ax_y].
    entry_G self source_position receiver_position orders [Ax_y; Ax_y; Ax_y].
    entry_G self source_position receiver_position orders [Ax_z; Ax_z; Ax_y].
    entry_G self source_position receiver_position orders [Ax_x; Ax_x; Ax_z].
    entry_G self source_position receiver_position orders [Ax_y; Ax_y; Ax_z].
    entry_G self source_position receiver_position orders [Ax_z; Ax_z; Ax_z].
    cbn [oadd omul mbind option_bind].
    rewrite !G_laplacian_gradient by exact Hr. rewrite !cmul_cof.
    auto.
Qed.

Lemma spherical_derivatives_helmholtz_witness :
  let sd := TransducerModel.spherical_derivatives point_source
              (mkVec3 0 0 0) (mkVec3 0 0 1) 3 in
  (sd !! "xx" + sd !! "yy" + sd !! "zz"
   = Some (cof (- TransducerModel.k point_source ^ 2)) * sd !! "")%py.
Proof.
  refine (proj2 (proj1 (spherical_derivatives_helmholtz point_source
                          (mkVec3 0 0 0) (mkVec3 0 0 1) 3 _) _)).
  - apply dist_sq_pos. simpl. lra.
  - lia.
Defined.

(** ** Exchanging the source and the receiver *)

Lemma dist_sym a b : dist a b = dist b a.
Proof. unfold dist; ideal_simpl. f_equal. ring. Qed.

Lemma G_swap k a b alpha :
  (length alpha <= 3)%nat ->
  G k b alpha a = cscale ((-1) ^ length alpha) (G k a alpha b).
Proof.
  intros Hlen. unfold G. rewrite (dist_sym b a).
  generalize (dist a b) as r. intros r.
  destruct alpha as [|x [|y [|z [|? ?]]]]; [| | | |simpl in Hlen; lia];
    apply Cx_eq; unfold cscale; ideal_simpl; simpl length; ring.
Qed.

Lemma axes_of_length key : length (axes_of key) = String.length key.
Proof. induction key as [|c key IH]; simpl; congruence. Qed.

(** X2. Reciprocity. Away from the source, [spherical_spreading] is the same
    with the source and the receiver exchanged, and every entry of
    [spherical_derivatives] keeps its value for a name of even length and
    changes sign for a name of odd length. *)
Theorem spherical_derivatives_reciprocity (self : TransducerModel.attrs R)
    (source_position receiver_position : Vec3 R) (orders : Z) (key : string) :
  0 < dist source_position receiver_position ->
  (0 <= orders)%Z -> key ∈ keys_upto orders ->
  TransducerModel.spherical_spreading self receiver_position source_position
  = TransducerModel.spherical_spreading self source_position
      receiver_position /\
  TransducerModel.spherical_derivatives self receiver_position
    source_position orders !! key
  = cscale ((-1) ^ String.length key)
      <$> TransducerModel.spherical_derivatives self source_position
            receiver_position orders !! key.
Proof.
  intros Hr Hord Hin.
  assert (Hr' : 0 < dist receiver_position source_position)
    by (rewrite dist_sym; exact Hr).
  split.
  - rewrite !spherical_spreading_P0 by assumption.
    rewrite G_swap by (simpl; lia). apply Cx_eq; unfold cscale; simpl; ring.
  - destruct (keys_upto_axes orders key Hord Hin) as [Hlen Hkey].
    rewrite (spherical_derivatives_G self receiver_position source_position
               orders (axes_of key) key Hlen Hkey Hr').
    rewrite (spherical_derivatives_G self source_position receiver_position
               orders (axes_of key) key Hlen Hkey Hr).
    simpl. f_equal. rewrite <- axes_of_length. apply G_swap.
    apply key_of_length in Hkey. exact Hkey.
Qed.

Lemma spherical_derivatives_reciprocity_witness :
  TransducerModel.spherical_derivatives point_source (mkVec3 0 0 1)
    (mkVec3 0 0 0) 3 !! "zzx"
  = cscale ((-1) ^ 3)
      <$> TransducerModel.spherical_derivatives point_source (mkVec3 0 0 0)
            (mkVec3 0 0 1) 3 !! "zzx".
Proof.
  refine (proj2 (spherical_derivatives_reciprocity point_source
                   (mkVec3 0 0 0) (mkVec3 0 0 1) 3 "zzx" _ _ _)).
  - apply dist_sq_pos. simpl. lra.
  - lia.
  - in_keys.
Defined.

(** ** The magnitude of the field *)

(** X3. Away from the source the magnitude of [spherical_spreading] is
    [1 / r], whatever the wavenumber, and the magnitude of the
    [greens_function] of the point source is [|p0| / r]. *)
Theorem spherical_spreading_magnitude (self : TransducerModel.attrs R)
    (source_position source_normal receiver_position : Vec3 R) :
  let r := dist source_position receiver_position in
  0 < r ->
  cabs (TransducerModel.spherical_spreading self source_position
          receiver_position) = 1 / r /\
  cabs (TransducerModel.greens_function TransducerModel.cls self
          source_position source_normal receiver_position)
  = Rabs (TransducerModel.p0 self) / r.
Proof.
  intros r Hr. unfold TransducerModel.greens_function.
  rewrite spherical_spreading_P0 by exact Hr.
  unfold G, P0. fold r. cbn [TransducerModel.cls TransducerModel.cls_directivity
                              TransducerModel.directivity].
  generalize (TransducerModel._k self * r) as x. intros x.
  pose proof (sin2_cos2 x) as Hsc. unfold Rsqr in Hsc.
  assert (Hne : r <> 0) by lra.
  split; unfold cabs; ideal_simpl.
  - replace (cos x / r * (cos x / r) + sin x / r * (sin x / r))
      with ((sin x * sin x + cos x * cos x) * (1 / r * (1 / r)))
      by (field; exact Hne).
    rewrite Hsc, Rmult_1_l. apply sqrt_square.
    apply Rlt_le, Rdiv_lt_0_compat; lra.
  - unfold TransducerModel.directivity; ideal_simpl.
    set (p := TransducerModel.p0 self).
    match goal with
    | |- sqrt ?e = _ =>
        replace e with ((sin x * sin x + cos x * cos x) * Rsqr (p / r))
          by (unfold Rsqr; field; exact Hne)
    end.
    rewrite Hsc, Rmult_1_l, sqrt_Rsqr_abs.
    unfold Rdiv. rewrite Rabs_mult. f_equal. apply Rabs_pos_eq.
    apply Rlt_le, Rinv_0_lt_compat, Hr.
Qed.

Lemma spherical_spreading_magnitude_witness :
  cabs (TransducerModel.spherical_spreading point_source (mkVec3 0 0 0)
          (mkVec3 0 3 4))
  = 1 / dist (mkVec3 0 0 0) (mkVec3 0 3 4).
Proof.
  refine (proj1 (spherical_spreading_magnitude point_source (mkVec3 0 0 0)
                   (mkVec3 0 0 1) (mkVec3 0 3 4) _)).
  apply dist_sq_pos. simpl. lra.
Defined.

(** ** Symmetries of the directivities *)

(** The squared cosine of the angle to the normal does not change when the
    normal is scaled or the receiver is mirrored in the source. *)
Lemma cos_angle_sq_scale (c : R) (n d : Vec3 R) :
  c <> 0 ->
  (vdot d (vscale c n) / sqrt (vdot d d)
   / sqrt (vsum (vsq (vscale c n)))) ^ 2
  = (vdot d n / sqrt (vdot d d) / sqrt (vsum (vsq n))) ^ 2.
Proof.
  intros Hc. destruct n as [n0 n1 n2], d as [d0 d1 d2]. ideal_simpl.
  replace ((c * n0) ^ 2 + (c * n1) ^ 2 + (c * n2) ^ 2)
    with (Rsqr c * (n0 ^ 2 + n1 ^ 2 + n2 ^ 2)) by (unfold Rsqr; ring).
  assert (Hn : 0 <= n0 ^ 2 + n1 ^ 2 + n2 ^ 2).
  { pose proof (pow2_ge_0 n0). pose proof (pow2_ge_0 n1).
    pose proof (pow2_ge_0 n2). lra. }
  rewrite sqrt_mult by (try apply Rle_0_sqr; exact Hn).
  rewrite sqrt_Rsqr_abs.
  generalize (sqrt (n0 ^ 2 + n1 ^ 2 + n2 ^ 2)) as q.
  generalize (sqrt (d0 * d0 + d1 * d1 + d2 * d2)) as r. intros r q.
  assert (He : (c * / Rabs c) ^ 2 = 1).
  { destruct (Rcase_abs c) as [Hneg | Hpos].
    - rewrite Rabs_left by exact Hneg. field. lra.
    - rewrite Rabs_right by exact Hpos. field. exact Hc. }
  unfold Rdiv. rewrite Rinv_mult.
  replace (((d0 * (c * n0) + d1 * (c * n1) + d2 * (c * n2)) * / r
            * (/ Rabs c * / q)) ^ 2)
    with ((c * / Rabs c) ^ 2 * ((d0 * n0 + d1 * n1 + d2 * n2) * / r * / q) ^ 2)
    by ring.
  rewrite He. ring.
Qed.

(** X4. The directivities of the piston and of the ring depend on the normal
    of the source through its direction only, up to its sign: scaling the
    normal by a factor other than zero, negative ones included, leaves them
    as they are. A transducer radiates backwards as it does forwards. *)
Theorem directivity_normal_scaling (j0 j1 : R -> R)
    (self : TransducerModel.attrs R)
    (source_position source_normal receiver_position : Vec3 R) (c : R) :
  c <> 0 ->
  CircularPiston.directivity j1 self source_position
    (vscale c source_normal) receiver_position
  = CircularPiston.directivity j1 self source_position source_normal
      receiver_position /\
  CircularRing.directivity j0 self source_position (vscale c source_normal)
    receiver_position
  = CircularRing.directivity j0 self source_position source_normal
      receiver_position.
Proof.
  intros Hc.
  pose proof (cos_angle_sq_scale c source_normal
                (vsub receiver_position source_position) Hc) as Hcos.
  unfold CircularPiston.directivity, CircularRing.directivity. cbv zeta.
  cbn [fdiv fsqrt fpow fsub lit ideal] in *. rewrite Hcos. auto.
Qed.

Lemma directivity_normal_scaling_witness :
  CircularPiston.directivity (fun x => x / 2) point_source (mkVec3 0 0 0)
    (vscale (-1) (mkVec3 0 0 1)) (mkVec3 0 1 1)
  = CircularPiston.directivity (fun x => x / 2) point_source (mkVec3 0 0 0)
      (mkVec3 0 0 1) (mkVec3 0 1 1).
Proof.
  refine (proj1 (directivity_normal_scaling (fun _ => 1) (fun x => x / 2)
                   point_source (mkVec3 0 0 0) (mkVec3 0 0 1) (mkVec3 0 1 1)
                   (-1) _)).
  lra.
Defined.

(** ** The field on the reflecting plane *)

(** A receiver on the plane is as far from the mirror source as from the
    source. *)
Lemma mirror_position_equidistant (self : ReflectingTransducer.attrs R)
    (s p : Vec3 R) :
  let n := ReflectingTransducer.plane_normal self in
  vdot n n = 1 ->
  vdot p n = ReflectingTransducer.plane_distance self ->
  let d' := vsub p (ReflectingTransducer.mirror_position self s) in
  let d := vsub p s in
  vdot d' d' = vdot d d.
Proof.
  intros n Hn Hp d' d. subst d' d n.
  unfold ReflectingTransducer.mirror_position.
  destruct (ReflectingTransducer.plane_normal self) as [n0 n1 n2].
  destruct s as [s0 s1 s2], p as [p0 p1 p2].
  revert Hp. generalize (ReflectingTransducer.plane_distance self) as dist.
  intros dist Hp. ideal_simpl.
  set (t := s0 * n0 + s1 * n1 + s2 * n2 - dist).
  match goal with
  | |- ?a = ?b =>
      replace a with
        (b + 4 * t * (p0 * n0 + p1 * n1 + p2 * n2 - dist)
         + 4 * t ^ 2 * (n0 * n0 + n1 * n1 + n2 * n2 - 1))
        by (subst t; ring)
  end.
  rewrite Hp, Hn. ring.
Qed.

(** X5. With a unit plane normal and the receiver on the reflecting plane,
    the [greens_function] of a reflecting point source is the direct one
    times [1 + reflection_coefficient]: the pressure doubles on a rigid
    plane. *)
Theorem reflecting_plane_pressure (self : ReflectingTransducer.attrs R)
    (source_position source_normal receiver_position : Vec3 R) :
  let n := ReflectingTransducer.plane_normal self in
  vdot n n = 1 ->
  vdot receiver_position n = ReflectingTransducer.plane_distance self ->
  ReflectingTransducer.greens_function TransducerModel.cls self
    source_position source_normal receiver_position
  = ((cof 1 + ReflectingTransducer.reflection_coefficient self)
     * TransducerModel.greens_function TransducerModel.cls
         (ReflectingTransducer.base self) source_position source_normal
         receiver_position)%cx.
Proof.
  intros n Hn Hp.
  pose proof (mirror_position_equidistant self source_position
                receiver_position Hn Hp) as Heq. cbv zeta in Heq.
  unfold ReflectingTransducer.greens_function,
    TransducerModel.greens_function, TransducerModel.spherical_spreading.
  cbv zeta. rewrite Heq.
  cbn [TransducerModel.cls TransducerModel.cls_directivity
       TransducerModel.directivity].
  match goal with
  | |- context [(cexp ?z / ?r)%cx] => generalize (cexp z / r)%cx
  end.
  intros S. unfold TransducerModel.directivity.
  apply Cx_eq; ideal_simpl; ring.
Qed.

Lemma reflecting_plane_pressure_witness :
  let self := ReflectingTransducer.mk_attrs point_source 0 (mkVec3 0 0 1)
                (cof 1) in
  ReflectingTransducer.greens_function TransducerModel.cls self
    (mkVec3 0 0 1) (mkVec3 0 0 (-1)) (mkVec3 1 2 0)
  = ((cof 1 + cof 1)
     * TransducerModel.greens_function TransducerModel.cls point_source
         (mkVec3 0 0 1) (mkVec3 0 0 (-1)) (mkVec3 1 2 0))%cx.
Proof.
  intros self.
  refine (reflecting_plane_pressure self (mkVec3 0 0 1) (mkVec3 0 0 (-1))
            (mkVec3 1 2 0) _ _).
  - simpl. ring.
  - simpl. ring.
Defined.

(** ** Wrapped phases *)

Lemma Int_part_bounds (r : R) : IZR (Int_part r) <= r < IZR (Int_part r) + 1.
Proof. destruct (base_Int_part r). lra. Qed.

Lemma Int_part_unique (r : R) (n : Z) : IZR n <= r < IZR n + 1 -> Int_part r = n.
Proof.
  intros Hn. unfold Int_part.
  rewrite <- (tech_up r (n + 1)); [lia | |]; rewrite plus_IZR; lra.
Qed.

Lemma np_mod_range (x y : R) : 0 < y -> 0 <= np_mod x y < y.
Proof.
  intros Hy. unfold np_mod. pose proof (Int_part_bounds (x / y)) as Hb.
  set (n := IZR (Int_part (x / y))) in *.
  assert (Hx : x = x / y * y) by (field; lra).
  split.
  - assert (n * y <= x / y * y) by (apply Rmult_le_compat_r; lra). lra.
  - assert (x / y * y < (n + 1) * y) by (apply Rmult_lt_compat_r; lra). lra.
Qed.

(** The wrapped phase is in [[-PI, PI)] and differs from the phase by a
    whole number of turns. *)
Lemma wrap_range (phase : R) : - PI <= np_mod (phase + PI) (2 * PI) - PI < PI.
Proof.
  pose proof PI_RGT_0.
  pose proof (np_mod_range (phase + PI) (2 * PI) ltac:(lra)). lra.
Qed.

Lemma wrap_turns (phase : R) :
  exists m : Z, np_mod (phase + PI) (2 * PI) - PI = phase + 2 * IZR m * PI.
Proof.
  exists (- Int_part ((phase + PI) / (2 * PI)))%Z. unfold np_mod.
  rewrite opp_IZR. ring.
Qed.

Lemma wrap_zero : np_mod (0 + PI) (2 * PI) - PI = 0.
Proof.
  unfold np_mod. pose proof PI_RGT_0.
  rewrite (Int_part_unique _ 0).
  - ring.
  - replace ((0 + PI) / (2 * PI)) with (1 / 2) by (field; lra). lra.
Qed.

Lemma cos_turns (x : R) (m : Z) : cos (x + 2 * IZR m * PI) = cos x.
Proof.
  destruct (Z_le_gt_dec 0 m) as [Hm | Hm].
  - rewrite <- (Z2Nat.id m) by exact Hm. rewrite <- INR_IZR_INZ.
    apply cos_period.
  - rewrite <- (cos_period (x + 2 * IZR m * PI) (Z.to_nat (- m))).
    rewrite INR_IZR_INZ, Z2Nat.id by lia. rewrite opp_IZR. f_equal. ring.
Qed.

Lemma sin_turns (x : R) (m : Z) : sin (x + 2 * IZR m * PI) = sin x.
Proof.
  destruct (Z_le_gt_dec 0 m) as [Hm | Hm].
  - rewrite <- (Z2Nat.id m) by exact Hm. rewrite <- INR_IZR_INZ.
    apply sin_period.
  - rewrite <- (sin_period (x + 2 * IZR m * PI) (Z.to_nat (- m))).
    rewrite INR_IZR_INZ, Z2Nat.id by lia. rewrite opp_IZR. f_equal. ring.
Qed.

(** ** [focus_phases] and [signature] *)

(** A loop over [range(num_transducers)] that reads [transducer_positions]
    runs to its end when there are that many positions. *)
Lemma mapM_positions {A B : Type} (f : A -> B) (positions : list A) (N : nat) :
  (N <= length positions)%nat ->
  mapM (fun idx => position ← positions !! idx; Some (f position)) (seq 0 N)
  = Some (f <$> take N positions).
Proof.
  intros HN. apply mapM_Some. apply Forall2_same_length_lookup.
  split; [rewrite length_seq, length_fmap, length_take; lia|].
  intros i idx y Hidx Hy. apply lookup_seq in Hidx as [-> Hi]. simpl.
  rewrite list_lookup_fmap, lookup_take_lt in Hy by exact Hi.
  destruct (positions !! i) as [position|]; simpl in *; congruence.
Qed.

Section FocusPhases.
Variable transducer_model : TransducerModel.attrs R.

Local Abbreviation focus_phases :=
  (TransducerArray.focus_phases transducer_model).
Local Abbreviation signature := (TransducerArray.signature transducer_model).

(** The phases [focus_phases] returns, transducer by transducer. *)
Lemma focus_phases_lookup (self : TransducerArray.attrs R) (focus : Vec3 R) :
  (TransducerArray.num_transducers self
   <= length (TransducerArray.transducer_positions self))%nat ->
  exists phases,
    focus_phases self focus = Some phases /\
    length phases = TransducerArray.num_transducers self /\
    forall idx position,
      (idx < TransducerArray.num_transducers self)%nat ->
      TransducerArray.transducer_positions self !! idx = Some position ->
      phases !! idx
      = Some (np_mod (- dist focus position
                      * TransducerModel.k transducer_model + PI) (2 * PI)
              - PI).
Proof.
  intros HN. unfold TransducerArray.focus_phases.
  rewrite mapM_positions by exact HN. cbn [mbind option_bind].
  eexists. split; [reflexivity|]. split.
  - rewrite !length_fmap, length_take. lia.
  - intros idx position Hidx Hpos.
    rewrite !list_lookup_fmap, lookup_take_lt, Hpos by exact Hidx.
    reflexivity.
Qed.

(** X6. When the array has [num_transducers] positions, [focus_phases]
    returns one phase for each transducer; the phase is in [[-PI, PI)] and
    is, up to a whole number of turns, minus the wavenumber times the
    distance from the transducer to the focus. *)
Theorem focus_phases_wrapped (self : TransducerArray.attrs R)
    (focus : Vec3 R) :
  (TransducerArray.num_transducers self
   <= length (TransducerArray.transducer_positions self))%nat ->
  exists phases,
    focus_phases self focus = Some phases /\
    length phases = TransducerArray.num_transducers self /\
    forall idx position phase,
      TransducerArray.transducer_positions self !! idx = Some position ->
      phases !! idx = Some phase ->
      - PI <= phase < PI /\
      exists m : Z,
        phase = - dist focus position * TransducerModel.k transducer_model
                + 2 * IZR m * PI.
Proof.
  intros HN.
  destruct (focus_phases_lookup self focus HN) as (phases & Hrun & Hlen & Hph).
  exists phases. split; [exact Hrun|]. split; [exact Hlen|].
  intros idx position phase Hpos Hphase.
  assert (Hidx : (idx < TransducerArray.num_transducers self)%nat)
    by (rewrite <- Hlen; eapply lookup_lt_Some, Hphase).
  rewrite (Hph idx position Hidx Hpos) in Hphase. injection Hphase as <-.
  split; [apply wrap_range | apply wrap_turns].
Qed.

(** X7. With the phase [focus_phases] gives a transducer and the amplitude
    one, the field of the transducer at the focus, spreading only, is the
    positive real number [1 / r]: the fields of all the transducers arrive
    at the focus in phase. *)
Theorem focus_phases_in_phase (self : TransducerArray.attrs R)
    (focus : Vec3 R) :
  (TransducerArray.num_transducers self
   <= length (TransducerArray.transducer_positions self))%nat ->
  exists phases,
    focus_phases self focus = Some phases /\
    forall idx position,
      (idx < TransducerArray.num_transducers self)%nat ->
      TransducerArray.transducer_positions self !! idx = Some position ->
      0 < dist position focus ->
      exists phase,
        phases !! idx = Some phase /\
        (TransducerArray.polar 1 phase
         * TransducerModel.spherical_spreading transducer_model position
             focus)%cx
        = cof (1 / dist position focus).
Proof.
  intros HN.
  destruct (focus_phases_lookup self focus HN) as (phases & Hrun & _ & Hph).
  exists phases. split; [exact Hrun|].
  intros idx position Hidx Hpos Hr.
  eexists. split; [exact (Hph idx position Hidx Hpos)|].
  destruct (wrap_turns (- dist focus position
                        * TransducerModel.k transducer_model)) as [m ->].
  rewrite spherical_spreading_P0 by exact Hr.
  unfold TransducerArray.polar, G, P0. rewrite phase_eq.
  rewrite cos_turns, sin_turns. rewrite (dist_sym focus position).
  unfold TransducerModel.k.
  generalize (dist position focus) Hr. intros r Hr'.
  set (x := TransducerModel._k transducer_model * r).
  replace (- r * TransducerModel._k transducer_model) with (- x)
    by (subst x; ring).
  rewrite cos_neg, sin_neg.
  pose proof (sin2_cos2 x) as Hsc. unfold Rsqr in Hsc.
  apply Cx_eq; ideal_simpl.
  - replace (1 / r) with ((sin x * sin x + cos x * cos x) / r)
      by (rewrite Hsc; reflexivity).
    field. lra.
  - field. lra.
Qed.

(** X8. [signature] returns values in [[-PI, PI)], and the signature of the
    phases that focus at [focus], relative to [focus], is zero for every
    transducer. *)
Theorem signature_of_focus_phases (self : TransducerArray.attrs R)
    (focus : Vec3 R) :
  (TransducerArray.num_transducers self
   <= length (TransducerArray.transducer_positions self))%nat ->
  (forall phases result value,
     signature self focus phases = Some result -> value ∈ result ->
     - PI <= value < PI) /\
  exists phases,
    focus_phases self focus = Some phases /\
    signature self focus (Some phases)
    = Some (replicate (TransducerArray.num_transducers self) 0).
Proof.
  intros HN. split.
  - intros phases result value Hrun Hin.
    unfold TransducerArray.signature in Hrun. cbv zeta in Hrun.
    destruct (TransducerArray.focus_phases _ _ _); [|discriminate].
    cbn [mbind option_bind] in Hrun.
    destruct (broadcast2 _ _ _) as [difference|]; [|discriminate].
    cbn [mbind option_bind] in Hrun. injection Hrun as <-.
    apply list_elem_of_fmap in Hin as (d & -> & _). apply wrap_range.
  - destruct (focus_phases_lookup self focus HN) as (phases & Hrun & Hlen & _).
    exists phases. split; [exact Hrun|].
    unfold TransducerArray.signature. rewrite Hrun.
    cbn [mbind option_bind]. unfold broadcast2.
    rewrite decide_True by reflexivity. cbn [mbind option_bind]. f_equal.
    rewrite <- Hlen. clear. induction phases as [|phase phases IH]; [reflexivity|].
    cbn [zip_with fmap list_fmap length replicate]. f_equal; [|exact IH].
    replace (phase - phase) with 0 by ring. apply wrap_zero.
Qed.
End FocusPhases.

Lemma focus_phases_wrapped_witness :
  exists phases,
    TransducerArray.focus_phases point_source two_transducers (mkVec3 0 0 1)
    = Some phases /\ length phases = 2%nat.
Proof.
  destruct (focus_phases_wrapped point_source two_transducers (mkVec3 0 0 1))
    as (phases & Hrun & Hlen & _).
  - simpl. lia.
  - exists phases. split; [exact Hrun | exact Hlen].
Defined.

Lemma focus_phases_in_phase_witness :
  exists phases phase,
    TransducerArray.focus_phases point_source two_transducers (mkVec3 0 0 1)
    = Some phases /\
    phases !! 1%nat = Some phase /\
    (TransducerArray.polar 1 phase
     * TransducerModel.spherical_spreading point_source (mkVec3 1 0 0)
         (mkVec3 0 0 1))%cx
    = cof (1 / dist (mkVec3 1 0 0) (mkVec3 0 0 1)).
Proof.
  destruct (focus_phases_in_phase point_source two_transducers (mkVec3 0 0 1))
    as (phases & Hrun & Hph).
  - simpl. lia.
  - destruct (Hph 1%nat (mkVec3 1 0 0)) as (phase & Hphase & Hfield).
    + simpl. lia.
    + reflexivity.
    + apply dist_sq_pos. simpl. lra.
    + exists phases, phase. auto.
Defined.

Lemma signature_of_focus_phases_witness :
  exists phases,
    TransducerArray.focus_phases point_source two_transducers (mkVec3 0 0 1)
    = Some phases /\
    TransducerArray.signature point_source two_transducers (mkVec3 0 0 1)
      (Some phases)
    = Some [0; 0].
Proof.
  refine (proj2 (signature_of_focus_phases point_source two_transducers
                   (mkVec3 0 0 1) _)).
  simpl. lia.
Defined.

(** ** The signatures of [RectangularArray] *)



(** X10. For an array with [num_transducers] positions, [bottle_signature]
    gives every transducer the phase [0] or [PI]: [PI] to those further
    from [position] than the radius. The default radius is the one of the
    disc whose area is half the area [num_transducers * transducer_size^2]
    of the array. *)
Theorem bottle_signature_equal_areas (self : RectangularArray.attrs R)
    (position : R * R) :
  let N := TransducerArray.num_transducers (RectangularArray.array self) in
  let positions :=
    TransducerArray.transducer_positions (RectangularArray.array self) in
  (N <= length positions)%nat ->
  (forall radius, exists result,
     RectangularArray.bottle_signature self position radius = Some result /\
     length result = N /\
     forall value, value ∈ result -> value = 0 \/ value = PI) /\
  exists radius,
    0 <= radius /\
    PI * radius ^ 2 = INR N * RectangularArray.transducer_size self ^ 2 / 2 /\
    RectangularArray.bottle_signature self position None
    = RectangularArray.bottle_signature self position (Some radius).
Proof.
  intros N positions HN. subst N positions. split.
  - intros radius. unfold RectangularArray.bottle_signature. cbv zeta.
    rewrite mapM_positions by exact HN.
    eexists. split; [reflexivity|]. split.
    + rewrite length_fmap, length_take. lia.
    + intros value Hin. apply list_elem_of_fmap in Hin as (p & -> & _).
      destruct (Rlt_dec _ _); auto.
  - eexists. split; [|split; [|reflexivity]].
    + apply sqrt_pos.
    + pose proof PI_RGT_0. rewrite pow2_sqrt; [field; lra|].
      apply Rmult_le_pos; [|apply Rlt_le, Rinv_0_lt_compat; lra].
      apply Rmult_le_pos; [|lra].
      apply Rmult_le_pos; [apply pos_INR | apply pow2_ge_0].
Qed.

Lemma bottle_signature_equal_areas_witness :
  exists radius,
    0 <= radius /\
    PI * radius ^ 2 = INR 2 * 1 ^ 2 / 2 /\
    RectangularArray.bottle_signature
      (RectangularArray.mk_attrs two_transducers 1) (0, 0) None
    = RectangularArray.bottle_signature
        (RectangularArray.mk_attrs two_transducers 1) (0, 0) (Some radius).
Proof.
  refine (proj2 (bottle_signature_equal_areas
                   (RectangularArray.mk_attrs two_transducers 1) (0, 0) _)).
  simpl. lia.
Defined.

Lemma linspace_length {T : Type} `{Float T} (start stop : T) (num : nat) :
  length (linspace start stop num) = num.
Proof.
  destruct num as [|[|div]]; [reflexivity | reflexivity |].
  unfold linspace. rewrite length_app, length_fmap, length_seq. simpl. lia.
Qed.

(** The samples [np.linspace(-(n - 1) / 2, (n - 1) / 2, n)] are one apart and
    centred on zero. *)
Lemma linspace_centered (n j : nat) :
  (j < n)%nat ->
  linspace (- lit (INR n - 1) / lit 2)%fl (lit (INR n - 1) / lit 2)%fl n !! j
  = Some (INR j - (INR n - 1) / 2).
Proof.
  intros Hj. destruct n as [|[|div]]; [lia | |].
  - assert (j = 0%nat) as -> by lia. simpl. f_equal. field.
  - unfold linspace. set (n := S (S div)).
    assert (Hn : INR n - 1 = INR (S div)) by (subst n; rewrite (S_INR (S div)); ring).
    assert (Hdiv : INR (S div) <> 0) by (apply not_0_INR; lia).
    destruct (decide (j < S div)%nat) as [Hlt | Hge].
    + rewrite lookup_app_l by (rewrite length_fmap, length_seq; exact Hlt).
      rewrite list_lookup_fmap, lookup_seq_lt by exact Hlt.
      cbn [fmap option_fmap option_map Nat.add]. f_equal. ideal_simpl.
      rewrite Hn. field. exact Hdiv.
    + assert (j = S div) as -> by (subst n; lia).
      rewrite lookup_app_r by (rewrite length_fmap, length_seq; lia).
      rewrite length_fmap, length_seq, Nat.sub_diag.
      cbn [lookup list_lookup]. f_equal. ideal_simpl. rewrite Hn. field.
Qed.

(** The flattened mesh: the point of row [i] and column [j] is at index
    [i * length xs + j]. *)
Lemma meshgrid_lookup {A B : Type} (g : A -> A -> B) (ys xs : list A)
    (i j : nat) (y x : A) :
  ys !! i = Some y -> xs !! j = Some x ->
  (yi ← ys; xj ← xs; [g xj yi]) !! (i * length xs + j)%nat = Some (g x y).
Proof.
  revert i. induction ys as [|y0 ys IH]; intros i Hy Hx; [discriminate|].
  cbn [mbind list_bind]. change (list_bind ?f ?l) with (l ≫= f).
  assert (Hrow : length (xs ≫= fun xj => [g xj y0]) = length xs).
  { clear. induction xs as [|x0 xs IH]; [reflexivity|].
    cbn [mbind list_bind app length]. f_equal. exact IH. }
  destruct i as [|i].
  - injection Hy as ->. simpl.
    rewrite lookup_app_l by (rewrite Hrow; eapply lookup_lt_Some, Hx).
    clear -Hx. revert j Hx. induction xs as [|x0 xs IH]; intros j Hx;
      [discriminate|].
    destruct j as [|j]; [injection Hx as ->; reflexivity|].
    cbn [mbind list_bind app]. apply IH, Hx.
  - rewrite lookup_app_r by (rewrite Hrow; simpl; lia).
    rewrite Hrow. replace (S i * length xs + j - length xs)%nat
      with (i * length xs + j)%nat by (simpl; lia).
    apply IH; assumption.
Qed.

Lemma meshgrid_length {A B : Type} (g : A -> A -> B) (ys xs : list A) :
  length (yi ← ys; xj ← xs; [g xj yi]) = (length ys * length xs)%nat.
Proof.
  induction ys as [|y0 ys IH]; [reflexivity|].
  cbn [mbind list_bind]. change (list_bind ?f ?l) with (l ≫= f).
  rewrite length_app, IH. simpl. f_equal.
  clear. induction xs as [|x0 xs IH]; [reflexivity|].
  cbn [mbind list_bind app length]. f_equal. exact IH.
Qed.

Lemma meshgrid_elem_of {A B : Type} (g : A -> A -> B) (ys xs : list A) (p : B) :
  p ∈ (yi ← ys; xj ← xs; [g xj yi]) ->
  exists x y, x ∈ xs /\ y ∈ ys /\ p = g x y.
Proof.
  intros Hin. apply list_elem_of_bind in Hin as (y & Hin & Hy).
  apply list_elem_of_bind in Hin as (x & Hin & Hx).
  apply list_elem_of_singleton in Hin. eauto.
Qed.

Lemma rectangular_grid_lengths {T : Type} `{Float T} (shape : nat * nat)
    (spread : T) (offset normal : Vec3 T) (rotation : T) :
  let grid := rectangular_grid shape spread offset normal rotation in
  length grid.1 = (shape.1 * shape.2)%nat /\
  grid.2 = replicate (shape.1 * shape.2)
             (vdivs normal (fsqrt (vsum (vsq normal)))).
Proof.
  unfold rectangular_grid. cbv zeta. cbn [fst snd].
  rewrite length_fmap, meshgrid_length, !length_fmap, !linspace_length.
  split; [lia|]. f_equal. lia.
Qed.

(** X11. A [RectangularArray] of shape [(n0, n1)], or of shape [n] for
    [n0 = n1 = n], has [n0 * n1] transducers, as many positions and as many
    normals, each normal being the given one scaled to length one; its
    amplitudes are one and its phases zero; and its [transducer_size] is
    [spread] unless one is given. *)
Theorem rectangular_array_init {T : Type} `{Float T}
    (shape : RectangularArray.shape) (spread : T) (offset normal : Vec3 T)
    (rotation : T) (transducer_size : option T) :
  let self := RectangularArray.init shape spread offset normal rotation
                transducer_size in
  let array := RectangularArray.array self in
  let N := ((shape_pair shape).1 * (shape_pair shape).2)%nat in
  TransducerArray.num_transducers array = N /\
  length (TransducerArray.transducer_positions array) = N /\
  TransducerArray.transducer_normals array
  = replicate N (vdivs normal (fsqrt (vsum (vsq normal)))) /\
  TransducerArray.amplitudes array = replicate N (lit 1) /\
  TransducerArray.phases array = replicate N (lit 0) /\
  RectangularArray.transducer_size self = default spread transducer_size.
Proof.
  intros self array N. subst self array N.
  unfold RectangularArray.init, RectangularArray.grid_generator.
  fold (shape_pair shape).
  pose proof (rectangular_grid_lengths (shape_pair shape) spread offset normal
                rotation) as Hgrid. cbv zeta in Hgrid.
  destruct (rectangular_grid _ _ _ _ _) as [positions normals].
  cbn [fst snd] in Hgrid. destruct Hgrid as [Hlen ->].
  unfold TransducerArray.init. cbn. rewrite Hlen. auto 10.
Qed.

Lemma unit_unit (normal : Vec3 R) :
  vdot normal normal <> 0 -> vdot (unit normal) (unit normal) = 1.
Proof.
  intros Hn.
  exact (init_plane_normal_unit point_source 0 normal (cof 0) Hn).
Qed.

(** Unfolds the matrix operations of the exact instance. *)
Ltac mat_simpl :=
  cbn [vdotm mdot mdotv column madd mscale outer eye cross vneg unit
       lit fadd fsub fmul fdiv fopp fpow fsqrt fcos fsin feq0 ideal
       vadd vsub vmul vscale vmuls vdivs vsum vsq vdot vx vy vz] in *.

Lemma vdotm_mdotv (p v : Vec3 R) (M : Vec3 (Vec3 R)) :
  vdot (vdotm p M) v = vdot p (mdotv M v).
Proof.
  destruct p as [p0 p1 p2], v as [v0 v1 v2], M as [[] [] []]. mat_simpl. ring.
Qed.

Lemma vdotm_mdot (p : Vec3 R) (A B : Vec3 (Vec3 R)) :
  vdotm p (mdot A B) = vdotm (vdotm p A) B.
Proof.
  destruct p as [p0 p1 p2], A as [[] [] []], B as [[] [] []].
  apply Vec3_eq; mat_simpl; ring.
Qed.

(** The rotation about the unit vector [n] leaves [n] where it is. *)
Lemma rotation_about_normal_fixes (c s : R) (n : Vec3 R) :
  vdot n n = 1 ->
  let cross_product_matrix :=
    mkVec3 (mkVec3 0 (- vz n) (vy n)) (mkVec3 (vz n) 0 (- vx n))
           (mkVec3 (- vy n) (vx n) 0) in
  mdotv (madd (madd (mscale c eye) (mscale s cross_product_matrix))
              (mscale (1 - c) (outer n n))) n
  = n.
Proof.
  intros Hn K. subst K. destruct n as [n0 n1 n2]. mat_simpl.
  apply Vec3_eq; mat_simpl.
  - match goal with
    | |- ?a = _ =>
        replace a with (n0 + (1 - c) * n0 * (n0 * n0 + n1 * n1 + n2 * n2 - 1))
          by ring
    end. rewrite Hn. ring.
  - match goal with
    | |- ?a = _ =>
        replace a with (n1 + (1 - c) * n1 * (n0 * n0 + n1 * n1 + n2 * n2 - 1))
          by ring
    end. rewrite Hn. ring.
  - match goal with
    | |- ?a = _ =>
        replace a with (n2 + (1 - c) * n2 * (n0 * n0 + n1 * n1 + n2 * n2 - 1))
          by ring
    end. rewrite Hn. ring.
Qed.

(** The rotation about [n x e_z] by the angle between the unit vector [n]
    and [e_z] takes [n] to [e_z]. *)
Lemma rotation_to_plane (n : Vec3 R) :
  vdot n n = 1 -> vx n <> 0 \/ vy n <> 0 ->
  let rotation_vector := cross n (mkVec3 0 0 1) in
  let rotation_vector :=
    vdivs rotation_vector (sqrt (vsum (vsq rotation_vector))) in
  let cross_product_matrix :=
    mkVec3 (mkVec3 0 (- vz rotation_vector) (vy rotation_vector))
           (mkVec3 (vz rotation_vector) 0 (- vx rotation_vector))
           (mkVec3 (- vy rotation_vector) (vx rotation_vector) 0) in
  let cos := vz n in
  let sin := sqrt (1 - cos ^ 2) in
  mdotv (madd (madd (mscale cos eye) (mscale sin cross_product_matrix))
              (mscale (1 - cos) (outer rotation_vector rotation_vector))) n
  = mkVec3 0 0 1.
Proof.
  intros Hn Hxy. destruct n as [n0 n1 n2]. cbv zeta. mat_simpl.
  assert (Hpos : 0 < n0 * n0 + n1 * n1).
  { destruct Hxy as [H0 | H1].
    - pose proof (Rsqr_pos_lt n0 H0) as Hp. pose proof (Rle_0_sqr n1) as Hq.
      unfold Rsqr in *. lra.
    - pose proof (Rsqr_pos_lt n1 H1) as Hp. pose proof (Rle_0_sqr n0) as Hq.
      unfold Rsqr in *. lra. }
  replace ((n1 * 1 - n2 * 0) ^ 2 + (n2 * 0 - n0 * 1) ^ 2
           + (n0 * 0 - n1 * 0) ^ 2) with (n0 * n0 + n1 * n1) by ring.
  replace (1 - n2 ^ 2) with (n0 * n0 + n1 * n1) by (rewrite <- Hn; ring).
  pose proof (sqrt_lt_R0 _ Hpos) as Hs.
  pose proof (sqrt_sqrt _ (Rlt_le _ _ Hpos)) as Hss.
  set (s := sqrt (n0 * n0 + n1 * n1)) in *.
  assert (Hn2 : n2 * n2 = 1 - s * s) by (rewrite Hss, <- Hn; ring).
  apply Vec3_eq; mat_simpl.
  - field. lra.
  - field. lra.
  - match goal with
    | |- ?a = _ =>
        replace a with (n0 * n0 + n1 * n1 + n2 * n2) by (field; lra)
    end.
    exact Hn.
Qed.

Lemma vsub_vadd (a b : Vec3 R) : vsub (vadd a b) b = a.
Proof. destruct a, b. apply Vec3_eq; mat_simpl; ring. Qed.

(** The rotation of [rectangular_grid] takes the unit normal to the z
    axis, up to its sign when the normal is along that axis already. *)
Lemma rectangular_grid_rotation (normal : Vec3 R) (rotation : R)
    (p : Vec3 R) :
  vdot normal normal <> 0 -> vz p = 0 ->
  let normal := vdivs normal (fsqrt (vsum (vsq normal))) in
  let rotation_matrix :=
    if negb (feq0 (vx normal)) || negb (feq0 (vy normal)) then
      let rotation_vector := cross normal (mkVec3 (lit 0) (lit 0) (lit 1)) in
      let rotation_vector :=
        vdivs rotation_vector (fsqrt (vsum (vsq rotation_vector))) in
      let cross_product_matrix :=
        mkVec3 (mkVec3 (lit 0) (- vz rotation_vector) (vy rotation_vector))
               (mkVec3 (vz rotation_vector) (lit 0) (- vx rotation_vector))
               (mkVec3 (- vy rotation_vector) (vx rotation_vector) (lit 0)) in
      let cos := vz normal in
      let sin := fsqrt (lit 1 - cos ^ 2) in
      madd (madd (mscale cos eye) (mscale sin cross_product_matrix))
           (mscale (lit 1 - cos) (outer rotation_vector rotation_vector))
    else eye in
  let rotation_matrix :=
    if negb (feq0 rotation) then
      let cross_product_matrix :=
        mkVec3 (mkVec3 (lit 0) (- vz normal) (vy normal))
               (mkVec3 (vz normal) (lit 0) (- vx normal))
               (mkVec3 (- vy normal) (vx normal) (lit 0)) in
      let cos := fcos (- rotation) in
      let sin := fsin (- rotation) in
      mdot rotation_matrix
        (madd (madd (mscale cos eye) (mscale sin cross_product_matrix))
              (mscale (lit 1 - cos) (outer normal normal)))
    else rotation_matrix in
  vdot (vdotm p rotation_matrix) normal = 0.
Proof.
  intros Hn Hp. pose proof (unit_unit normal Hn) as Hunit.
  change (vdivs normal (fsqrt (vsum (vsq normal)))) with (unit normal).
  generalize dependent (unit normal). clear normal Hn. intros n Hunit.
  cbv zeta.
  match goal with
  | |- context [if negb (feq0 (vx n)) || negb (feq0 (vy n))
                then ?A else eye] =>
      set (M1 := if negb (feq0 (vx n)) || negb (feq0 (vy n))
                 then A else eye)
  end.
  assert (Hfirst : vdot (vdotm p M1) n = 0).
  { subst M1. rewrite vdotm_mdotv.
    destruct (negb (feq0 (vx n)) || negb (feq0 (vy n))) eqn:Hcond.
    - assert (Hxy : vx n <> 0 \/ vy n <> 0).
      { apply orb_true_iff in Hcond as [H0 | H0];
          [left | right]; apply negb_true_iff in H0;
          cbn [feq0 ideal] in H0; unfold Req0 in H0;
          destruct (Req_dec_T _ 0); congruence. }
      match goal with
      | |- vdot p (mdotv ?M n) = 0 =>
          replace (mdotv M n) with (mkVec3 0 0 1)
            by (symmetry; exact (rotation_to_plane n Hunit Hxy))
      end.
      destruct p as [p0 p1 p2]. mat_simpl. subst p2. ring.
    - apply orb_false_iff in Hcond as [H0 H1].
      apply negb_false_iff in H0, H1. cbn [feq0 ideal] in *.
      unfold Req0 in *.
      destruct (Req_dec_T (vx n) 0) as [Hx|]; [|discriminate].
      destruct (Req_dec_T (vy n) 0) as [Hy|]; [|discriminate].
      destruct p as [p0 p1 p2], n as [n0 n1 n2]. mat_simpl. subst. ring. }
  destruct (negb (feq0 rotation)).
  - rewrite vdotm_mdot, vdotm_mdotv.
    match goal with
    | |- vdot _ (mdotv ?B n) = 0 =>
        replace (mdotv B n) with n
          by (symmetry;
              exact (rotation_about_normal_fixes (cos (- rotation))
                       (sin (- rotation)) n Hunit))
    end.
    exact Hfirst.
  - exact Hfirst.
Qed.

(** X12. For a normal other than zero, every position of
    [rectangular_grid], and so of a [RectangularArray], is in the plane
    through [offset] whose normal is the given one, whatever the rotation. *)
Theorem rectangular_grid_plane (shape : nat * nat) (spread : R)
    (offset normal : Vec3 R) (rotation : R) :
  vdot normal normal <> 0 ->
  Forall (fun position => vdot (vsub position offset) (unit normal) = 0)
    (rectangular_grid shape spread offset normal rotation).1.
Proof.
  intros Hn. apply Forall_forall. intros position Hin.
  unfold rectangular_grid in Hin. cbv zeta in Hin.
  cbn [fst] in Hin. apply list_elem_of_fmap in Hin as (q & -> & Hq).
  apply meshgrid_elem_of in Hq as (x & y & _ & _ & ->).
  rewrite vsub_vadd.
  apply (rectangular_grid_rotation normal rotation (mkVec3 x y (lit 0)) Hn).
  reflexivity.
Qed.

Lemma rectangular_grid_plane_witness :
  Forall (fun position =>
            vdot (vsub position (mkVec3 0 0 1)) (unit (mkVec3 1 2 2)) = 0)
    (rectangular_grid (2, 3)%nat 1 (mkVec3 0 0 1) (mkVec3 1 2 2) 1).1.
Proof.
  apply (rectangular_grid_plane (2, 3)%nat 1 (mkVec3 0 0 1) (mkVec3 1 2 2) 1).
  simpl. lra.
Defined.

(** ** The layout of the grid *)

Lemma rodrigues_isometry (c s : R) (v p : Vec3 R) :
  vdot v v = 1 -> c * c + s * s = 1 ->
  let cross_product_matrix :=
    mkVec3 (mkVec3 0 (- vz v) (vy v)) (mkVec3 (vz v) 0 (- vx v))
           (mkVec3 (- vy v) (vx v) 0) in
  let M := madd (madd (mscale c eye) (mscale s cross_product_matrix))
                (mscale (1 - c) (outer v v)) in
  vdot (vdotm p M) (vdotm p M) = vdot p p.
Proof.
  intros Hv Hcs K M. subst K M.
  destruct v as [v0 v1 v2], p as [p0 p1 p2]. mat_simpl. nsatz.
Qed.

Lemma vdotm_eye (p : Vec3 R) : vdotm p eye = p.
Proof. destruct p as [p0 p1 p2]. apply Vec3_eq; mat_simpl; ring. Qed.

(** The rotation of [rectangular_grid] keeps lengths. *)
Lemma rectangular_grid_isometry (n : Vec3 R) (rotation : R) (p : Vec3 R) :
  vdot n n = 1 ->
  let rotation_matrix :=
    if negb (feq0 (vx n)) || negb (feq0 (vy n)) then
      let rotation_vector := cross n (mkVec3 (lit 0) (lit 0) (lit 1)) in
      let rotation_vector :=
        vdivs rotation_vector (fsqrt (vsum (vsq rotation_vector))) in
      let cross_product_matrix :=
        mkVec3 (mkVec3 (lit 0) (- vz rotation_vector) (vy rotation_vector))
               (mkVec3 (vz rotation_vector) (lit 0) (- vx rotation_vector))
               (mkVec3 (- vy rotation_vector) (vx rotation_vector) (lit 0)) in
      let cos := vz n in
      let sin := fsqrt (lit 1 - cos ^ 2) in
      madd (madd (mscale cos eye) (mscale sin cross_product_matrix))
           (mscale (lit 1 - cos) (outer rotation_vector rotation_vector))
    else eye in
  let rotation_matrix :=
    if negb (feq0 rotation) then
      let cross_product_matrix :=
        mkVec3 (mkVec3 (lit 0) (- vz n) (vy n))
               (mkVec3 (vz n) (lit 0) (- vx n))
               (mkVec3 (- vy n) (vx n) (lit 0)) in
      let cos := fcos (- rotation) in
      let sin := fsin (- rotation) in
      mdot rotation_matrix
        (madd (madd (mscale cos eye) (mscale sin cross_product_matrix))
              (mscale (lit 1 - cos) (outer n n)))
    else rotation_matrix in
  vdot (vdotm p rotation_matrix) (vdotm p rotation_matrix) = vdot p p.
Proof.
  intros Hunit. cbv zeta.
  match goal with
  | |- context [if negb (feq0 (vx n)) || negb (feq0 (vy n))
                then ?A else eye] =>
      set (M1 := if negb (feq0 (vx n)) || negb (feq0 (vy n))
                 then A else eye)
  end.
  assert (Hfirst : forall q, vdot (vdotm q M1) (vdotm q M1) = vdot q q).
  { intros q. subst M1.
    destruct (negb (feq0 (vx n)) || negb (feq0 (vy n))) eqn:Hcond;
      [|rewrite vdotm_eye; reflexivity].
    assert (Hxy : vx n <> 0 \/ vy n <> 0).
    { apply orb_true_iff in Hcond as [H0 | H0];
        [left | right]; apply negb_true_iff in H0;
        cbn [feq0 ideal] in H0; unfold Req0 in H0;
        destruct (Req_dec_T _ 0); congruence. }
    set (w := cross n (mkVec3 (lit 0) (lit 0) (lit 1))).
    assert (Hw : vdot w w = vx n * vx n + vy n * vy n)
      by (subst w; destruct n; mat_simpl; ring).
    assert (Hpos : 0 < vx n * vx n + vy n * vy n).
    { pose proof (Rle_0_sqr (vx n)) as Hx. pose proof (Rle_0_sqr (vy n)) as Hy.
      unfold Rsqr in *.
      destruct Hxy as [H0 | H0]; apply Rsqr_pos_lt in H0; unfold Rsqr in H0;
        lra. }
    apply (rodrigues_isometry (vz n) (sqrt (1 - vz n ^ 2)) (unit w) q).
    - apply unit_unit. rewrite Hw. lra.
    - rewrite sqrt_sqrt; [ring|].
      destruct n as [n0 n1 n2]. mat_simpl. nra. }
  destruct (negb (feq0 rotation)); [|apply Hfirst].
  rewrite vdotm_mdot.
  pose proof (sin2_cos2 (- rotation)) as Hsc. unfold Rsqr in Hsc.
  rewrite <- (Hfirst p).
  exact (rodrigues_isometry (cos (- rotation)) (sin (- rotation)) n
           (vdotm p M1) Hunit ltac:(lra)).
Qed.

Lemma linspace_centered_seq (n : nat) :
  linspace (- lit (INR n - 1) / lit 2)%fl (lit (INR n - 1) / lit 2)%fl n
  = (fun j => INR j - (INR n - 1) / 2) <$> seq 0 n.
Proof.
  apply list_eq. intros j. destruct (decide (j < n)%nat) as [Hj | Hj].
  - rewrite linspace_centered by exact Hj.
    rewrite list_lookup_fmap, lookup_seq_lt by exact Hj. reflexivity.
  - rewrite !lookup_ge_None_2; [reflexivity | |].
    + rewrite length_fmap, length_seq. lia.
    + rewrite linspace_length. lia.
Qed.

Lemma bind_fmap_l {A B C : Type} (f : A -> B) (k : B -> list C) (l : list A) :
  (f <$> l) ≫= k = l ≫= (fun a => k (f a)).
Proof.
  induction l as [|a l IH]; [reflexivity|].
  cbn [fmap list_fmap mbind list_bind]. f_equal. exact IH.
Qed.

(** The flattened mesh of [rectangular_grid] is [grid_points]. *)
Lemma mesh_grid_points (shape : nat * nat) (spread : R) :
  (yi ← (fun v => v * spread)%fl
        <$> linspace (- lit (INR shape.2 - 1) / lit 2)%fl
              (lit (INR shape.2 - 1) / lit 2)%fl shape.2;
   xj ← (fun v => v * spread)%fl
        <$> linspace (- lit (INR shape.1 - 1) / lit 2)%fl
              (lit (INR shape.1 - 1) / lit 2)%fl shape.1;
   [mkVec3 xj yi (lit 0)])
  = grid_points shape spread.
Proof.
  rewrite !linspace_centered_seq. unfold grid_points.
  rewrite <- !list_fmap_compose, bind_fmap_l.
  apply list_bind_ext; [|reflexivity]. intros i.
  rewrite bind_fmap_l. reflexivity.
Qed.

Lemma vdotm_vsub (p q : Vec3 R) (M : Vec3 (Vec3 R)) (offset : Vec3 R) :
  vsub (vadd (vdotm p M) offset) (vadd (vdotm q M) offset)
  = vdotm (vsub p q) M.
Proof.
  destruct p as [p0 p1 p2], q as [q0 q1 q2], M as [[] [] []], offset.
  apply Vec3_eq; mat_simpl; ring.
Qed.

(** X13. [rectangular_grid] with a normal along the z axis and no rotation
    returns the points of [grid_points], moved by [offset]: the elements are
    [spread] apart along x and along y and centred on [offset]. *)
Theorem rectangular_grid_flat (shape : nat * nat) (spread : R)
    (offset : Vec3 R) (c : R) :
  c <> 0 ->
  (rectangular_grid shape spread offset (mkVec3 0 0 c) 0).1
  = (fun q => vadd q offset) <$> grid_points shape spread.
Proof.
  intros Hc. unfold rectangular_grid. cbv zeta. cbn [fst].
  rewrite mesh_grid_points.
  assert (Hx : feq0 (vx (vdivs (mkVec3 0 0 c)
                           (fsqrt (vsum (vsq (mkVec3 0 0 c)))))) = true).
  { mat_simpl. unfold Req0. destruct (Req_dec_T _ 0) as [|Hne]; [reflexivity|].
    exfalso. apply Hne. unfold Rdiv. ring. }
  assert (H0 : feq0 (0 : R) = true).
  { cbn [feq0 ideal]. unfold Req0.
    destruct (Req_dec_T 0 0); [reflexivity | contradiction]. }
  cbn [vx vy vdivs] in *. rewrite Hx, H0. cbn [negb orb].
  apply list_fmap_ext. intros _ q _. rewrite vdotm_eye. reflexivity.
Qed.

(** X14. For a normal other than zero the positions [rectangular_grid]
    returns are the points of [grid_points], as many and in their order, up
    to a rigid motion: any two positions are as far from each other as the
    two points of [grid_points] they come from. *)
Theorem rectangular_grid_rigid (shape : nat * nat) (spread : R)
    (offset normal : Vec3 R) (rotation : R) :
  vdot normal normal <> 0 ->
  let positions :=
    (rectangular_grid shape spread offset normal rotation).1 in
  length positions = length (grid_points shape spread) /\
  forall a b p_a p_b q_a q_b,
    positions !! a = Some p_a -> positions !! b = Some p_b ->
    grid_points shape spread !! a = Some q_a ->
    grid_points shape spread !! b = Some q_b ->
    dist p_a p_b = dist q_a q_b.
Proof.
  intros Hn positions. subst positions.
  unfold rectangular_grid. cbv zeta. cbn [fst]. rewrite mesh_grid_points.
  split; [apply length_fmap|].
  intros a b p_a p_b q_a q_b Hpa Hpb Hqa Hqb.
  rewrite list_lookup_fmap, Hqa in Hpa. rewrite list_lookup_fmap, Hqb in Hpb.
  injection Hpa as <-. injection Hpb as <-.
  unfold dist. f_equal. rewrite vdotm_vsub.
  pose proof (rectangular_grid_isometry (unit normal) rotation (vsub q_b q_a)
                (unit_unit normal Hn)) as Hiso.
  cbv zeta in Hiso. unfold unit in Hiso.
  transitivity (vdot (vsub q_b q_a) (vsub q_b q_a));
    [|destruct q_a, q_b; mat_simpl; ring].
  rewrite <- Hiso.
  match goal with
  | |- vsum (vsq ?v) = vdot ?w ?w =>
      change w with v; generalize v
  end.
  intros v. destruct v. mat_simpl. ring.
Qed.

Lemma rectangular_grid_flat_witness :
  (rectangular_grid (2, 1)%nat 1 (mkVec3 0 0 1) (mkVec3 0 0 2) 0).1
  = (fun q => vadd q (mkVec3 0 0 1)) <$> grid_points (2, 1)%nat 1.
Proof.
  apply (rectangular_grid_flat (2, 1)%nat 1 (mkVec3 0 0 1) 2). lra.
Defined.

Lemma rectangular_grid_rigid_witness :
  length (rectangular_grid (2, 3)%nat 1 (mkVec3 0 0 1) (mkVec3 1 2 2) 1).1
  = length (grid_points (2, 3)%nat 1).
Proof.
  refine (proj1 (rectangular_grid_rigid (2, 3)%nat 1 (mkVec3 0 0 1)
                   (mkVec3 1 2 2) 1 _)).
  simpl. lra.
Defined.

(** ** The doublesided grids *)

Lemma unit_of_unit (n : Vec3 R) : vdot n n = 1 -> unit n = n.
Proof.
  intros Hn. unfold unit. destruct n as [n0 n1 n2]. mat_simpl.
  replace (n0 ^ 2 + n1 ^ 2 + n2 ^ 2) with 1 by (rewrite <- Hn; ring).
  rewrite sqrt_1. apply Vec3_eq; mat_simpl; field.
Qed.

Lemma vneg_unit (n : Vec3 R) : vdot n n = 1 -> vdot (vneg n) (vneg n) = 1.
Proof. intros Hn. rewrite <- Hn. destruct n. mat_simpl. ring. Qed.

(** The grid of a unit normal [n] or of [- n], at distance [t] along [n]
    from [offset]. *)
Lemma rectangular_grid_plane_at (shape : nat * nat) (spread : R)
    (offset n : Vec3 R) (rotation t : R) (m : Vec3 R) :
  vdot n n = 1 -> m = n \/ m = vneg n ->
  let grid := rectangular_grid shape spread (vadd offset (vscale t n)) m
                rotation in
  length grid.1 = (shape.1 * shape.2)%nat /\
  Forall (fun position => vdot (vsub position offset) n = t) grid.1 /\
  grid.2 = replicate (shape.1 * shape.2) m.
Proof.
  intros Hn Hm grid. subst grid.
  assert (Hunit : vdot m m = 1)
    by (destruct Hm as [-> | ->]; [exact Hn | apply vneg_unit, Hn]).
  destruct (rectangular_grid_lengths shape spread (vadd offset (vscale t n)) m
              rotation) as [Hlen Hnormals].
  split; [exact Hlen|]. split.
  - pose proof (rectangular_grid_plane shape spread
                  (vadd offset (vscale t n)) m rotation
                  ltac:(rewrite Hunit; lra)) as Hplane.
    rewrite (unit_of_unit m Hunit) in Hplane.
    eapply Forall_impl; [exact Hplane|]. cbv beta. intros p Hp.
    destruct p as [p0 p1 p2], offset as [o0 o1 o2], n as [n0 n1 n2].
    destruct Hm as [-> | ->]; mat_simpl.
    + replace ((p0 - o0) * n0 + (p1 - o1) * n1 + (p2 - o2) * n2)
        with ((p0 - (o0 + t * n0)) * n0 + (p1 - (o1 + t * n1)) * n1
              + (p2 - (o2 + t * n2)) * n2
              + t * (n0 * n0 + n1 * n1 + n2 * n2)) by ring.
      rewrite Hp, Hn. ring.
    + replace ((p0 - o0) * n0 + (p1 - o1) * n1 + (p2 - o2) * n2)
        with (- ((p0 - (o0 + t * n0)) * - n0 + (p1 - (o1 + t * n1)) * - n1
                 + (p2 - (o2 + t * n2)) * - n2)
              + t * (n0 * n0 + n1 * n1 + n2 * n2)) by ring.
      rewrite Hp, Hn. ring.
  - rewrite Hnormals. f_equal. exact (unit_of_unit m Hunit).
Qed.

(** X15. For a normal other than zero, the grid of a doublesided
    rectangular array has twice the elements of one side: first those of a
    side in the plane at [- separation / 2] along the unit normal from
    [offset], with that normal, then those of the other side in the plane at
    [separation / 2], with the opposite normal. *)
Theorem doublesided_grid_planes (shape : RectangularArray.shape)
    (spread separation : R) (offset normal : Vec3 R) (rotation : R) :
  vdot normal normal <> 0 ->
  let n := unit normal in
  let N := ((shape_pair shape).1 * (shape_pair shape).2)%nat in
  exists pos_1 pos_2,
    DoublesidedArray.grid_generator
      (RectangularArray.grid_generator shape spread) separation offset
      normal rotation
    = (pos_1 ++ pos_2, replicate N n ++ replicate N (vneg n)) /\
    length pos_1 = N /\ length pos_2 = N /\
    Forall (fun p => vdot (vsub p offset) n = - separation / 2) pos_1 /\
    Forall (fun p => vdot (vsub p offset) n = separation / 2) pos_2.
Proof.
  intros Hn n N. pose proof (unit_unit normal Hn) as Hunit. fold n in Hunit.
  unfold DoublesidedArray.grid_generator,
    RectangularArray.grid_generator. cbv zeta.
  fold (shape_pair shape). change (vdivs normal _) with n. clearbody n.
  destruct (rectangular_grid_plane_at (shape_pair shape) spread offset n
              rotation (- separation / 2) n Hunit (or_introl eq_refl))
    as (Hlen1 & Hplane1 & Hnormals1).
  destruct (rectangular_grid_plane_at (shape_pair shape) spread offset n
              (- rotation) (separation / 2) (vneg n) Hunit
              (or_intror eq_refl))
    as (Hlen2 & Hplane2 & Hnormals2).
  replace (vsub offset (vscale (lit 0.5 * separation)%fl n))
    with (vadd offset (vscale (- separation / 2) n)).
  2: { destruct offset, n; apply Vec3_eq; cbn; lra. }
  replace (vadd offset (vscale (lit 0.5 * separation)%fl n))
    with (vadd offset (vscale (separation / 2) n))
    by (destruct offset, n; apply Vec3_eq; cbn; lra).
  cbn [fopp ideal].
  destruct (rectangular_grid _ _ (vadd offset (vscale (- separation / 2) n))
              _ _) as [pos_1 norm_1].
  destruct (rectangular_grid _ _ (vadd offset (vscale (separation / 2) n))
              _ _) as [pos_2 norm_2].
  cbn [fst snd] in *. subst norm_1 norm_2.
  exists pos_1, pos_2. auto.
Qed.

Lemma doublesided_grid_planes_witness :
  exists pos_1 pos_2,
    DoublesidedArray.grid_generator
      (RectangularArray.grid_generator (RectangularArray.Int 2) 1) 4
      (mkVec3 0 0 0) (mkVec3 0 0 3) 0
    = (pos_1 ++ pos_2,
       replicate 4 (unit (mkVec3 0 0 3))
       ++ replicate 4 (vneg (unit (mkVec3 0 0 3)))) /\
    length pos_1 = 4%nat /\ length pos_2 = 4%nat /\
    Forall (fun p => vdot (vsub p (mkVec3 0 0 0)) (unit (mkVec3 0 0 3))
                     = - 4 / 2) pos_1 /\
    Forall (fun p => vdot (vsub p (mkVec3 0 0 0)) (unit (mkVec3 0 0 3))
                     = 4 / 2) pos_2.
Proof.
  apply (doublesided_grid_planes (RectangularArray.Int 2) 1 4 (mkVec3 0 0 0)
           (mkVec3 0 0 3) 0).
  simpl. lra.
Defined.

(** X16. The earlier [double_sided_grid] places the first side in the plane
    through [offset] and the second in the plane at [separation] along the
    unit normal from it, with the opposite normal. *)
Theorem double_sided_grid_planes (shape : nat * nat)
    (spread separation : R) (offset normal : Vec3 R) (rotation : R) :
  vdot normal normal <> 0 ->
  let n := unit normal in
  let N := (shape.1 * shape.2)%nat in
  exists pos_1 pos_2,
    double_sided_grid (rectangular_grid shape spread) separation offset
      normal rotation
    = (pos_1 ++ pos_2, replicate N n ++ replicate N (vneg n)) /\
    length pos_1 = N /\ length pos_2 = N /\
    Forall (fun p => vdot (vsub p offset) n = 0) pos_1 /\
    Forall (fun p => vdot (vsub p offset) n = separation) pos_2.
Proof.
  intros Hn n N. pose proof (unit_unit normal Hn) as Hunit. fold n in Hunit.
  unfold double_sided_grid. cbv zeta. change (vdivs normal _) with n.
  clearbody n.
  destruct (rectangular_grid_plane_at shape spread offset n rotation 0 n
              Hunit (or_introl eq_refl)) as (Hlen1 & Hplane1 & Hnormals1).
  destruct (rectangular_grid_plane_at shape spread offset n (- rotation)
              separation (vneg n) Hunit (or_intror eq_refl))
    as (Hlen2 & Hplane2 & Hnormals2).
  replace (vadd offset (vscale 0 n)) with offset in *
    by (destruct offset, n; apply Vec3_eq; mat_simpl; ring).
  cbn [fopp ideal].
  destruct (rectangular_grid _ _ offset _ _) as [pos_1 norm_1].
  destruct (rectangular_grid _ _ (vadd offset (vscale separation n)) _ _)
    as [pos_2 norm_2].
  cbn [fst snd] in *. subst norm_1 norm_2.
  exists pos_1, pos_2. auto.
Qed.

Lemma double_sided_grid_planes_witness :
  exists pos_1 pos_2,
    double_sided_grid (rectangular_grid (2, 2)%nat 1) 4 (mkVec3 0 0 0)
      (mkVec3 0 0 3) 0
    = (pos_1 ++ pos_2,
       replicate 4 (unit (mkVec3 0 0 3))
       ++ replicate 4 (vneg (unit (mkVec3 0 0 3)))) /\
    length pos_1 = 4%nat /\ length pos_2 = 4%nat /\
    Forall (fun p => vdot (vsub p (mkVec3 0 0 0)) (unit (mkVec3 0 0 3)) = 0)
      pos_1 /\
    Forall (fun p => vdot (vsub p (mkVec3 0 0 0)) (unit (mkVec3 0 0 3)) = 4)
      pos_2.
Proof.
  apply (double_sided_grid_planes (2, 2)%nat 1 4 (mkVec3 0 0 0)
           (mkVec3 0 0 3) 0).
  simpl. lra.
Defined.

(** ** The properties of air *)

(** X17. For a temperature above absolute zero and a positive pressure,
    [update_air_properties] sets a positive speed of sound and a density
    that satisfy the law of ideal gases, [pressure = rho R_spec T], and
    [c^2 rho = gamma pressure]. A pressure without a temperature raises, and
    without arguments nothing changes. *)
Theorem update_air_properties_ideal_gas (g : Air.globals R)
    (temperature pressure : R) :
  -273.15 < temperature -> 0 < pressure ->
  (exists g',
     Air.update_air_properties (Some temperature) (Some pressure) g = Some g' /\
     0 < Air.c_air g' /\
     Air.rho_air g' * 287.058 * (temperature + 273.15) = pressure /\
     Air.c_air g' ^ 2 * Air.rho_air g' = 1.4 * pressure) /\
  Air.update_air_properties None (Some pressure) g = None /\
  Air.update_air_properties None None g = Some g.
Proof.
  intros Ht Hp. split; [|split; reflexivity].
  eexists. split; [reflexivity|].
  cbn [Air.c_air Air.rho_air lit fadd fmul fdiv fsqrt ideal].
  assert (HT : 0 < temperature + 273.15) by lra.
  assert (Hpos : 0 < 1.4 * 287.058 * (temperature + 273.15)) by nra.
  split; [apply sqrt_lt_R0, Hpos|]. split.
  - field. lra.
  - rewrite pow2_sqrt by lra. field. lra.
Qed.

Lemma update_air_properties_ideal_gas_witness :
  Air.update_air_properties None (Some 101325) (Air.mk_globals 343 1.2)
  = None.
Proof.
  refine (proj1 (proj2 (update_air_properties_ideal_gas
                          (Air.mk_globals 343 1.2) 20 101325 _ _))); lra.
Defined.

(** ** [phases_amplitudes] *)

(** X18. Setting [phases_amplitudes] to twice [num_transducers] values
    succeeds and the values read back are those set, the first half as
    phases and the second as amplitudes; a number of values that is neither
    that nor [num_transducers] raises. *)
Theorem phases_amplitudes_round_trip {T : Type} `{Float T}
    (self : TransducerArray.attrs T) (value : list T) :
  let N := TransducerArray.num_transducers self in
  (length value = 2 * N)%nat ->
  (exists self',
     LegacyTransducerArray.set_phases_amplitudes value self = Some self' /\
     LegacyTransducerArray.phases_amplitudes self' = value /\
     length (TransducerArray.phases self') = N /\
     length (TransducerArray.amplitudes self') = N /\
     TransducerArray.num_transducers self' = N) /\
  (forall other : list T,
     length other <> (2 * N)%nat -> length other <> N ->
     LegacyTransducerArray.set_phases_amplitudes other self = None).
Proof.
  intros N Hlen. subst N. split.
  - unfold LegacyTransducerArray.set_phases_amplitudes. cbv zeta.
    rewrite decide_True by exact Hlen.
    eexists. split; [reflexivity|].
    unfold LegacyTransducerArray.phases_amplitudes. cbn.
    rewrite take_drop, length_take, length_drop. repeat split; lia.
  - intros other H2 H1.
    unfold LegacyTransducerArray.set_phases_amplitudes. cbv zeta.
    rewrite decide_False by exact H2. rewrite decide_False by exact H1.
    reflexivity.
Qed.

Lemma phases_amplitudes_round_trip_witness :
  exists self',
    LegacyTransducerArray.set_phases_amplitudes [0; PI; 1; 2] two_transducers
    = Some self' /\
    LegacyTransducerArray.phases_amplitudes self' = [0; PI; 1; 2].
Proof.
  destruct (proj1 (phases_amplitudes_round_trip two_transducers [0; PI; 1; 2]
                     eq_refl)) as (self' & Hset & Hget & _).
  exists self'. split; [exact Hset | exact Hget].
Defined.

(** ** [calculate_pressure] *)

(** The entry [''] of [spatial_derivatives] is [greens_function]. *)
Lemma spatial_derivatives_field j0 j1 cls (self : TransducerModel.attrs R)
    source_position source_normal p orders :
  source_class j0 j1 cls -> (0 <= orders <= 3)%Z ->
  exists sd,
    TransducerModel.spatial_derivatives cls self source_position
      source_normal p orders = Some sd /\
    (forall key, key ∈ keys_upto orders -> is_Some (sd !! key)) /\
    sd !! "" = Some (TransducerModel.greens_function cls self source_position
                       source_normal p).
Proof.
  intros Hcls Hord.
  pose proof (fun key => source_class_has_keys j0 j1 cls self source_position
                source_normal p orders key Hcls) as HD.
  destruct (product_rule_leibniz cls self source_position source_normal p
              orders Hord HD) as (sd & Hsd & Hleib & _).
  exists sd. split; [exact Hsd|]. split.
  - intros key Hin.
    apply (spatial_derivatives_keys cls self source_position source_normal p
             orders sd key Hsd), Hin.
  - rewrite (Hleib (0, 0, 0)%nat "") by (simpl; lia || reflexivity).
    unfold leibniz, sub_indices; py_simpl. rewrite lookup_fmap.
    rewrite spherical_derivatives_0.
    rewrite (source_class_0 j0 j1) by exact Hcls. py_simpl.
    unfold TransducerModel.greens_function.
    f_equal. apply Cx_eq; ideal_simpl; ring.
Qed.

(** The loop that adds the terms, one after the other. *)
Lemma foldl_add_terms {T : Type} `{Float T} (term : nat -> option (Cx T))
    (l : list nat) (z : Cx T) :
  foldl (fun p idx => p ← p; t ← term idx; Some (p + t)%cx) (Some z) l
  = (ts ← mapM term l; Some (foldl cadd z ts)).
Proof.
  revert z. induction l as [|idx l IH]; intros z; [reflexivity|].
  cbn [foldl mapM mbind option_bind].
  destruct (term idx) as [t|]; cbn [mbind option_bind].
  - rewrite IH. destruct (mapM term l); reflexivity.
  - clear. induction l as [|i l IH]; [reflexivity | exact IH].
Qed.

(** X19. For a transducer model of the source and an array with
    [num_transducers] amplitudes, phases, positions and normals,
    [calculate_pressure] at a point is the sum over the transducers of the
    complex amplitude of each times its entry [''] of
    [spatial_derivatives] at the point, and for one transducer it is the
    term of that transducer. *)
Theorem calculate_pressure_superposition (j0 j1 : R -> R)
    (cls : TransducerModel.class R) (transducer_model : TransducerModel.attrs R)
    (empty : Cx R) (self : TransducerArray.attrs R) (point : Vec3 R)
    (orders : Z) :
  let N := TransducerArray.num_transducers self in
  source_class j0 j1 cls -> (0 <= orders <= 3)%Z ->
  length (TransducerArray.amplitudes self) = N ->
  length (TransducerArray.phases self) = N ->
  length (TransducerArray.transducer_positions self) = N ->
  length (TransducerArray.transducer_normals self) = N ->
  exists weights derivatives cells,
    LegacyTransducerArray.complex_amplitudes self = Some weights /\
    LegacyTransducerArray.spatial_derivatives
      (TransducerModel.spatial_derivatives cls transducer_model) empty self
      (LegacyTransducerArray.Point point) orders = Some derivatives /\
    derivatives !! "" = Some (LegacyTransducerArray.Arr1 cells) /\
    length weights = N /\ length cells = N /\
    LegacyTransducerArray.calculate_pressure cls transducer_model self point
      None
    = Some (foldl cadd (cof 0) (zip_with cmul weights cells)) /\
    forall idx,
      (idx < N)%nat ->
      LegacyTransducerArray.calculate_pressure cls transducer_model self
        point (Some idx)
      = (w ← weights !! idx; c ← cells !! idx; Some (w * c)%cx).
Proof.
  intros N Hcls Hord Ha Hph Hpos Hnrm.
  destruct (legacy_spatial_derivatives_last
              (TransducerModel.spatial_derivatives cls transducer_model)
              empty self (LegacyTransducerArray.Point point) orders Hpos Hnrm)
    as (derivatives & Hrun & Hkeys & Hlast).
  { intros position normal p.
    destruct (spatial_derivatives_field j0 j1 cls transducer_model position
                normal p orders Hcls Hord) as (sd & Hsd & Hk & _).
    eauto. }
  destruct (proj2 (Hkeys "") ltac:(apply elem_of_cons; left; reflexivity)) as [a Ha0].
  pose proof (Hlast "" a Ha0) as Hfilled. unfold transducer_last in Hfilled.
  destruct a as [cells|]; [|contradiction].
  destruct Hfilled as [Hclen Hcells]. fold N in Hclen, Hcells.
  exists (zip_with TransducerArray.polar (TransducerArray.amplitudes self)
            (TransducerArray.phases self)), derivatives, cells.
  assert (Hterm : forall idx, (idx < N)%nat ->
            LegacyTransducerArray.calculate_pressure cls transducer_model self
              point (Some idx)
            = (w ← zip_with TransducerArray.polar
                     (TransducerArray.amplitudes self)
                     (TransducerArray.phases self) !! idx;
               c ← cells !! idx; Some (w * c)%cx)).
  { intros idx Hidx. unfold LegacyTransducerArray.calculate_pressure.
    destruct (lookup_lt_is_Some_2 (TransducerArray.amplitudes self) idx
                ltac:(lia)) as [am Eam].
    destruct (lookup_lt_is_Some_2 (TransducerArray.phases self) idx
                ltac:(lia)) as [ph Eph].
    destruct (lookup_lt_is_Some_2 (TransducerArray.transducer_positions self)
                idx ltac:(lia)) as [position Epos].
    destruct (lookup_lt_is_Some_2 (TransducerArray.transducer_normals self)
                idx ltac:(lia)) as [normal Enrm].
    rewrite lookup_zip_with, Eam, Eph, Epos, Enrm.
    rewrite (Hcells idx position normal Hidx Epos Enrm).
    destruct (spatial_derivatives_field j0 j1 cls transducer_model position
                normal point orders Hcls Hord) as (sd & Hsd & _ & H0).
    rewrite Hsd. cbn [mbind option_bind]. rewrite H0. reflexivity. }
  split; [apply broadcast2_same_length; lia|].
  split; [exact Hrun|]. split; [exact Ha0|].
  split; [rewrite length_zip_with; lia|]. split; [exact Hclen|].
  split; [|exact Hterm].
  change (LegacyTransducerArray.calculate_pressure cls transducer_model self
            point None)
    with (foldl (fun p idx =>
                   p ← p;
                   t ← LegacyTransducerArray.calculate_pressure cls
                         transducer_model self point (Some idx);
                   Some (p + t)%cx)
            (Some (cof (lit 0))) (seq 0 N)).
  rewrite foldl_add_terms.
  replace (mapM _ (seq 0 N))
    with (Some (zip_with cmul
                  (zip_with TransducerArray.polar
                     (TransducerArray.amplitudes self)
                     (TransducerArray.phases self)) cells));
    [reflexivity|].
  symmetry. apply mapM_Some, Forall2_same_length_lookup.
  split; [rewrite length_seq, !length_zip_with; lia|].
  intros i idx y Hi Hy. apply lookup_seq in Hi as [-> Hi]. cbv beta.
  rewrite Nat.add_0_l.
  rewrite (Hterm i Hi). rewrite lookup_zip_with in Hy. exact Hy.
Qed.

Lemma calculate_pressure_superposition_witness :
  exists weights derivatives cells,
    LegacyTransducerArray.complex_amplitudes two_transducers = Some weights /\
    LegacyTransducerArray.spatial_derivatives
      (TransducerModel.spatial_derivatives TransducerModel.cls point_source)
      (cof 0) two_transducers (LegacyTransducerArray.Point (mkVec3 0 0 1)) 0
    = Some derivatives /\
    derivatives !! "" = Some (LegacyTransducerArray.Arr1 cells) /\
    LegacyTransducerArray.calculate_pressure TransducerModel.cls point_source
      two_transducers (mkVec3 0 0 1) None
    = Some (foldl cadd (cof 0) (zip_with cmul weights cells)).
Proof.
  destruct (calculate_pressure_superposition cos sin TransducerModel.cls
              point_source (cof 0) two_transducers (mkVec3 0 0 1) 0
              (class_TransducerModel cos sin) ltac:(lia) eq_refl eq_refl
              eq_refl eq_refl)
    as (weights & derivatives & cells & Hw & Hd & Hc & _ & _ & Hp & _).
  exists weights, derivatives, cells. auto.
Defined.

Lemma eval_monomial_partial (a : axis) (m : monomial) (p : Vec3 R) :
  derivable_pt_lim (fun t => eval_monomial m (with_coord a p t)) (coord a p)
    (eval_monomial (pderiv a m) p).
Proof.
  destruct m as [c [[i j] l]], p as [x y z].
  destruct a; unfold eval_monomial, pderiv, with_coord, coord;
    cbn [vx vy vz]; (eapply dpl_val; [dpl | cbv beta; ring]).
Qed.

Lemma eval_partial (a : axis) (poly : list monomial) (p : Vec3 R) :
  partial_at a (fun q => cof (eval poly q)) p
    (cof (eval (pderiv a <$> poly) p)).
Proof.
  unfold partial_at, Cderiv. cbn [re im cof lit ideal].
  split; [|apply dpl_const].
  induction poly as [|m poly IH]; [exact (dpl_const 0 (coord a p))|].
  cbn [eval foldr fmap list_fmap].
  exact (dpl_plus _ _ _ _ _ (eval_monomial_partial a m p) IH).
Qed.

(** The polynomial [pderivs alpha poly] is the iterated partial derivative
    of [poly] along [alpha]. *)
Lemma eval_is_partial (alpha : list axis) (poly : list monomial)
    (p : Vec3 R) :
  is_partial alpha (fun q => cof (eval poly q)) p
    (cof (eval (pderivs alpha poly) p)).
Proof.
  revert p. induction alpha as [|a alpha IH]; intros p; [reflexivity|].
  cbn [is_partial pderivs foldr].
  exists (fun q => cof (eval (pderivs alpha poly) q)). split.
  - exists 1. split; [lra|]. intros q _. apply IH.
  - apply eval_partial.
Qed.

Lemma directivity_derivatives_stencil (D : Vec3 R -> R)
    (self : TransducerModel.attrs R) source_position source_normal p orders
    key :
  TransducerModel.directivity_derivatives (fun _ _ _ q => D q) self
    source_position source_normal p orders !! key
  = stencil_value D (1 / TransducerModel.k self) p key
      <$> TransducerModel.finite_difference_coefficients orders !! key.
Proof.
  unfold TransducerModel.directivity_derivatives. rewrite map_lookup_imap.
  destruct (_ !! key) as [[shifts weights]|]; reflexivity.
Qed.

(** The table of a lower order is a part of the table of order three. *)
Lemma finite_difference_coefficients_3 (orders : Z) (key : string) :
  key ∈ keys_upto orders ->
  TransducerModel.finite_difference_coefficients orders !! key
  = TransducerModel.finite_difference_coefficients 3 !! key.
Proof.
  unfold keys_upto. intros Hin.
  destruct (0 <? orders)%Z eqn:H0, (1 <? orders)%Z eqn:H1,
    (2 <? orders)%Z eqn:H2; simpl in Hin;
    repeat (apply elem_of_cons in Hin as [-> | Hin];
            [unfold TransducerModel.finite_difference_coefficients;
             rewrite H0, H1, H2; reflexivity|]);
    apply elem_of_nil in Hin; contradiction.
Qed.

Ltac stencil_simpl :=
  unfold stencil_value, fsum, eval_monomial, TransducerModel.shifted;
  cbn [fst snd zip_with foldl String.length axes_of Ascii.eqb Bool.eqb
       foldr pderiv pderivs fmap list_fmap eval
       lit fadd fsub fmul fdiv fopp fpow ideal
       vadd vmuls vx vy vz pred INR];
  unfold eval_monomial; cbn [vx vy vz];
  unfold Q2R; cbn [QArith_base.Qnum QArith_base.Qden].

(** The monomials of degree at most three, one after the other. *)
Ltac monomials i j l Hdeg :=
  destruct i as [|[|[|[|?]]]]; [| | | |exfalso; simpl in Hdeg; lia];
  (destruct j as [|[|[|[|?]]]]; [| | | |exfalso; simpl in Hdeg; lia]);
  (destruct l as [|[|[|[|?]]]]; [| | | |exfalso; simpl in Hdeg; lia]);
  try (exfalso; simpl in Hdeg; lia).

(** The stencil of [key], on a monomial, is the derivative of the monomial:
    for the derivatives of order one up to degree two, for the others up to
    degree three. *)
Lemma stencil_monomial (key : string) (m : monomial) (h : R) (p : Vec3 R) sw :
  h <> 0 -> key ∈ keys_upto 3 ->
  TransducerModel.finite_difference_coefficients 3 !! key = Some sw ->
  (m.2.1.1 + m.2.1.2 + m.2.2 <= 2)%nat \/
  ((m.2.1.1 + m.2.1.2 + m.2.2 <= 3)%nat /\ String.length key <> 1%nat) ->
  stencil_value (eval_monomial m) h p key sw
  = eval (pderivs (axes_of key) [m]) p.
Proof.
  intros Hh Hin Hsw Hdeg. destruct m as [c [[i j] l]], p as [x y z].
  cbn [fst snd] in Hdeg.
  assert (Hdeg3 : (i + j + l <= 3)%nat) by lia.
  unfold TransducerModel.finite_difference_coefficients in Hsw.
  cbn [Z.ltb Z.compare Pos.compare Pos.compare_cont] in Hsw.
  unfold keys_upto in Hin.
  cbn [Z.ltb Z.compare Pos.compare Pos.compare_cont app] in Hin.
  repeat (apply elem_of_cons in Hin as [-> | Hin];
          [revert Hsw; dict_lookup; intros [= <-];
           monomials i j l Hdeg3;
           first [ exfalso; cbn [String.length] in Hdeg; lia
                 | stencil_simpl; field; exact Hh ]
          |]).
  apply elem_of_nil in Hin. contradiction.
Qed.

Lemma fsum_zip_plus (D1 D2 : Vec3 R -> R) (h : R) (p : Vec3 R)
    (shifts : list (Vec3 Z)) (weights : list R) (a1 a2 : R) :
  foldl Rplus (a1 + a2)
    (zip_with (fun shift weight =>
                 (D1 (TransducerModel.shifted shift h p)
                  + D2 (TransducerModel.shifted shift h p)) * weight)
       shifts weights)
  = foldl Rplus a1
      (zip_with (fun shift weight =>
                   D1 (TransducerModel.shifted shift h p) * weight)
         shifts weights)
    + foldl Rplus a2
        (zip_with (fun shift weight =>
                     D2 (TransducerModel.shifted shift h p) * weight)
           shifts weights).
Proof.
  revert weights a1 a2.
  induction shifts as [|s shifts IH]; intros [|w weights] a1 a2;
    try reflexivity.
  cbn [zip_with foldl]. rewrite <- IH. f_equal. ring.
Qed.

Lemma fsum_zip_zero (h : R) (p : Vec3 R) (shifts : list (Vec3 Z))
    (weights : list R) :
  foldl Rplus 0
    (zip_with (fun shift weight => 0 * weight) shifts weights) = 0.
Proof.
  revert weights. induction shifts as [|s shifts IH]; intros [|w weights];
    try reflexivity.
  cbn [zip_with foldl]. replace (0 + 0 * w) with 0 by ring. apply IH.
Qed.

Lemma pderivs_fmap (alpha : list axis) (poly : list monomial) :
  pderivs alpha poly = (fun m => foldr pderiv m alpha) <$> poly.
Proof.
  induction alpha as [|a alpha IH]; cbn [pderivs foldr].
  - symmetry. apply list_fmap_id.
  - fold (pderivs alpha poly). rewrite IH, <- list_fmap_compose. reflexivity.
Qed.

Lemma stencil_value_plus (D1 D2 : Vec3 R -> R) (h : R) (p : Vec3 R)
    (key : string) sw :
  stencil_value (fun q => D1 q + D2 q) h p key sw
  = stencil_value D1 h p key sw + stencil_value D2 h p key sw.
Proof.
  unfold stencil_value, fsum. cbn [lit fadd fmul fdiv ideal].
  replace 0 with (0 + 0) at 1 by ring.
  rewrite (fsum_zip_plus D1 D2). unfold Rdiv. ring.
Qed.

(** The stencil of [key] on a polynomial. *)
Lemma stencil_polynomial (key : string) (poly : list monomial) (h : R)
    (p : Vec3 R) sw :
  h <> 0 -> key ∈ keys_upto 3 ->
  TransducerModel.finite_difference_coefficients 3 !! key = Some sw ->
  degree_le 2 poly \/ (degree_le 3 poly /\ String.length key <> 1%nat) ->
  stencil_value (eval poly) h p key sw
  = eval (pderivs (axes_of key) poly) p.
Proof.
  intros Hh Hin Hsw. rewrite pderivs_fmap.
  induction poly as [|m poly IH]; intros Hdeg.
  - unfold stencil_value, fsum. cbn [eval foldr lit fadd fmul fdiv ideal
                                     fmap list_fmap].
    rewrite fsum_zip_zero by assumption. unfold Rdiv. ring.
  - assert (Hm : (m.2.1.1 + m.2.1.2 + m.2.2 <= 2)%nat \/
                 ((m.2.1.1 + m.2.1.2 + m.2.2 <= 3)%nat /\
                  String.length key <> 1%nat)).
    { destruct Hdeg as [Hd | [Hd Hk]]; apply Forall_cons in Hd as [Hd _];
        [left | right]; auto. }
    assert (Hpoly : degree_le 2 poly \/
                    (degree_le 3 poly /\ String.length key <> 1%nat)).
    { destruct Hdeg as [Hd | [Hd Hk]]; apply Forall_cons in Hd as [_ Hd];
        [left | right]; auto. }
    pose proof (stencil_monomial key m h p sw Hh Hin Hsw Hm) as Hmono.
    rewrite pderivs_fmap in Hmono. specialize (IH Hpoly).
    change (eval (m :: poly)) with (fun q => eval_monomial m q + eval poly q).
    rewrite stencil_value_plus, IH, Hmono.
    unfold eval. cbn [fmap list_fmap foldr]. ring.
Qed.

Lemma keys_upto_3 (orders : Z) (key : string) :
  key ∈ keys_upto orders -> key ∈ keys_upto 3.
Proof.
  unfold keys_upto. intros Hin.
  destruct (0 <? orders)%Z, (1 <? orders)%Z, (2 <? orders)%Z;
    simpl in Hin;
    repeat (apply elem_of_cons in Hin as [-> | Hin]; [in_keys|]);
    apply elem_of_nil in Hin; contradiction.
Qed.

(** X20. For a directivity that is a polynomial of the receiver position,
    the finite differences of [directivity_derivatives] are exact: with a
    wavenumber other than zero, every entry is the iterated partial
    derivative of the directivity along the axes its name spells, for a
    polynomial of degree at most two, and for one of degree three except
    for the entries ['x'], ['y'] and ['z']. *)
Theorem finite_differences_exact (self : TransducerModel.attrs R)
    (poly : list monomial) (source_position source_normal p : Vec3 R)
    (orders : Z) (key : string) :
  TransducerModel.k self <> 0 -> key ∈ keys_upto orders ->
  degree_le 2 poly \/ (degree_le 3 poly /\ String.length key <> 1%nat) ->
  exists value,
    TransducerModel.directivity_derivatives (fun _ _ _ q => eval poly q) self
      source_position source_normal p orders !! key = Some value /\
    is_partial (axes_of key) (fun q => cof (eval poly q)) p (cof value).
Proof.
  intros Hk Hin Hdeg.
  rewrite directivity_derivatives_stencil.
  rewrite (finite_difference_coefficients_3 orders key Hin).
  pose proof (keys_upto_3 orders key Hin) as Hin3.
  destruct (finite_difference_coefficients_has_keys 3 key Hin3) as [sw Hsw].
  rewrite Hsw. cbn [fmap option_fmap option_map].
  eexists. split; [reflexivity|].
  assert (Hh : 1 / TransducerModel.k self <> 0).
  { unfold Rdiv. rewrite Rmult_1_l. apply Rinv_neq_0_compat, Hk. }
  rewrite (stencil_polynomial key poly _ p sw Hh Hin3 Hsw Hdeg).
  apply eval_is_partial.
Qed.

Lemma finite_differences_exact_witness :
  exists value,
    TransducerModel.directivity_derivatives
      (fun _ _ _ q => eval [(1, (2, 1, 0)%nat)] q) point_source
      (mkVec3 0 0 0) (mkVec3 0 0 1) (mkVec3 1 2 3) 3 !! "xxy" = Some value /\
    is_partial [Ax_x; Ax_x; Ax_y]
      (fun q => cof (eval [(1, (2, 1, 0)%nat)] q)) (mkVec3 1 2 3) (cof value).
Proof.
  apply (finite_differences_exact point_source [(1, (2, 1, 0)%nat)]
           (mkVec3 0 0 0) (mkVec3 0 0 1) (mkVec3 1 2 3) 3 "xxy").
  - simpl. lra.
  - in_keys.
  - right. split; [|simpl; lia].
    unfold degree_le. constructor; [simpl; lia | constructor].
Defined.

(** ** Repeated calls of the evaluator *)

Section RepeatedCalls.
Context {Positions Tensor : Type}.
Variable shape : Positions -> list nat.
Variable allclose : Positions -> Positions -> bool.
Variable array_spatial_derivatives : Positions -> Z -> Tensor.

Local Abbreviation call :=
  (TransducerArray.PersistentFieldEvaluator.spatial_derivatives shape
     allclose array_spatial_derivatives).

(** X21. After a call of the evaluator with [positions], a second call
    with the same [positions], close to themselves, and with orders no
    higher returns the tensor of the first call, which may hold more
    derivatives than were asked for, without calling
    [array.spatial_derivatives] and without changing the state. *)
Theorem evaluator_repeated_call
    (self self' : TransducerArray.PersistentFieldEvaluator.attrs Positions
                    Tensor)
    (positions : Positions) (orders orders' : Z) (tensor : Tensor)
    (calls : list (Positions * Z)) :
  reachable shape allclose array_spatial_derivatives self ->
  call self positions orders = Some (tensor, self', calls) ->
  (orders' <= orders)%Z ->
  allclose positions positions = true ->
  call self' positions orders' = Some (tensor, self', []).
Proof.
  intros Hr Hcall Hord Hclose.
  unfold TransducerArray.PersistentFieldEvaluator.spatial_derivatives,
    TransducerArray.PersistentFieldEvaluator.cached in *.
  destruct (TransducerArray.PersistentFieldEvaluator._spatial_derivatives
              self) as [stored|] eqn:Es.
  - destruct (reachable_stored shape allclose array_spatial_derivatives self
                Hr stored Es) as (last & El & _).
    rewrite El in Hcall.
    destruct (orders <=? _)%Z eqn:Eo; cbn in Hcall.
    + destruct (bool_decide _ && allclose positions last) eqn:Ehit;
        cbn in Hcall; injection Hcall as <- <- <-.
      * rewrite Es, El. apply Z.leb_le in Eo.
        rewrite (proj2 (Z.leb_le orders' _)) by lia. cbn.
        rewrite Ehit. reflexivity.
      * cbn. rewrite (proj2 (Z.leb_le orders' orders)) by lia. cbn.
        rewrite bool_decide_eq_true_2 by reflexivity. rewrite Hclose.
        reflexivity.
    + injection Hcall as <- <- <-. cbn.
      rewrite (proj2 (Z.leb_le orders' orders)) by lia. cbn.
      rewrite bool_decide_eq_true_2 by reflexivity. rewrite Hclose.
      reflexivity.
  - cbn in Hcall. injection Hcall as <- <- <-. cbn.
    rewrite (proj2 (Z.leb_le orders' orders)) by lia. cbn.
    rewrite bool_decide_eq_true_2 by reflexivity. rewrite Hclose.
    reflexivity.
Qed.
End RepeatedCalls.

Lemma evaluator_repeated_call_witness :
  TransducerArray.PersistentFieldEvaluator.spatial_derivatives
    (fun positions : list nat => [length positions])
    (fun a b => bool_decide (a = b)) (fun positions orders => orders)
    (TransducerArray.PersistentFieldEvaluator.mk_attrs (Some [1; 2]%nat)
       (Some 3%Z) 3)
    [1; 2]%nat 0
  = Some (3%Z,
          TransducerArray.PersistentFieldEvaluator.mk_attrs (Some [1; 2]%nat)
            (Some 3%Z) 3, []).
Proof.
  apply (evaluator_repeated_call (fun positions : list nat => [length positions])
           (fun a b => bool_decide (a = b)) (fun positions orders => orders)
           TransducerArray.PersistentFieldEvaluator.init
           (TransducerArray.PersistentFieldEvaluator.mk_attrs
              (Some [1; 2]%nat) (Some 3%Z) 3)
           [1; 2]%nat 3 0 3%Z [([1; 2]%nat, 3%Z)]).
  - apply reachable_init.
  - reflexivity.
  - lia.
  - reflexivity.
Defined.

(** ** Moving the source and the receiver together *)

Lemma vsub_translate (p s t : Vec3 R) : vsub (vadd p t) (vadd s t) = vsub p s.
Proof. destruct p, s, t. apply Vec3_eq; mat_simpl; ring. Qed.

Lemma shifted_translate (shift : Vec3 Z) (h : R) (p s t : Vec3 R) :
  vsub (TransducerModel.shifted shift h (vadd p t)) (vadd s t)
  = vsub (TransducerModel.shifted shift h p) s.
Proof.
  destruct p, s, t. unfold TransducerModel.shifted.
  apply Vec3_eq; mat_simpl; ring.
Qed.

Lemma CircularPiston_relative j1 : relative (CircularPiston.directivity j1).
Proof.
  eexists (fun self n d => _). intros self s n p.
  unfold CircularPiston.directivity. cbv zeta.
  generalize (vsub p s) as d. intros d. reflexivity.
Qed.

Lemma CircularRing_relative j0 : relative (CircularRing.directivity j0).
Proof.
  eexists (fun self n d => _). intros self s n p.
  unfold CircularRing.directivity. cbv zeta.
  generalize (vsub p s) as d. intros d. reflexivity.
Qed.

Lemma relative_derivatives directivity (self : TransducerModel.attrs R)
    (s n p t : Vec3 R) (orders : Z) :
  relative directivity ->
  TransducerModel.directivity_derivatives directivity self (vadd s t) n
    (vadd p t) orders
  = TransducerModel.directivity_derivatives directivity self s n p orders.
Proof.
  intros [f Hf]. unfold TransducerModel.directivity_derivatives. cbv zeta.
  apply map_imap_ext. intros key.
  destruct (TransducerModel.finite_difference_coefficients orders !! key)
    as [[shifts weights]|]; [|reflexivity].
  cbn [fmap option_fmap option_map]. do 4 f_equal.
  induction shifts as [|shift shifts IH] in weights |- *;
    destruct weights as [|weight weights]; try reflexivity.
  cbn [zip_with]. f_equal; [|apply IH].
  rewrite !Hf, shifted_translate. reflexivity.
Qed.

(** X22. The field of a transducer depends on the positions of the source
    and of the receiver through their difference only: moving both by the
    same vector changes neither [greens_function] nor
    [spatial_derivatives], for the three transducer models of the source. *)
Theorem spatial_derivatives_translation (j0 j1 : R -> R)
    (cls : TransducerModel.class R) (self : TransducerModel.attrs R)
    (source_position source_normal receiver_position t : Vec3 R)
    (orders : Z) :
  source_class j0 j1 cls ->
  TransducerModel.greens_function cls self (vadd source_position t)
    source_normal (vadd receiver_position t)
  = TransducerModel.greens_function cls self source_position source_normal
      receiver_position /\
  TransducerModel.spatial_derivatives cls self (vadd source_position t)
    source_normal (vadd receiver_position t) orders
  = TransducerModel.spatial_derivatives cls self source_position
      source_normal receiver_position orders.
Proof.
  intros Hcls.
  assert (Hspread :
            TransducerModel.spherical_spreading self (vadd source_position t)
              (vadd receiver_position t)
            = TransducerModel.spherical_spreading self source_position
                receiver_position).
  { unfold TransducerModel.spherical_spreading. cbv zeta.
    rewrite vsub_translate. reflexivity. }
  assert (Hsph :
            TransducerModel.spherical_derivatives self (vadd source_position t)
              (vadd receiver_position t) orders
            = TransducerModel.spherical_derivatives self source_position
                receiver_position orders).
  { unfold TransducerModel.spherical_derivatives. cbv zeta.
    rewrite vsub_translate. reflexivity. }
  assert (Hdir :
            TransducerModel.cls_directivity cls self (vadd source_position t)
              source_normal (vadd receiver_position t)
            = TransducerModel.cls_directivity cls self source_position
                source_normal receiver_position).
  { destruct Hcls; cbn [TransducerModel.cls CircularPiston.cls
                        CircularRing.cls TransducerModel.cls_directivity].
    - reflexivity.
    - destruct (CircularPiston_relative j1) as [f Hf].
      rewrite !Hf, vsub_translate. reflexivity.
    - destruct (CircularRing_relative j0) as [f Hf].
      rewrite !Hf, vsub_translate. reflexivity. }
  assert (Hder :
            TransducerModel.cls_directivity_derivatives cls self
              (vadd source_position t) source_normal
              (vadd receiver_position t) orders
            = TransducerModel.cls_directivity_derivatives cls self
                source_position source_normal receiver_position orders).
  { destruct Hcls; cbn [TransducerModel.cls CircularPiston.cls
                        CircularRing.cls
                        TransducerModel.cls_directivity_derivatives].
    - apply relative_derivatives. exists (fun _ _ _ => 1). reflexivity.
    - apply relative_derivatives, CircularPiston_relative.
    - unfold CircularRing.directivity_derivatives. cbv zeta.
      rewrite vsub_translate. reflexivity. }
  split.
  - unfold TransducerModel.greens_function. rewrite Hspread, Hdir.
    reflexivity.
  - unfold TransducerModel.spatial_derivatives. cbv zeta.
    rewrite Hsph, Hder. reflexivity.
Qed.

Lemma spatial_derivatives_translation_witness :
  TransducerModel.greens_function (CircularPiston.cls (fun x => x / 2))
    point_source (vadd (mkVec3 0 0 0) (mkVec3 1 1 1)) (mkVec3 0 0 1)
    (vadd (mkVec3 0 1 1) (mkVec3 1 1 1))
  = TransducerModel.greens_function (CircularPiston.cls (fun x => x / 2))
      point_source (mkVec3 0 0 0) (mkVec3 0 0 1) (mkVec3 0 1 1).
Proof.
  exact (proj1 (spatial_derivatives_translation (fun _ => 1) (fun x => x / 2)
                  (CircularPiston.cls (fun x => x / 2)) point_source
                  (mkVec3 0 0 0) (mkVec3 0 0 1) (mkVec3 0 1 1)
                  (mkVec3 1 1 1) 3
                  (class_CircularPiston (fun _ => 1) (fun x => x / 2)))).
Defined.

(** ** The directivity of the ring in the cosine of the angle *)

(** As [dpl], with the derivatives among the hypotheses for the functions
    it has no rule for. *)
Ltac dpl_hyp :=
  cbv beta;
  first
    [ eassumption
    | lazymatch goal with
      | |- derivable_pt_lim (fun t => t) _ _ => apply dpl_id
      | |- derivable_pt_lim (fun t => @?f t + @?g t) _ _ =>
          eapply dpl_plus; dpl_hyp
      | |- derivable_pt_lim (fun t => @?f t - @?g t) _ _ =>
          eapply dpl_minus; dpl_hyp
      | |- derivable_pt_lim (fun t => @?f t * @?g t) _ _ =>
          eapply dpl_mult; dpl_hyp
      | |- derivable_pt_lim (fun t => @?f t / @?g t) _ _ =>
          eapply dpl_div; [dpl_hyp | dpl_hyp | ]
      | |- derivable_pt_lim (fun t => - @?f t) _ _ => eapply dpl_opp; dpl_hyp
      | |- derivable_pt_lim (fun t => @?f t ^ ?n) _ _ =>
          eapply dpl_pow; dpl_hyp
      | |- derivable_pt_lim (fun t => sqrt (@?f t)) _ _ =>
          eapply dpl_sqrt; [dpl_hyp | ]
      | |- derivable_pt_lim (fun t => ?c) _ _ => apply dpl_const
      end ].

Lemma ring_xi_deriv (ka c : R) :
  0 < 1 - c ^ 2 ->
  derivable_pt_lim (ring_xi ka) c (- ka * c / sqrt (1 - c ^ 2)).
Proof.
  intros Hc. pose proof (sqrt_lt_R0 _ Hc) as Hs. unfold ring_xi.
  eapply dpl_val; [dpl; exact Hc | cbv beta; cbn [pred INR]; field; lra].
Qed.

(** Each function of the profile is the derivative of the one before. *)
Lemma ring_profile_deriv (j0 j1 : R -> R) (ka : R) (order : nat) (c : R) :
  bessel_derivatives j0 j1 -> ka <> 0 ->
  (order < 3)%nat -> 0 < 1 - c ^ 2 ->
  derivable_pt_lim (ring_profile j0 j1 ka order) c
    (ring_profile j0 j1 ka (S order) c).
Proof.
  intros [j0_deriv j1_deriv] Hka Horder Hc.
  pose proof (sqrt_lt_R0 _ Hc) as Hs.
  assert (Hxi : ring_xi ka c <> 0).
  { unfold ring_xi. apply Rmult_integral_contrapositive_currified; lra. }
  pose proof (ring_xi_deriv ka c Hc) as Hdxi.
  pose proof (dpl_comp j0 (ring_xi ka) c _ _ Hdxi (j0_deriv _)) as Hd0.
  pose proof (dpl_comp j1 (ring_xi ka) c _ _ Hdxi (j1_deriv _ Hxi)) as Hd1.
  assert (Hxi2 : ring_xi ka c ^ 2 <> 0) by (apply pow_nonzero, Hxi).
  destruct order as [|[|[|?]]]; [| | |lia];
    unfold ring_profile, ring_J3, ring_J2, ring_J1;
    (eapply dpl_val; [dpl_hyp; assumption|]);
    cbv beta; unfold Rsqr, ring_xi in *; cbn [pred INR];
    revert Hxi Hs;
    generalize (j0 (ka * sqrt (1 - c ^ 2))) (j1 (ka * sqrt (1 - c ^ 2)))
               (sqrt (1 - c ^ 2));
    intros J0 J1 s Hxi Hs; field; lra.
Qed.

(** ** The cosine of the angle and its derivatives *)

Lemma dot_deriv (c : axis) (s n p : Vec3 R) :
  derivable_pt_lim (fun t => vdot (vsub (with_coord c p t) s) n) (coord c p)
    (coord c n).
Proof.
  destruct c, p as [p0 p1 p2], s as [s0 s1 s2], n as [n0 n1 n2];
    unfold vdot, vsub, with_coord, coord; ideal_simpl;
    (eapply dpl_val; [dpl | cbv beta; ring]).
Qed.

Lemma cos_partial_deriv (s n : Vec3 R) (alpha : list axis) (c : axis)
    (p : Vec3 R) :
  (length alpha < 3)%nat -> 0 < dist s p -> 0 < vsum (vsq n) ->
  derivable_pt_lim (fun t => cos_partial s n alpha (with_coord c p t))
    (coord c p) (cos_partial s n (c :: alpha) p).
Proof.
  intros Hlen Hr Hn. pose proof (sqrt_lt_R0 _ Hn) as Hnorm.
  pose proof (dist_deriv c s p Hr) as Hdr.
  pose proof (dot_deriv c s n p) as Hdot.
  pose proof (fun a => dcoord_deriv a c s p) as Hd.
  pose proof (Hd Ax_x) as Hdx. pose proof (Hd Ax_y) as Hdy.
  pose proof (Hd Ax_z) as Hdz. clear Hd.
  assert (Hr3 : dist s p ^ 3 <> 0) by (apply pow_nonzero; lra).
  assert (Hr5 : dist s p ^ 5 <> 0) by (apply pow_nonzero; lra).
  assert (Hr7 : dist s p ^ 7 <> 0) by (apply pow_nonzero; lra).
  assert (Hne : dist s p <> 0) by lra.
  assert (Hnn : sqrt (vsum (vsq n)) <> 0) by lra.
  destruct alpha as [|a [|b [|? ?]]]; [| | |simpl in Hlen; lia];
    unfold cos_partial.
  - destruct c;
      (eapply dpl_val; [dpl_hyp; rewrite ?with_coord_id; assumption|]);
      cbv beta; rewrite ?with_coord_id; unfold Rsqr, kron; cbn [pred INR];
      revert Hne Hnn;
      generalize (dist s p) (sqrt (vsum (vsq n))) (vdot (vsub p s) n);
      intros r norm dot Hne Hnn; field; split; assumption.
  - destruct a, c;
      (eapply dpl_val; [dpl_hyp; rewrite ?with_coord_id; assumption|]);
      cbv beta; rewrite ?with_coord_id; unfold Rsqr, kron; cbn [pred INR];
      revert Hne Hnn;
      generalize (dist s p) (sqrt (vsum (vsq n))) (vdot (vsub p s) n);
      intros r norm dot Hne Hnn; field; split; assumption.
  - destruct a, b, c;
      (eapply dpl_val; [dpl_hyp; rewrite ?with_coord_id; assumption|]);
      cbv beta; rewrite ?with_coord_id; unfold Rsqr, kron; cbn [pred INR];
      revert Hne Hnn;
      generalize (dist s p) (sqrt (vsum (vsq n))) (vdot (vsub p s) n);
      intros r norm dot Hne Hnn; field; split; assumption.
Qed.

Lemma ring_partial_deriv (j0 j1 : R -> R) (ka : R) (s n : Vec3 R)
    (alpha : list axis) (c : axis) (p : Vec3 R) :
  bessel_derivatives j0 j1 -> ka <> 0 ->
  (length alpha < 3)%nat -> 0 < dist s p -> 0 < vsum (vsq n) ->
  0 < 1 - cos_partial s n [] p ^ 2 ->
  derivable_pt_lim (fun t => ring_partial j0 j1 ka s n alpha (with_coord c p t))
    (coord c p) (ring_partial j0 j1 ka s n (c :: alpha) p).
Proof.
  intros Hj Hka Hlen Hr Hn Hc.
  assert (HC : forall beta, (length beta < 3)%nat ->
            derivable_pt_lim
              (fun t => cos_partial s n beta (with_coord c p t)) (coord c p)
              (cos_partial s n (c :: beta) p)).
  { intros beta Hbeta. apply cos_partial_deriv; assumption. }
  assert (HF : forall order, (order < 3)%nat ->
            derivable_pt_lim
              (fun t => ring_profile j0 j1 ka order
                          (cos_partial s n [] (with_coord c p t)))
              (coord c p)
              (ring_profile j0 j1 ka (S order) (cos_partial s n [] p)
               * cos_partial s n [c] p)).
  { intros order Horder.
    apply (dpl_comp (ring_profile j0 j1 ka order)
             (fun t => cos_partial s n [] (with_coord c p t))).
    - apply HC. simpl. lia.
    - cbv beta. rewrite with_coord_id.
      apply ring_profile_deriv; assumption. }
  pose proof (HF 0%nat ltac:(lia)) as HF0.
  pose proof (HF 1%nat ltac:(lia)) as HF1.
  pose proof (HF 2%nat ltac:(lia)) as HF2.
  destruct alpha as [|a [|b [|? ?]]]; [| | |simpl in Hlen; lia];
    cbv beta iota zeta delta [ring_partial].
  - exact HF0.
  - pose proof (HC [a] ltac:(simpl; lia)) as Ha.
    eapply dpl_val; [dpl_hyp|].
    cbv beta. rewrite ?with_coord_id. ring.
  - pose proof (HC [a] ltac:(simpl; lia)) as Ha.
    pose proof (HC [b] ltac:(simpl; lia)) as Hb.
    pose proof (HC [a; b] ltac:(simpl; lia)) as Hab.
    eapply dpl_val; [dpl_hyp|].
    cbv beta. rewrite ?with_coord_id. ring.
Qed.

(** ** Away from the axis of the source *)

Lemma linear_near (e0 A B : R) :
  e0 <> 0 ->
  exists delta, 0 < delta /\
    forall u v, Rabs u < delta -> Rabs v < delta -> e0 + A * u + B * v <> 0.
Proof.
  intros He. pose proof (Rabs_pos_lt _ He) as He0.
  pose proof (Rabs_pos A) as HA. pose proof (Rabs_pos B) as HB.
  set (K := Rabs A + Rabs B). assert (HK : 0 < K + 1) by (unfold K; lra).
  exists (Rabs e0 / (K + 1)). split; [apply Rdiv_lt_0_compat; assumption|].
  intros u v Hu Hv Heq.
  assert (Hd : Rabs e0 / (K + 1) * (K + 1) = Rabs e0) by (field; lra).
  revert Hu Hv Hd. generalize (Rabs e0 / (K + 1)). intros delta Hu Hv Hd.
  assert (Hsum : Rabs (A * u + B * v) <= K * delta).
  { eapply Rle_trans; [apply Rabs_triang|]. rewrite !Rabs_mult. unfold K.
    pose proof (Rabs_pos u). pose proof (Rabs_pos v). nra. }
  assert (He1 : e0 = - (A * u + B * v)) by lra.
  rewrite He1, Rabs_Ropp in Hd.
  assert (0 < delta) by (pose proof (Rabs_pos u); lra).
  nra.
Qed.

(** The square of the sine of the angle, up to a positive factor: the
    square of the length of the cross product of the direction and the
    normal. *)
Lemma off_axis_cross (s n p : Vec3 R) :
  0 < dist s p -> 0 < vsum (vsq n) ->
  let dx := vx p - vx s in
  let dy := vy p - vy s in
  let dz := vz p - vz s in
  1 - cos_partial s n [] p ^ 2
  = ((dy * vz n - dz * vy n) ^ 2 + (dz * vx n - dx * vz n) ^ 2
     + (dx * vy n - dy * vx n) ^ 2)
    / (dist s p ^ 2 * vsum (vsq n)).
Proof.
  intros Hr Hn. cbv zeta. pose proof (sqrt_lt_R0 _ Hn) as Hnorm.
  pose proof (dist_sq s p) as Hsq.
  assert (Hn2 : sqrt (vsum (vsq n)) ^ 2 = vsum (vsq n)).
  { rewrite pow2_sqrt; [reflexivity | lra]. }
  unfold cos_partial.
  revert Hnorm Hn2. generalize (sqrt (vsum (vsq n))). intros N HN HN2.
  revert Hr Hsq. generalize (dist s p). intros r Hr Hsq.
  rewrite <- HN2.
  apply (Rmult_eq_reg_r (r ^ 2 * N ^ 2)).
  2:{ apply Rmult_integral_contrapositive_currified; apply pow_nonzero; lra. }
  match goal with
  | |- (1 - (?dot / r / N) ^ 2) * _ = ?X / _ * _ =>
      transitivity (r ^ 2 * N ^ 2 - dot ^ 2); [field; lra|];
      transitivity X; [|field; lra]
  end.
  rewrite Hsq, HN2.
  destruct n as [n0 n1 n2], p as [p0 p1 p2], s as [s0 s1 s2].
  unfold vdot, vsub, vsum, vsq. ideal_simpl. ring.
Qed.

(** The receiver positions away from the axis of the source form an open
    set. *)
Lemma near_off_axis (s n p : Vec3 R) :
  0 < dist s p -> 0 < vsum (vsq n) -> 0 < 1 - cos_partial s n [] p ^ 2 ->
  exists delta, 0 < delta /\
    forall q, near delta p q ->
      0 < dist s q /\ 0 < 1 - cos_partial s n [] q ^ 2.
Proof.
  intros Hr Hn Hc. rewrite (off_axis_cross s n p Hr Hn) in Hc. cbv zeta in Hc.
  assert (Hden : 0 < dist s p ^ 2 * vsum (vsq n)).
  { apply Rmult_lt_0_compat; [apply pow_lt, Hr | exact Hn]. }
  assert (Hnum : 0 < (((vy p - vy s) * vz n - (vz p - vz s) * vy n) ^ 2
                      + ((vz p - vz s) * vx n - (vx p - vx s) * vz n) ^ 2
                      + ((vx p - vx s) * vy n - (vy p - vy s) * vx n) ^ 2)).
  { match type of Hc with
    | 0 < ?X / ?D =>
        replace X with (X / D * D) by (field; lra);
        apply Rmult_lt_0_compat; assumption
    end. }
  clear Hc Hden.
  assert (Hfar : forall q,
            ((vy q - vy s) * vz n - (vz q - vz s) * vy n <> 0 \/
             (vz q - vz s) * vx n - (vx q - vx s) * vz n <> 0 \/
             (vx q - vx s) * vy n - (vy q - vy s) * vx n <> 0) ->
            0 < dist s q /\ 0 < 1 - cos_partial s n [] q ^ 2).
  { intros q Hq.
    assert (Hx : 0 < ((vy q - vy s) * vz n - (vz q - vz s) * vy n) ^ 2
                     + ((vz q - vz s) * vx n - (vx q - vx s) * vz n) ^ 2
                     + ((vx q - vx s) * vy n - (vy q - vy s) * vx n) ^ 2).
    { pose proof (pow2_ge_0 ((vy q - vy s) * vz n - (vz q - vz s) * vy n))
        as Hx0.
      pose proof (pow2_ge_0 ((vz q - vz s) * vx n - (vx q - vx s) * vz n))
        as Hx1.
      pose proof (pow2_ge_0 ((vx q - vx s) * vy n - (vy q - vy s) * vx n))
        as Hx2.
      assert (Hsq : forall x : R, x <> 0 -> 0 < x ^ 2).
      { intros x Hxne. replace (x ^ 2) with (Rsqr x) by (unfold Rsqr; ring).
        apply Rsqr_pos_lt, Hxne. }
      destruct Hq as [Hq | [Hq | Hq]]; apply Hsq in Hq; lra. }
    assert (Hrq : 0 < dist s q).
    { apply dist_sq_pos. apply Rnot_le_lt. intros Hle.
      pose proof (pow2_ge_0 (vx q - vx s)) as Hg0.
      pose proof (pow2_ge_0 (vy q - vy s)) as Hg1.
      pose proof (pow2_ge_0 (vz q - vz s)) as Hg2.
      assert (Hd0 : (vx q - vx s) ^ 2 = 0) by lra.
      assert (Hd1 : (vy q - vy s) ^ 2 = 0) by lra.
      assert (Hd2 : (vz q - vz s) ^ 2 = 0) by lra.
      assert (Hz : forall x : R, x ^ 2 = 0 -> x = 0).
      { intros x Hx0. apply Rsqr_0_uniq. unfold Rsqr. rewrite <- Hx0. ring. }
      apply Hz in Hd0, Hd1, Hd2. rewrite Hd0, Hd1, Hd2 in Hx.
      replace ((0 * vz n - 0 * vy n) ^ 2 + (0 * vx n - 0 * vz n) ^ 2
               + (0 * vy n - 0 * vx n) ^ 2) with 0 in Hx by ring.
      lra. }
    split; [exact Hrq|].
    rewrite (off_axis_cross s n q Hrq Hn). cbv zeta.
    apply Rdiv_lt_0_compat; [exact Hx|].
    apply Rmult_lt_0_compat; [apply pow_lt, Hrq | exact Hn]. }
  assert (Hcase : (vy p - vy s) * vz n - (vz p - vz s) * vy n <> 0 \/
                  (vz p - vz s) * vx n - (vx p - vx s) * vz n <> 0 \/
                  (vx p - vx s) * vy n - (vy p - vy s) * vx n <> 0).
  { destruct (Req_dec ((vy p - vy s) * vz n - (vz p - vz s) * vy n) 0)
      as [He0|]; [|auto].
    destruct (Req_dec ((vz p - vz s) * vx n - (vx p - vx s) * vz n) 0)
      as [He1|]; [|auto].
    destruct (Req_dec ((vx p - vx s) * vy n - (vy p - vy s) * vx n) 0)
      as [He2|]; [|auto].
    rewrite He0, He1, He2 in Hnum. exfalso.
    replace (0 ^ 2 + 0 ^ 2 + 0 ^ 2) with 0 in Hnum by ring. lra. }
  destruct Hcase as [He | [He | He]].
  - destruct (linear_near _ (vz n) (- vy n) He) as (delta & Hdelta & Hlin).
    exists delta. split; [exact Hdelta|].
    intros q (Hqx & Hqy & Hqz). apply Hfar. left.
    specialize (Hlin _ _ Hqy Hqz). intros Heq. apply Hlin. rewrite <- Heq. ring.
  - destruct (linear_near _ (vx n) (- vz n) He) as (delta & Hdelta & Hlin).
    exists delta. split; [exact Hdelta|].
    intros q (Hqx & Hqy & Hqz). apply Hfar. right. left.
    specialize (Hlin _ _ Hqz Hqx). intros Heq. apply Hlin. rewrite <- Heq. ring.
  - destruct (linear_near _ (vy n) (- vx n) He) as (delta & Hdelta & Hlin).
    exists delta. split; [exact Hdelta|].
    intros q (Hqx & Hqy & Hqz). apply Hfar. right. right.
    specialize (Hlin _ _ Hqx Hqy). intros Heq. apply Hlin. rewrite <- Heq. ring.
Qed.

(** ** The entries of [CircularRing.directivity_derivatives] *)

Lemma ring_is_partial (j0 j1 : R -> R) (ka : R) (s n : Vec3 R)
    (u : Vec3 R -> Cx R) (alpha : list axis) :
  bessel_derivatives j0 j1 -> ka <> 0 -> 0 < vsum (vsq n) ->
  (forall q, u q = cof (ring_partial j0 j1 ka s n [] q)) ->
  (length alpha <= 3)%nat ->
  forall p, 0 < dist s p -> 0 < 1 - cos_partial s n [] p ^ 2 ->
    is_partial alpha u p (cof (ring_partial j0 j1 ka s n alpha p)).
Proof.
  intros Hj Hka Hn Hu. induction alpha as [|a alpha IH]; intros Hlen p Hr Hc.
  - simpl. symmetry. apply Hu.
  - simpl in Hlen. cbn [is_partial].
    exists (fun q => cof (ring_partial j0 j1 ka s n alpha q)). split.
    + destruct (near_off_axis s n p Hr Hn Hc) as (delta & Hdelta & Hnear).
      exists delta. split; [exact Hdelta|].
      intros q Hq. destruct (Hnear q Hq) as [Hrq Hcq].
      apply IH; [lia | exact Hrq | exact Hcq].
    + unfold partial_at, Cderiv. cbn [re im cof lit ideal]. split.
      * apply ring_partial_deriv; [assumption | assumption | lia | assumption
                                  | assumption | assumption].
      * apply dpl_const.
Qed.

Lemma ring_J_off_axis (j0 j1 : R -> R) (sin ka_sin : R) :
  sin <> 0 ->
  CircularRing.J1_xi j1 sin ka_sin = j1 ka_sin / ka_sin /\
  CircularRing.J2_xi2 j0 j1 sin ka_sin
  = (2 * (j1 ka_sin / ka_sin) - j0 ka_sin) / ka_sin ^ 2 /\
  CircularRing.J3_xi3 j0 j1 sin ka_sin
  = (4 * ((2 * (j1 ka_sin / ka_sin) - j0 ka_sin) / ka_sin ^ 2)
     - j1 ka_sin / ka_sin) / ka_sin ^ 2.
Proof.
  intros Hsin.
  unfold CircularRing.J3_xi3, CircularRing.J2_xi2, CircularRing.J1_xi.
  cbn [feq0 ideal]. unfold Req0.
  destruct (Req_dec_T sin 0) as [Heq|_]; [contradiction|].
  ideal_simpl. repeat split; reflexivity.
Qed.

Ltac ring_entry :=
  dict_lookup; f_equal;
  cbv beta iota zeta delta [ring_partial cos_partial ring_profile ring_J3
                            ring_J2 ring_J1 ring_xi kron coord];
  ideal_simpl.

Lemma CircularRing_derivatives_partial (j0 j1 : R -> R)
    (self : TransducerModel.attrs R) (s n p : Vec3 R) (orders : Z)
    (alpha : list axis) (key : string) :
  (Z.of_nat (length alpha) <= orders)%Z -> key_of alpha = Some key ->
  0 < dist s p -> 0 < vsum (vsq n) -> 0 < 1 - cos_partial s n [] p ^ 2 ->
  TransducerModel.k self * TransducerModel.effective_radius self <> 0 ->
  CircularRing.directivity_derivatives j0 j1 self s n p orders !! key
  = Some (ring_partial j0 j1
            (TransducerModel.k self * TransducerModel.effective_radius self)
            s n alpha p).
Proof.
  intros Hlen Hkey Hr Hn Hc Hka. pose proof (key_of_length _ _ Hkey) as Hlen3.
  pose proof (sqrt_lt_R0 _ Hc) as Hsin. pose proof (sqrt_lt_R0 _ Hn) as Hnorm.
  unfold CircularRing.directivity_derivatives. cbv zeta.
  change (fsqrt (vsum (vsq (vsub p s)))) with (dist s p).
  change (vdot (vsub p s) n / dist s p / fsqrt (vsum (vsq n)))%fl
    with (cos_partial s n [] p).
  cbn [lit fadd fsub fmul fdiv fopp fpow fsqrt ideal].
  assert (Hsin0 : sqrt (1 - cos_partial s n [] p ^ 2) <> 0) by lra.
  assert (Hne : dist s p <> 0) by lra.
  assert (Hnn : sqrt (vsum (vsq n)) <> 0) by lra.
  destruct (ring_J_off_axis j0 j1 _
              (TransducerModel.k self * TransducerModel.effective_radius self
               * sqrt (1 - cos_partial s n [] p ^ 2)) Hsin0)
    as (E1 & E2 & E3).
  rewrite E1, E2, E3. clear E1 E2 E3.
  revert Hsin0 Hne Hnn Hka. clear Hc Hr Hn Hsin Hnorm.
  cbv beta iota zeta delta [ring_partial ring_profile ring_J3 ring_J2 ring_J1
                            ring_xi cos_partial].
  generalize (dist s p) (sqrt (vsum (vsq n))) (vdot (vsub p s) n)
             (TransducerModel.k self * TransducerModel.effective_radius self).
  intros r N dot ka.
  cbn [lit fadd fsub fmul fdiv fopp fpow fsqrt ideal vsub vx vy vz].
  generalize (j0 (ka * sqrt (1 - (dot / r / N) ^ 2))).
  generalize (j1 (ka * sqrt (1 - (dot / r / N) ^ 2))).
  generalize (sqrt (1 - (dot / r / N) ^ 2)).
  intros sn J1 J0 Hsin0 Hne Hnn Hka.
  destruct alpha as [|a [|b [|c [|? ?]]]]; [| | | |simpl in Hlen3; lia].
  - vm_compute in Hkey; simplify_eq.
    destruct (0 <? orders)%Z, (1 <? orders)%Z, (2 <? orders)%Z;
      dict_lookup; reflexivity.
  - assert (H0 : (0 <? orders)%Z = true) by (apply Z.ltb_lt; simpl in Hlen; lia).
    rewrite H0.
    destruct a; vm_compute in Hkey; simplify_eq;
      destruct (1 <? orders)%Z, (2 <? orders)%Z;
      dict_lookup; f_equal; cbn [coord kron]; field; auto.
  - assert (H0 : (0 <? orders)%Z = true) by (apply Z.ltb_lt; simpl in Hlen; lia).
    assert (H1 : (1 <? orders)%Z = true) by (apply Z.ltb_lt; simpl in Hlen; lia).
    rewrite H0, H1.
    destruct a, b; vm_compute in Hkey; simplify_eq;
      destruct (2 <? orders)%Z;
      dict_lookup; f_equal; cbn [coord kron]; field; auto.
  - assert (H0 : (0 <? orders)%Z = true) by (apply Z.ltb_lt; simpl in Hlen; lia).
    assert (H1 : (1 <? orders)%Z = true) by (apply Z.ltb_lt; simpl in Hlen; lia).
    assert (H2 : (2 <? orders)%Z = true) by (apply Z.ltb_lt; simpl in Hlen; lia).
    rewrite H0, H1, H2.
    destruct a, b, c; vm_compute in Hkey; simplify_eq;
      dict_lookup; f_equal; cbn [coord kron]; field; auto.
Qed.

Lemma norm2_dist (s q : Vec3 R) :
  fsqrt (vdot (vsub q s) (vsub q s)) = dist s q.
Proof. unfold dist; ideal_simpl; f_equal; ring. Qed.

Lemma CircularRing_directivity_ring_partial (j0 : R -> R) (j1 : R -> R)
    (self : TransducerModel.attrs R) (s n q : Vec3 R) :
  CircularRing.directivity j0 self s n q
  = ring_partial j0 j1
      (TransducerModel.k self * TransducerModel.effective_radius self) s n []
      q.
Proof.
  unfold CircularRing.directivity. cbv zeta. rewrite norm2_dist. reflexivity.
Qed.

Lemma sin_angle_off_axis (s n p : Vec3 R) :
  sin_angle s n p <> 0 -> 0 < 1 - cos_partial s n [] p ^ 2.
Proof.
  intros Hsin. apply Rnot_le_lt. intros Hle. apply Hsin.
  unfold sin_angle. cbv zeta. rewrite norm2_dist.
  apply sqrt_neg_0, Hle.
Qed.

(** X23. With the derivatives [j0' = - j1] and [j1' = j0 - j1 / x] of the
    Bessel functions, a wavenumber and a radius other than zero, a normal
    other than zero and a receiver away from the source and off its axis,
    every entry of [CircularRing.directivity_derivatives] is the iterated
    partial derivative of [CircularRing.directivity], in the receiver
    position, along the axes its name spells, taken in any order. *)
Theorem CircularRing_derivatives_exact (j0 j1 : R -> R)
    (self : TransducerModel.attrs R)
    (source_position source_normal receiver_position : Vec3 R) (orders : Z)
    (alpha : list axis) (key : string) :
  bessel_derivatives j0 j1 ->
  TransducerModel.k self * TransducerModel.effective_radius self <> 0 ->
  0 < dist source_position receiver_position ->
  0 < vsum (vsq source_normal) ->
  sin_angle source_position source_normal receiver_position <> 0 ->
  (Z.of_nat (length alpha) <= orders)%Z -> key_of alpha = Some key ->
  exists value,
    CircularRing.directivity_derivatives j0 j1 self source_position
      source_normal receiver_position orders !! key = Some value /\
    is_partial alpha
      (fun q => cof (CircularRing.directivity j0 self source_position
                       source_normal q))
      receiver_position (cof value).
Proof.
  intros Hj Hka Hr Hn Hsin Hlen Hkey.
  pose proof (sin_angle_off_axis _ _ _ Hsin) as Hc.
  eexists. split.
  - apply (CircularRing_derivatives_partial j0 j1 self source_position
             source_normal receiver_position orders alpha key);
      assumption.
  - apply ring_is_partial; try assumption.
    + intros q. f_equal. apply CircularRing_directivity_ring_partial.
    + eapply key_of_length, Hkey.
Qed.

Lemma CircularRing_derivatives_exact_witness :
  exists value,
    CircularRing.directivity_derivatives (fun _ => 0) (fun _ => 0)
      (TransducerModel.mk_attrs 1 343 1 6) (mkVec3 0 0 0) (mkVec3 0 0 1)
      (mkVec3 1 0 0) 3 !! "xy" = Some value /\
    is_partial [Ax_x; Ax_y]
      (fun q => cof (CircularRing.directivity (fun _ => 0)
                       (TransducerModel.mk_attrs 1 343 1 6) (mkVec3 0 0 0)
                       (mkVec3 0 0 1) q))
      (mkVec3 1 0 0) (cof value).
Proof.
  apply (CircularRing_derivatives_exact (fun _ => 0) (fun _ => 0)
           (TransducerModel.mk_attrs 1 343 1 6) (mkVec3 0 0 0) (mkVec3 0 0 1)
           (mkVec3 1 0 0) 3 [Ax_x; Ax_y] "xy").
  - split.
    + intros x. eapply dpl_val; [apply dpl_const | ring].
    + intros x _. eapply dpl_val; [apply dpl_const | unfold Rdiv; ring].
  - simpl. lra.
  - apply dist_sq_pos. simpl. lra.
  - simpl. lra.
  - unfold sin_angle. cbv zeta.
    assert (Hdot : vdot (vsub (mkVec3 1 0 0) (mkVec3 0 0 0)) (mkVec3 0 0 1)
                   = 0) by (ideal_simpl; ring).
    rewrite Hdot. cbn [lit fsub fdiv fpow fsqrt ideal].
    match goal with
    | |- sqrt (1 - (0 / ?X / ?Y) ^ 2) <> 0 =>
        replace (1 - (0 / X / Y) ^ 2) with 1 by (unfold Rdiv; ring)
    end.
    rewrite sqrt_1. lra.
  - simpl. lia.
  - reflexivity.
Defined.

(** ** The derivatives of a product *)

Lemma Cderiv_mult F G x lf lg :
  Cderiv F x lf -> Cderiv G x lg ->
  Cderiv (fun t => (F t * G t)%cx) x (lf * G x + F x * lg)%cx.
Proof.
  intros [Hf1 Hf2] [Hg1 Hg2]; split; ideal_simpl.
  - eapply dpl_val; [dpl_hyp | cbv beta; ring].
  - eapply dpl_val; [dpl_hyp | cbv beta; ring].
Qed.

Lemma Cderiv_const (z : Cx R) x : Cderiv (fun _ => z) x (cof 0).
Proof. split; ideal_simpl; apply dpl_const. Qed.

Lemma csum_cons (z : Cx R) (l : list (Cx R)) :
  csum (z :: l) = (z + csum l)%cx.
Proof. reflexivity. Qed.

Lemma csum_app (l1 l2 : list (Cx R)) :
  csum (l1 ++ l2) = (csum l1 + csum l2)%cx.
Proof.
  unfold csum. induction l1 as [|z l1 IH]; cbn [foldr app].
  - apply Cx_eq; ideal_simpl; ring.
  - rewrite IH. apply Cx_eq; ideal_simpl; ring.
Qed.

Lemma splits_length (alpha beta gamma : list axis) :
  (beta, gamma) ∈ splits alpha ->
  (length beta <= length alpha)%nat /\ (length gamma <= length alpha)%nat.
Proof.
  revert beta gamma. induction alpha as [|c alpha IH]; intros beta gamma Hin.
  - apply list_elem_of_singleton in Hin. injection Hin as -> ->. simpl. lia.
  - cbn [splits] in Hin. apply elem_of_app in Hin as [Hin | Hin];
      apply list_elem_of_fmap in Hin as ([b g] & Heq & Hin);
      injection Heq as -> ->; destruct (IH _ _ Hin); simpl; lia.
Qed.

Section ProductRule.
Variables S D : list axis -> Vec3 R -> Cx R.
Variable domain : Vec3 R -> Prop.
Variable p0 : R.
Hypothesis S_partial :
  forall alpha c p, (length alpha < 3)%nat -> domain p ->
    partial_at c (S alpha) p (S (c :: alpha) p).
Hypothesis D_partial :
  forall alpha c p, (length alpha < 3)%nat -> domain p ->
    partial_at c (D alpha) p (D (c :: alpha) p).
Hypothesis domain_open :
  forall p, domain p ->
    exists delta, 0 < delta /\ forall q, near delta p q -> domain q.

Lemma terms_partial (c : axis) (p : Vec3 R)
    (L : list (list axis * list axis)) :
  domain p ->
  Forall (fun bg => (length bg.1 < 3)%nat /\ (length bg.2 < 3)%nat) L ->
  partial_at c
    (fun q => csum ((fun bg : list axis * list axis => S bg.1 q * D bg.2 q)%cx
                      <$> L))
    p
    (csum ((fun bg : list axis * list axis => S (c :: bg.1) p * D bg.2 p)%cx
             <$> L)
     + csum ((fun bg : list axis * list axis => S bg.1 p * D (c :: bg.2) p)%cx
               <$> L))%cx.
Proof using S_partial D_partial.
  intros Hp HL. unfold partial_at.
  induction HL as [|[beta gamma] L [Hb Hg] HL IH];
    cbn [fmap list_fmap fst snd]; rewrite ?csum_cons.
  - eapply Cderiv_val; [apply Cderiv_const|].
    unfold csum; cbn [foldr]. apply Cx_eq; ideal_simpl; ring.
  - eapply Cderiv_val.
    + apply Cderiv_plus; [|exact IH].
      apply Cderiv_mult.
      * apply (S_partial beta c p Hb Hp).
      * apply (D_partial gamma c p Hg Hp).
    + cbv beta. rewrite !with_coord_id.
      apply Cx_eq; ideal_simpl; ring.
Qed.

Lemma product_rule_partial (alpha : list axis) (c : axis) (p : Vec3 R) :
  (length alpha < 3)%nat -> domain p ->
  partial_at c (product_rule p0 S D alpha) p
    (product_rule p0 S D (c :: alpha) p).
Proof using S_partial D_partial.
  intros Hlen Hp. unfold product_rule, partial_at.
  eapply Cderiv_val.
  - apply Cderiv_mult; [|apply Cderiv_const].
    apply (terms_partial c p (splits alpha) Hp).
    apply Forall_forall. intros [beta gamma] Hin.
    destruct (splits_length _ _ _ Hin). cbn [fst snd]. lia.
  - cbv beta. rewrite !with_coord_id. cbn [splits].
    rewrite fmap_app, csum_app, <- !list_fmap_compose.
    unfold compose. cbn [fst snd].
    generalize (csum ((fun bg : list axis * list axis =>
                         S (c :: bg.1) p * D bg.2 p)%cx <$> splits alpha))
               (csum ((fun bg : list axis * list axis =>
                         S bg.1 p * D (c :: bg.2) p)%cx <$> splits alpha))
               (csum ((fun bg : list axis * list axis =>
                         S bg.1 p * D bg.2 p)%cx <$> splits alpha)).
    intros z1 z2 z3. apply Cx_eq; ideal_simpl; ring.
Qed.

Lemma product_rule_is_partial (u : Vec3 R -> Cx R) (alpha : list axis) :
  (forall q, domain q -> u q = product_rule p0 S D [] q) ->
  (length alpha <= 3)%nat ->
  forall p, domain p -> is_partial alpha u p (product_rule p0 S D alpha p).
Proof using S_partial D_partial domain_open.
  intros Hu. induction alpha as [|a alpha IH]; intros Hlen p Hp.
  - simpl. symmetry. apply Hu, Hp.
  - simpl in Hlen. cbn [is_partial].
    exists (product_rule p0 S D alpha). split.
    + destruct (domain_open p Hp) as (delta & Hdelta & Hnear).
      exists delta. split; [exact Hdelta|].
      intros q Hq. apply IH; [lia | apply Hnear, Hq].
    + apply product_rule_partial; [lia | exact Hp].
Qed.
End ProductRule.

(** ** The entries of [spatial_derivatives], along axes *)

(** The closed forms do not depend on the order of the axes. *)
Lemma G_order (k : R) (s : Vec3 R) (beta beta' : list axis) (key : string)
    (p : Vec3 R) :
  key_of beta = Some key -> key_of beta' = Some key -> 0 < dist s p ->
  G k s beta p = G k s beta' p.
Proof.
  intros Hb Hb' Hr.
  pose proof (key_of_length _ _ Hb) as Hlen.
  pose proof (key_of_length _ _ Hb') as Hlen'.
  pose proof (spherical_derivatives_G (TransducerModel.mk_attrs k 0 0 0) s p
                3 beta key ltac:(lia) Hb Hr) as E.
  pose proof (spherical_derivatives_G (TransducerModel.mk_attrs k 0 0 0) s p
                3 beta' key ltac:(lia) Hb' Hr) as E'.
  rewrite E in E'. injection E' as E'. exact E'.
Qed.

Ltac axes_of_key k :=
  let alpha := eval vm_compute in (axes_of k) in alpha.

Ltac canonical beta :=
  lazymatch eval vm_compute in (key_of beta) with
  | Some ?k => axes_of_key k
  end.

Ltac entries_S away :=
  repeat match goal with
  | |- context [TransducerModel.spherical_derivatives ?self ?s ?p ?orders
                !! ?k] =>
      let alpha := axes_of_key k in
      rewrite (spherical_derivatives_G self s p orders alpha k
                 ltac:(simpl; lia) eq_refl away)
  end.

Ltac entries_D entries :=
  repeat match goal with
  | |- context [TransducerModel.cls_directivity_derivatives ?cls ?self ?s ?n
                  ?p ?orders !! ?k] =>
      let alpha := axes_of_key k in
      rewrite (entries alpha k ltac:(simpl; lia) eq_refl)
  end.

Ltac canonical_G away :=
  repeat match goal with
  | |- context [G ?k ?s ?beta ?p] =>
      let beta' := canonical beta in
      tryif constr_eq beta beta' then fail
      else rewrite (G_order k s beta beta' _ p eq_refl eq_refl away)
  end.

Ltac canonical_D order Dfam :=
  repeat match goal with
  | |- context [Dfam ?beta ?p] =>
      let beta' := canonical beta in
      tryif constr_eq beta beta' then fail
      else rewrite (order beta beta' _ ltac:(simpl; lia) eq_refl eq_refl)
  end.

Section SpatialDerivativesAxes.
Variable cls : TransducerModel.class R.
Variable self : TransducerModel.attrs R.
Variables s n p : Vec3 R.
Variable orders : Z.
Variable Dfam : list axis -> Vec3 R -> R.
Hypothesis orders_range : (0 <= orders <= 3)%Z.
Hypothesis away : 0 < dist s p.
Hypothesis Dfam_entries :
  forall alpha key,
    (Z.of_nat (length alpha) <= orders)%Z -> key_of alpha = Some key ->
    TransducerModel.cls_directivity_derivatives cls self s n p orders !! key
    = Some (Dfam alpha p).

Lemma Dfam_order (beta beta' : list axis) (key : string) :
  (Z.of_nat (length beta) <= orders)%Z ->
  key_of beta = Some key -> key_of beta' = Some key ->
  Dfam beta p = Dfam beta' p.
Proof using Dfam_entries.
  intros Hlen Hb Hb'.
  assert (Hlen' : length beta' = length beta).
  { rewrite <- (count_axis_length beta), <- (count_axis_length beta').
    unfold key_of, key_of_mi in Hb, Hb'.
    destruct (count_axis Ax_x beta) as [|[|[|[|?]]]];
      destruct (count_axis Ax_y beta) as [|[|[|[|?]]]];
      destruct (count_axis Ax_z beta) as [|[|[|[|?]]]];
      simplify_eq;
      destruct (count_axis Ax_x beta') as [|[|[|[|?]]]];
      destruct (count_axis Ax_y beta') as [|[|[|[|?]]]];
      destruct (count_axis Ax_z beta') as [|[|[|[|?]]]];
      simplify_eq; reflexivity. }
  pose proof (Dfam_entries beta key Hlen Hb) as E.
  pose proof (Dfam_entries beta' key ltac:(lia) Hb') as E'.
  rewrite E in E'. injection E' as E'. exact E'.
Qed.

Lemma directivity_derivatives_keys (key : string) :
  key ∈ keys_upto orders ->
  is_Some (TransducerModel.cls_directivity_derivatives cls self s n p orders
           !! key).
Proof using Dfam_entries orders_range.
  intros Hin. destruct (keys_upto_axes orders key) as [Hlen Hkey];
    [lia | exact Hin |].
  rewrite (Dfam_entries _ _ Hlen Hkey). eexists. reflexivity.
Qed.

Lemma spatial_derivatives_axes :
  exists sd,
    TransducerModel.spatial_derivatives cls self s n p orders = Some sd /\
    forall alpha key,
      (Z.of_nat (length alpha) <= orders)%Z -> key_of alpha = Some key ->
      sd !! key
      = Some (product_rule (TransducerModel.p0 self)
                (G (TransducerModel._k self) s)
                (fun alpha q => cof (Dfam alpha q)) alpha p).
Proof using Dfam_entries orders_range away.
  destruct (product_rule_leibniz cls self s n p orders orders_range
              directivity_derivatives_keys) as (sd & Hsd & Hentries & _).
  exists sd. split; [exact Hsd|]. intros alpha key Hlen Hkey.
  pose proof (key_of_length _ _ Hkey) as Hlen3.
  rewrite (Hentries (count_axis Ax_x alpha, count_axis Ax_y alpha,
                     count_axis Ax_z alpha) key);
    [| unfold mi_order; rewrite count_axis_length; exact Hlen | exact Hkey].
  assert (Hentry : forall alpha : list axis,
            (Z.of_nat (length alpha) <= orders)%Z ->
            (length alpha <= 3)%nat ->
            is_Some (key_of alpha) ->
            (Some (cof (TransducerModel.p0 self))
             * leibniz (TransducerModel.spherical_derivatives self s p orders)
                 (cof <$> TransducerModel.cls_directivity_derivatives cls
                            self s n p orders)
                 (count_axis Ax_x alpha, count_axis Ax_y alpha,
                  count_axis Ax_z alpha))%py
            = Some (product_rule (TransducerModel.p0 self)
                      (G (TransducerModel._k self) s)
                      (fun alpha q => cof (Dfam alpha q)) alpha p)).
  2:{ apply Hentry; [exact Hlen | exact Hlen3 | eexists; exact Hkey]. }
  clear alpha key Hlen Hkey Hlen3 Hentries Hsd.
  intros alpha Hlen Hlen3 [key Hkey].
  destruct alpha as [|a [|b [|c [|? ?]]]]; [| | | |simpl in Hlen3; lia];
    [ | destruct a | destruct a, b | destruct a, b, c];
    vm_compute in Hkey; simplify_eq; simpl in Hlen;
    match goal with
    | |- context [leibniz _ _ ?mi] =>
        let mi' := eval vm_compute in mi in change mi with mi'
    end;
    unfold leibniz, sub_indices; py_simpl; rewrite ?lookup_fmap;
    entries_S away; entries_D Dfam_entries; py_simpl; f_equal;
    unfold product_rule;
    cbn [splits fmap list_fmap app fst snd]; rewrite ?csum_cons;
    unfold csum; cbn [foldr];
    canonical_G away; canonical_D Dfam_order Dfam;
    apply Cx_eq; ideal_simpl; ring.
Qed.
End SpatialDerivativesAxes.

(** ** The entries of [spatial_derivatives] are the derivatives of
    [greens_function] *)

Lemma ring_partial_at (j0 j1 : R -> R) (ka : R) (s n : Vec3 R)
    (alpha : list axis) (c : axis) (p : Vec3 R) :
  bessel_derivatives j0 j1 -> ka <> 0 -> 0 < vsum (vsq n) ->
  (length alpha < 3)%nat ->
  0 < dist s p /\ 0 < 1 - cos_partial s n [] p ^ 2 ->
  partial_at c (fun q => cof (ring_partial j0 j1 ka s n alpha q)) p
    (cof (ring_partial j0 j1 ka s n (c :: alpha) p)).
Proof.
  intros Hj Hka Hn Hlen [Hr Hc].
  unfold partial_at, Cderiv. cbn [re im cof lit ideal]. split.
  - apply ring_partial_deriv; assumption.
  - apply dpl_const.
Qed.

Lemma key_of_empty (alpha : list axis) : key_of alpha = Some "" -> alpha = [].
Proof.
  intros Hkey. apply length_zero_iff_nil.
  rewrite <- (count_axis_length alpha).
  unfold key_of, key_of_mi in Hkey.
  destruct (count_axis Ax_x alpha) as [|[|[|[|?]]]];
    destruct (count_axis Ax_y alpha) as [|[|[|[|?]]]];
    destruct (count_axis Ax_z alpha) as [|[|[|[|?]]]];
    simplify_eq; reflexivity.
Qed.

(** X24. With the derivatives [j0' = - j1] and [j1' = j0 - j1 / x] of the
    Bessel functions, a wavenumber and a radius other than zero, a normal
    other than zero and a receiver away from the source and off its axis,
    every entry of [spatial_derivatives] of the ring model is the iterated
    partial derivative of its [greens_function], in the receiver position,
    along the axes the name of the entry spells, taken in any order. *)
Theorem CircularRing_spatial_derivatives_exact (j0 j1 : R -> R)
    (self : TransducerModel.attrs R)
    (source_position source_normal receiver_position : Vec3 R) (orders : Z)
    (alpha : list axis) (key : string) :
  bessel_derivatives j0 j1 ->
  TransducerModel.k self * TransducerModel.effective_radius self <> 0 ->
  0 < dist source_position receiver_position ->
  0 < vsum (vsq source_normal) ->
  sin_angle source_position source_normal receiver_position <> 0 ->
  (0 <= orders <= 3)%Z ->
  (Z.of_nat (length alpha) <= orders)%Z -> key_of alpha = Some key ->
  exists sd value,
    TransducerModel.spatial_derivatives (CircularRing.cls j0 j1) self
      source_position source_normal receiver_position orders = Some sd /\
    sd !! key = Some value /\
    is_partial alpha
      (TransducerModel.greens_function (CircularRing.cls j0 j1) self
         source_position source_normal)
      receiver_position value.
Proof.
  intros Hj Hka Hr Hn Hsin Hord Hlen Hkey.
  pose proof (sin_angle_off_axis _ _ _ Hsin) as Hc.
  destruct (spatial_derivatives_axes (CircularRing.cls j0 j1) self
              source_position source_normal receiver_position orders
              (ring_partial j0 j1
                 (TransducerModel.k self
                  * TransducerModel.effective_radius self)
                 source_position source_normal) Hord Hr)
    as (sd & Hsd & Hentries).
  { intros beta k Hb Hk.
    apply (CircularRing_derivatives_partial j0 j1 self source_position
             source_normal receiver_position orders beta k); assumption. }
  exists sd. eexists. split; [exact Hsd|]. split.
  - exact (Hentries alpha key Hlen Hkey).
  - apply (product_rule_is_partial _ _
             (fun q => 0 < dist source_position q /\
                       0 < 1 - cos_partial source_position source_normal [] q
                               ^ 2)).
    + intros beta c p Hb [Hp _]. apply G_partial; assumption.
    + intros beta c p Hb Hp. apply ring_partial_at; assumption.
    + intros p [Hp Hcp]. apply near_off_axis; assumption.
    + intros q [Hq _]. unfold TransducerModel.greens_function, product_rule.
      cbn [splits fmap list_fmap fst snd]. rewrite csum_cons.
      unfold csum; cbn [foldr].
      rewrite (spherical_spreading_P0 self source_position q Hq).
      change (TransducerModel.cls_directivity (CircularRing.cls j0 j1) self
                source_position source_normal q)
        with (CircularRing.directivity j0 self source_position source_normal
                q).
      rewrite (CircularRing_directivity_ring_partial j0 j1).
      apply Cx_eq; ideal_simpl; ring.
    + eapply key_of_length, Hkey.
    + split; assumption.
Qed.

Lemma CircularRing_spatial_derivatives_exact_witness :
  exists sd value,
    TransducerModel.spatial_derivatives
      (CircularRing.cls (fun _ => 0) (fun _ => 0))
      (TransducerModel.mk_attrs 1 343 1 6) (mkVec3 0 0 0) (mkVec3 0 0 1)
      (mkVec3 1 0 0) 3 = Some sd /\
    sd !! "xy" = Some value /\
    is_partial [Ax_x; Ax_y]
      (TransducerModel.greens_function
         (CircularRing.cls (fun _ => 0) (fun _ => 0))
         (TransducerModel.mk_attrs 1 343 1 6) (mkVec3 0 0 0) (mkVec3 0 0 1))
      (mkVec3 1 0 0) value.
Proof.
  apply (CircularRing_spatial_derivatives_exact (fun _ => 0) (fun _ => 0)
           (TransducerModel.mk_attrs 1 343 1 6) (mkVec3 0 0 0) (mkVec3 0 0 1)
           (mkVec3 1 0 0) 3 [Ax_x; Ax_y] "xy").
  - split.
    + intros x. eapply dpl_val; [apply dpl_const | ring].
    + intros x _. eapply dpl_val; [apply dpl_const | unfold Rdiv; ring].
  - simpl. lra.
  - apply dist_sq_pos. simpl. lra.
  - simpl. lra.
  - unfold sin_angle. cbv zeta.
    assert (Hdot : vdot (vsub (mkVec3 1 0 0) (mkVec3 0 0 0)) (mkVec3 0 0 1)
                   = 0) by (ideal_simpl; ring).
    rewrite Hdot. cbn [lit fsub fdiv fpow fsqrt ideal].
    match goal with
    | |- sqrt (1 - (0 / ?X / ?Y) ^ 2) <> 0 =>
        replace (1 - (0 / X / Y) ^ 2) with 1 by (unfold Rdiv; ring)
    end.
    rewrite sqrt_1. lra.
  - lia.
  - simpl. lia.
  - reflexivity.
Defined.

Lemma point_source_exact (self : TransducerModel.attrs R)
    (source_position source_normal receiver_position : Vec3 R) (orders : Z) :
  0 < dist source_position receiver_position -> (0 <= orders <= 3)%Z ->
  exact_entries
    (TransducerModel.spatial_derivatives TransducerModel.cls self
       source_position source_normal receiver_position orders)
    (TransducerModel.greens_function TransducerModel.cls self source_position
       source_normal)
    receiver_position orders.
Proof.
  intros Hr Hord.
  destruct (spatial_derivatives_axes TransducerModel.cls self
              source_position source_normal receiver_position orders
              constant_partial Hord Hr)
    as (sd & Hsd & Hentries).
  { intros beta k Hb Hk.
    change (TransducerModel.cls_directivity_derivatives TransducerModel.cls
              self source_position source_normal receiver_position orders)
      with (TransducerModel.directivity_derivatives
              TransducerModel.directivity self source_position source_normal
              receiver_position orders).
    destruct beta as [|b beta].
    - vm_compute in Hk. simplify_eq. apply directivity_derivatives_0.
    - cbn [constant_partial].
      apply point_source_directivity_derivatives.
      + eapply (spherical_derivatives_keys self source_position
                  receiver_position).
        rewrite (spherical_derivatives_G self source_position
                   receiver_position orders (b :: beta) k Hb Hk Hr).
        eexists. reflexivity.
      + intros ->. apply key_of_empty in Hk. discriminate. }
  exists sd. split; [exact Hsd|]. intros alpha key Hlen Hkey.
  eexists. split; [exact (Hentries alpha key Hlen Hkey)|].
  apply (product_rule_is_partial _ _
           (fun q => 0 < dist source_position q)).
  - intros beta c p Hb Hp. apply G_partial; assumption.
  - intros beta c p Hb Hp. unfold partial_at.
    destruct beta; cbn [constant_partial]; apply Cderiv_const.
  - intros p Hp. apply near_dist_pos, Hp.
  - intros q Hq. unfold TransducerModel.greens_function, product_rule.
    cbn [splits fmap list_fmap fst snd]. rewrite csum_cons.
    unfold csum; cbn [foldr].
    rewrite (spherical_spreading_P0 self source_position q Hq).
    cbn [TransducerModel.cls_directivity TransducerModel.cls
         constant_partial].
    unfold TransducerModel.directivity.
    apply Cx_eq; ideal_simpl; ring.
  - eapply key_of_length, Hkey.
  - exact Hr.
Qed.

(** X25. Away from the source, every entry of [spatial_derivatives] of the
    point source, whose directivity derivatives are finite differences of
    the constant one, is the iterated partial derivative of its
    [greens_function], in the receiver position, along the axes the name of
    the entry spells, taken in any order. *)
Theorem point_source_spatial_derivatives_exact
    (self : TransducerModel.attrs R)
    (source_position source_normal receiver_position : Vec3 R) (orders : Z)
    (alpha : list axis) (key : string) :
  0 < dist source_position receiver_position ->
  (0 <= orders <= 3)%Z ->
  (Z.of_nat (length alpha) <= orders)%Z -> key_of alpha = Some key ->
  exists sd value,
    TransducerModel.spatial_derivatives TransducerModel.cls self
      source_position source_normal receiver_position orders = Some sd /\
    sd !! key = Some value /\
    is_partial alpha
      (TransducerModel.greens_function TransducerModel.cls self
         source_position source_normal)
      receiver_position value.
Proof.
  intros Hr Hord Hlen Hkey.
  destruct (point_source_exact self source_position source_normal
              receiver_position orders Hr Hord) as (sd & Hsd & Hentries).
  destruct (Hentries alpha key Hlen Hkey) as (value & Hvalue & Hpartial).
  exists sd, value. split; [exact Hsd|]. split; assumption.
Qed.

Lemma point_source_spatial_derivatives_exact_witness :
  exists sd value,
    TransducerModel.spatial_derivatives TransducerModel.cls point_source
      (mkVec3 0 0 0) (mkVec3 0 0 1) (mkVec3 1 0 0) 3 = Some sd /\
    sd !! "xxy" = Some value /\
    is_partial [Ax_y; Ax_x; Ax_x]
      (TransducerModel.greens_function TransducerModel.cls point_source
         (mkVec3 0 0 0) (mkVec3 0 0 1))
      (mkVec3 1 0 0) value.
Proof.
  apply (point_source_spatial_derivatives_exact point_source (mkVec3 0 0 0)
           (mkVec3 0 0 1) (mkVec3 1 0 0) 3 [Ax_y; Ax_x; Ax_x] "xxy").
  - apply dist_sq_pos. simpl. lra.
  - lia.
  - simpl. lia.
  - reflexivity.
Defined.

(** ** The derivatives of a reflecting transducer *)

Lemma near_min (delta1 delta2 : R) (p q : Vec3 R) :
  near (Rmin delta1 delta2) p q -> near delta1 p q /\ near delta2 p q.
Proof.
  unfold near. intros (Hx & Hy & Hz).
  pose proof (Rmin_l delta1 delta2). pose proof (Rmin_r delta1 delta2).
  repeat split; lra.
Qed.

(** The derivative along axes of a sum of a field and a multiple of
    another. *)
Lemma is_partial_linear (z : Cx R) (alpha : list axis)
    (u w : Vec3 R -> Cx R) (p : Vec3 R) (lu lw : Cx R) :
  is_partial alpha u p lu -> is_partial alpha w p lw ->
  is_partial alpha (fun q => (u q + z * w q)%cx) p (lu + z * lw)%cx.
Proof.
  revert p lu lw. induction alpha as [|a alpha IH]; intros p lu lw Hu Hw.
  - simpl in *. subst. reflexivity.
  - cbn [is_partial] in *.
    destruct Hu as (fu & (delta1 & Hdelta1 & Hnear1) & Hpu).
    destruct Hw as (fw & (delta2 & Hdelta2 & Hnear2) & Hpw).
    exists (fun q => (fu q + z * fw q)%cx). split.
    + exists (Rmin delta1 delta2). split; [apply Rmin_pos; assumption|].
      intros q Hq. apply near_min in Hq as [Hq1 Hq2].
      apply IH; [apply Hnear1, Hq1 | apply Hnear2, Hq2].
    + unfold partial_at in *.
      eapply Cderiv_val.
      * apply Cderiv_plus; [exact Hpu|].
        apply Cderiv_mult; [apply Cderiv_const | exact Hpw].
      * cbv beta. apply Cx_eq; ideal_simpl; ring.
Qed.

(** X26. A reflecting transducer keeps the derivatives exact: when the
    entries of [spatial_derivatives] of the wrapped class are the partial
    derivatives of its [greens_function], for the source and for the mirror
    source, every entry of [ReflectingTransducer.spatial_derivatives] is the
    iterated partial derivative of [ReflectingTransducer.greens_function],
    in the receiver position, along the axes its name spells. *)
Theorem reflecting_derivatives_exact (ctype : TransducerModel.class R)
    (self : ReflectingTransducer.attrs R)
    (source_position source_normal receiver_position : Vec3 R) (orders : Z) :
  let super := ReflectingTransducer.base self in
  let mirror_position :=
    ReflectingTransducer.mirror_position self source_position in
  let mirror_normal :=
    ReflectingTransducer.mirror_normal self source_normal in
  exact_entries
    (TransducerModel.spatial_derivatives ctype super source_position
       source_normal receiver_position orders)
    (TransducerModel.greens_function ctype super source_position
       source_normal)
    receiver_position orders ->
  exact_entries
    (TransducerModel.spatial_derivatives ctype super mirror_position
       mirror_normal receiver_position orders)
    (TransducerModel.greens_function ctype super mirror_position
       mirror_normal)
    receiver_position orders ->
  exact_entries
    (ReflectingTransducer.spatial_derivatives ctype self source_position
       source_normal receiver_position orders)
    (ReflectingTransducer.greens_function ctype self source_position
       source_normal)
    receiver_position orders.
Proof.
  intros super mirror_position mirror_normal
    (direct & Hd & Hdirect) (reflected & Hr & Hreflected).
  pose proof (fun key => spatial_derivatives_keys ctype super _ _ _ orders
                direct key Hd) as Kd.
  pose proof (fun key => spatial_derivatives_keys ctype super _ _ _ orders
                reflected key Hr) as Kr.
  unfold exact_entries, ReflectingTransducer.spatial_derivatives.
  fold super mirror_position mirror_normal. rewrite Hd, Hr.
  cbn [mbind option_bind].
  eexists. split.
  - apply map_traverse_Some. intros key a Hk.
    assert (Hin : is_Some (reflected !! key)).
    { apply Kr, Kd. eexists. exact Hk. }
    destruct Hin as [b ->]. simpl. eauto.
  - intros alpha key Hlen Hkey.
    destruct (Hdirect alpha key Hlen Hkey) as (v & Hv & Hpv).
    destruct (Hreflected alpha key Hlen Hkey) as (w & Hw & Hpw).
    exists (v + ReflectingTransducer.reflection_coefficient self * w)%cx.
    split.
    + rewrite map_lookup_imap, Hv. simpl. rewrite Hw. reflexivity.
    + unfold ReflectingTransducer.greens_function.
      apply (is_partial_linear
               (ReflectingTransducer.reflection_coefficient self) alpha
               (TransducerModel.greens_function ctype super source_position
                  source_normal)
               (TransducerModel.greens_function ctype super mirror_position
                  mirror_normal)); assumption.
Qed.

Lemma reflecting_derivatives_exact_witness :
  exact_entries
    (ReflectingTransducer.spatial_derivatives TransducerModel.cls
       (ReflectingTransducer.mk_attrs point_source 0 (mkVec3 0 0 1) (cof 1))
       (mkVec3 0 0 1) (mkVec3 0 0 1) (mkVec3 1 0 1) 3)
    (ReflectingTransducer.greens_function TransducerModel.cls
       (ReflectingTransducer.mk_attrs point_source 0 (mkVec3 0 0 1) (cof 1))
       (mkVec3 0 0 1) (mkVec3 0 0 1))
    (mkVec3 1 0 1) 3.
Proof.
  apply (reflecting_derivatives_exact TransducerModel.cls
           (ReflectingTransducer.mk_attrs point_source 0 (mkVec3 0 0 1)
              (cof 1))
           (mkVec3 0 0 1) (mkVec3 0 0 1) (mkVec3 1 0 1) 3).
  - apply point_source_exact; [|lia]. apply dist_sq_pos. simpl. lra.
  - apply point_source_exact; [|lia]. apply dist_sq_pos. simpl. lra.
Defined.
